(** * Agentic-local: the orchestration core, embedded and verified

    A shallow embedding of the scheduling and coordination code of the
    repository:

    - [Solvers]: [binarySearch] and [countMinSketch] of
      [src/ruvnet-ecosystem/solvers/strange-loops-manager.js];
    - [Swarm]: the [SwarmManager] class (topology connections, task dispatch,
      [achieveConsensus]);
    - [Quad]: the [QUADManager] class of
      [src/ruvnet-ecosystem/orchestration/quad-manager.js] ([createDAG],
      [topologicalSort], [executeNode], [executeDAG], [executeParallel]).

    JavaScript [Map]s are insertion ordered, and the code iterates over them,
    so they are modelled by [JsMap] (an association list whose [set] keeps the
    position of a key that is already present).  [Set]s are only tested for
    membership and size and are modelled by stdpp's [gset]; the registries
    [this.dags] and [this.swarms] are [gmap]s.  JavaScript numbers that are
    divided or compared with a threshold are IEEE-754 binary64 values
    ([spec_float] with [prec = 53] and [emax = 1024]). *)

From Stdlib Require Import ZArith List Lia SpecFloat Sorted.
From stdpp Require Import base decidable option list gmap strings.
From Equations Require Import Equations.
Import ListNotations.
#[local] Set Warnings "-register-all,-clear-no-such-hyp".

(** ** Values, errors and outcomes shared by the managers *)

(** A JavaScript value, as far as the orchestration code looks into one.
    An object is its list of own properties in insertion order. *)
Inductive value : Type :=
| VUndefined
| VNull
| VBool (b : bool)
| VNum (x : spec_float)
| VStr (s : string)
| VArr (items : list value)
| VObj (props : list (string * value)).

(** [new Error(message)]; [error.message] is all the code reads of it. *)
Record error : Type := Error { message : string }.

(** The result of running a piece of code: a value, a thrown error (a
    rejected promise), or no result at all ([Diverges]: the loop spins, or a
    recursion of the model ran out of fuel). *)
Inductive outcome (A : Type) : Type :=
| Ok (a : A)
| Throw (e : error)
| Diverges.
Arguments Ok {A} a.
Arguments Throw {A} e.
Arguments Diverges {A}.

(** [x || d] on an optional string: [undefined] and the empty string are falsy. *)
Definition str_or (x : option string) (d : string) : string :=
  match x with
  | Some s => if decide (s = EmptyString) then d else s
  | None => d
  end.

(** Truthiness of a value ([if (v)], [v || d]). *)
Definition truthy (v : value) : bool :=
  match v with
  | VUndefined | VNull => false
  | VBool b => b
  | VNum (S754_zero _) | VNum S754_nan => false
  | VNum _ => true
  | VStr s => if decide (s = EmptyString) then false else true
  | VArr _ | VObj _ => true
  end.

(** ** Insertion-ordered maps: the JavaScript [Map] *)
Module JsMap.
Section JsMap.
Context {K V : Type} `{EqDecision K}.

Definition t : Type := list (K * V).

Definition empty : t := [].

(** [m.get(k)]: [None] is [undefined]. *)
Fixpoint get (m : t) (k : K) : option V :=
  match m with
  | [] => None
  | (k', v) :: m' => if decide (k' = k) then Some v else get m' k
  end.

(** [m.set(k, v)]: a key already present keeps its place in the iteration
    order, a new key goes last. *)
Fixpoint set (m : t) (k : K) (v : V) : t :=
  match m with
  | [] => [(k, v)]
  | (k', v') :: m' => if decide (k' = k) then (k, v) :: m' else (k', v') :: set m' k v
  end.

Definition has (m : t) (k : K) : bool := bool_decide (is_Some (get m k)).

Definition keys (m : t) : list K := m.*1.
Definition values (m : t) : list V := m.*2.
Definition entries (m : t) : list (K * V) := m.
Definition size (m : t) : nat := length m.

Lemma get_None_keys m k : get m k = None <-> k ∉ keys m.
Proof.
  induction m as [| [k' v] m IH]; simpl.
  - split; [intros _; apply not_elem_of_nil | reflexivity].
  - destruct (decide (k' = k)) as [-> | Hne].
    + split; [discriminate | intros H; exfalso; apply H; left].
    + rewrite IH, not_elem_of_cons. naive_solver.
Qed.

Lemma get_Some_keys m k v : get m k = Some v -> k ∈ keys m.
Proof.
  intros H. destruct (decide (k ∈ keys m)) as [| Hn]; [assumption |].
  apply get_None_keys in Hn. congruence.
Qed.

Lemma get_set_eq m k v : get (set m k v) k = Some v.
Proof.
  induction m as [| [k' v'] m IH]; simpl.
  - rewrite decide_True; reflexivity.
  - destruct (decide (k' = k)); simpl.
    + rewrite decide_True; reflexivity.
    + rewrite decide_False; assumption.
Qed.

Lemma get_set_ne m k k' v : k <> k' -> get (set m k v) k' = get m k'.
Proof.
  intros Hne. induction m as [| [k0 v0] m IH]; simpl.
  - rewrite decide_False; [reflexivity | assumption].
  - destruct (decide (k0 = k)) as [-> | H0]; simpl.
    + rewrite !decide_False; [reflexivity | assumption | assumption].
    + destruct (decide (k0 = k')); [reflexivity | assumption].
Qed.

Lemma keys_set_in m k v : k ∈ keys m -> keys (set m k v) = keys m.
Proof.
  induction m as [| [k' v'] m IH]; simpl.
  - intros H. inversion H.
  - intros H. destruct (decide (k' = k)) as [-> | Hne]; simpl; [reflexivity |].
    f_equal. apply IH. apply elem_of_cons in H. naive_solver.
Qed.

Lemma keys_set_notin m k v : k ∉ keys m -> keys (set m k v) = keys m ++ [k].
Proof.
  induction m as [| [k' v'] m IH]; simpl; [reflexivity |].
  intros H. apply not_elem_of_cons in H as [H1 H2].
  rewrite decide_False by congruence. simpl. f_equal. apply IH, H2.
Qed.

Lemma keys_set_elem m k v k' : k' ∈ keys (set m k v) <-> k' = k \/ k' ∈ keys m.
Proof.
  destruct (decide (k ∈ keys m)) as [Hin | Hn].
  - rewrite keys_set_in by assumption. naive_solver.
  - rewrite keys_set_notin by assumption. rewrite elem_of_app, list_elem_of_singleton.
    naive_solver.
Qed.

Lemma keys_set_NoDup m k v : NoDup (keys m) -> NoDup (keys (set m k v)).
Proof.
  intros Hnd. destruct (decide (k ∈ keys m)) as [Hin | Hn].
  - rewrite keys_set_in; assumption.
  - rewrite keys_set_notin by assumption. apply NoDup_app. split; [assumption |].
    split; [| apply NoDup_singleton].
    intros x Hx Hx'. apply list_elem_of_singleton in Hx'. congruence.
Qed.

Lemma get_Some_entry m k v : get m k = Some v -> (k, v) ∈ m.
Proof.
  induction m as [| [k' v'] m IH]; simpl; [discriminate |].
  destruct (decide (k' = k)) as [-> | Hne].
  - intros [= ->]. left.
  - intros H. right. apply IH, H.
Qed.

Lemma get_of_entry m k v : NoDup (keys m) -> (k, v) ∈ m -> get m k = Some v.
Proof.
  induction m as [| [k' v'] m IH]; intros Hnd Hin; [inversion Hin |].
  simpl in Hnd. apply NoDup_cons in Hnd as [Hk Hnd]. simpl.
  apply elem_of_cons in Hin as [[= -> ->] | Hin].
  - rewrite decide_True; reflexivity.
  - destruct (decide (k' = k)) as [-> | Hne]; [| apply IH; assumption].
    exfalso. apply Hk. apply list_elem_of_fmap. exists (k, v). split; [reflexivity | assumption].
Qed.

Lemma size_set_le m k v : size m <= size (set m k v).
Proof.
  unfold size. induction m as [| [k' v'] m IH]; simpl; [lia |].
  destruct (decide (k' = k)); simpl; lia.
Qed.
End JsMap.
Arguments t : clear implicits.
End JsMap.

(** ** The solver toolbox (strange-loops-manager.js) *)
Module Solvers.
#[local] Open Scope Z_scope.

(** *** [binarySearch(arr, target)]

    The elements are compared with [===] and [<] only; both are parameters,
    so the model covers numbers as well as strings. *)
Section BinarySearch.
Context {A : Type}.
Variable strict_eq : A -> A -> bool.
Variable less_than : A -> A -> bool.

(** The returned object [{ found, index, comparisons }]. *)
Record SearchResult : Type := { found : bool; index : Z; comparisons : nat }.

(** [arr[i]]: [None] is [undefined] (an index outside the array). *)
Definition at_index (arr : list A) (i : Z) : option A :=
  if Z.ltb i 0 then None else arr !! Z.to_nat i.

(** The [while (left <= right)] loop; [lft] and [rgt] are the source's
    [left] and [right].  For [arr[mid] === undefined] both tests are false
    and the [else] branch is taken. *)
Equations? search_loop (arr : list A) (target : A) (lft rgt : Z) (comparisons : nat)
  : SearchResult by wf (Z.to_nat (rgt - lft + 1)) lt :=
search_loop arr target lft rgt comparisons with Z_le_gt_dec lft rgt => {
  | right _ := {| found := false; index := -1; comparisons := comparisons |};
  | left _ with at_index arr ((lft + rgt) / 2) => {
    | Some x with strict_eq x target => {
      | true := {| found := true; index := (lft + rgt) / 2; comparisons := S comparisons |};
      | false with less_than x target => {
        | true := search_loop arr target ((lft + rgt) / 2 + 1) rgt (S comparisons);
        | false := search_loop arr target lft ((lft + rgt) / 2 - 1) (S comparisons) } };
    | None := search_loop arr target lft ((lft + rgt) / 2 - 1) (S comparisons) } }.
Proof.
  all: Z.div_mod_to_equations; lia.
Qed.

Definition binarySearch (arr : list A) (target : A) : SearchResult :=
  search_loop arr target 0 (Z.of_nat (length arr) - 1) 0.

(** The array is in non-decreasing order: no element is [<] an earlier one. *)
Definition sorted (arr : list A) : Prop :=
  StronglySorted (fun x y => less_than y x = false) arr.

(** [target] is the element at index [k]. *)
Definition present (arr : list A) (target : A) (k : nat) : Prop :=
  exists x, arr !! k = Some x /\ strict_eq x target = true.

(** Iterations of the loop over a window of [s] candidates. *)
Definition steps_bound (s : Z) : Z := if Z.leb s 0 then 0 else Z.log2 s + 1.

Lemma steps_bound_half s s' : 1 <= s -> s' <= s / 2 -> steps_bound s' + 1 <= steps_bound s.
Proof.
  intros Hs Hs'. unfold steps_bound.
  destruct (Z.leb_spec s' 0), (Z.leb_spec s 0); try lia.
  - pose proof (Z.log2_nonneg s). lia.
  - assert (Z.log2 s' <= Z.log2 (s / 2)) by (apply Z.log2_le_mono; lia).
    assert (2 <= s) by (Z.div_mod_to_equations; lia).
    assert (Z.log2 (s / 2) = Z.log2 s - 1).
    { rewrite <- Z.div2_div, Z.div2_spec, Z.log2_shiftr by lia.
      assert (1 <= Z.log2 s) by (apply Z.log2_le_pow2; [lia | simpl; lia]). lia. }
    lia.
Qed.

Lemma steps_bound_pos s : 1 <= s -> 1 <= steps_bound s.
Proof.
  intros Hs. unfold steps_bound. destruct (Z.leb_spec s 0); [lia |].
  pose proof (Z.log2_nonneg s). lia.
Qed.

Lemma steps_bound_nonneg s : 0 <= steps_bound s.
Proof.
  unfold steps_bound. destruct (Z.leb_spec s 0); [lia |].
  pose proof (Z.log2_nonneg s). lia.
Qed.

Lemma steps_bound_log2_up n : 0 <= n -> steps_bound n <= Z.log2_up n + 1.
Proof.
  intros Hn. unfold steps_bound. destruct (Z.leb_spec n 0).
  - pose proof (Z.log2_up_nonneg n). lia.
  - pose proof (Z.le_log2_log2_up n). lia.
Qed.

Lemma search_loop_comparisons arr target lft rgt c :
  Z.of_nat (comparisons (search_loop arr target lft rgt c))
  <= Z.of_nat c + steps_bound (rgt - lft + 1).
Proof.
  funelim (search_loop arr target lft rgt c); try rewrite <- Heqcall; simpl.
  all: try match goal with IH : Z.le _ _ |- _ => revert IH end.
  - pose proof (steps_bound_nonneg (rgt - lft + 1)). lia.
  - intros IH.
    pose proof (steps_bound_half (rgt - lft + 1) ((lft + rgt) / 2 - 1 - lft + 1)) as Hh.
    assert ((lft + rgt) / 2 - 1 - lft + 1 <= (rgt - lft + 1) / 2)
      by (Z.div_mod_to_equations; lia).
    lia.
  - pose proof (steps_bound_pos (rgt - lft + 1)). lia.
  - intros IH.
    pose proof (steps_bound_half (rgt - lft + 1) (rgt - ((lft + rgt) / 2 + 1) + 1)) as Hh.
    assert (rgt - ((lft + rgt) / 2 + 1) + 1 <= (rgt - lft + 1) / 2)
      by (Z.div_mod_to_equations; lia).
    lia.
  - intros IH.
    pose proof (steps_bound_half (rgt - lft + 1) ((lft + rgt) / 2 - 1 - lft + 1)) as Hh.
    assert ((lft + rgt) / 2 - 1 - lft + 1 <= (rgt - lft + 1) / 2)
      by (Z.div_mod_to_equations; lia).
    lia.
Qed.

Lemma sorted_lookup arr i j x y :
  sorted arr -> (i < j)%nat -> arr !! i = Some x -> arr !! j = Some y ->
  less_than y x = false.
Proof.
  unfold sorted. intros Hs. revert i j. induction Hs as [| a l Hs IH Hall]; intros i j Hij Hi Hj.
  - rewrite lookup_nil in Hi. discriminate.
  - destruct j as [| j]; [lia |]. simpl in Hj. destruct i as [| i]; simpl in Hi.
    + inversion Hi; subst a. rewrite List.Forall_forall in Hall. apply Hall.
      apply list_elem_of_In. apply list_elem_of_lookup. eauto.
    + apply (IH i j); [lia | assumption | assumption].
Qed.

(** [===] decides equality of elements, and any two elements are comparable
    by [<] (no [NaN], no mixed types). *)
Hypothesis strict_eq_spec : forall x y, strict_eq x y = true <-> x = y.
Hypothesis less_than_total : forall x y, less_than x y = true \/ x = y \/ less_than y x = true.

Lemma search_loop_found arr target lft rgt c k :
  sorted arr -> arr !! k = Some target ->
  0 <= lft -> rgt < Z.of_nat (length arr) -> lft <= Z.of_nat k <= rgt ->
  found (search_loop arr target lft rgt c) = true
  /\ present arr target (Z.to_nat (index (search_loop arr target lft rgt c)))
  /\ 0 <= index (search_loop arr target lft rgt c) < Z.of_nat (length arr).
Proof using strict_eq_spec less_than_total.
  intros Hs Hk.
  funelim (search_loop arr target lft rgt c); try rewrite <- Heqcall; simpl; intros Hl Hr Hin.
  all: assert (lft <= (lft + rgt) / 2 <= rgt) as Hmid by (Z.div_mod_to_equations; lia).
  - lia.
  - unfold at_index in Heq. destruct (Z.ltb_spec ((lft + rgt) / 2) 0); [lia |].
    apply lookup_ge_None in Heq. lia.
  - unfold at_index in Heq0. destruct (Z.ltb_spec ((lft + rgt) / 2) 0); [lia |].
    split; [reflexivity |]. split; [exists x; auto |].
    apply lookup_lt_Some in Heq0. lia.
  - unfold at_index in Heq1. destruct (Z.ltb_spec ((lft + rgt) / 2) 0); [lia |].
    apply (H k); auto; try lia.
    destruct (Z_le_gt_dec (Z.of_nat k) ((lft + rgt) / 2)) as [Hle | Hgt]; [| lia].
    exfalso.
    destruct (Z.eq_dec (Z.of_nat k) ((lft + rgt) / 2)) as [He | Hne].
    + rewrite <- He, Nat2Z.id in Heq1. rewrite Hk in Heq1. inversion Heq1; subst x.
      assert (strict_eq target target = true) by (apply strict_eq_spec; reflexivity).
      congruence.
    + assert (less_than x target = false); [| congruence].
      apply (sorted_lookup arr k (Z.to_nat ((lft + rgt) / 2))); auto. lia.
  - unfold at_index in Heq1. destruct (Z.ltb_spec ((lft + rgt) / 2) 0); [lia |].
    apply (H k); auto; try lia.
    destruct (Z_le_gt_dec ((lft + rgt) / 2) (Z.of_nat k)) as [Hle | Hgt]; [| lia].
    exfalso.
    destruct (Z.eq_dec (Z.of_nat k) ((lft + rgt) / 2)) as [He | Hne].
    + rewrite <- He, Nat2Z.id in Heq1. rewrite Hk in Heq1. inversion Heq1; subst x.
      assert (strict_eq target target = true) by (apply strict_eq_spec; reflexivity).
      congruence.
    + assert (less_than target x = false) as Hlt.
      { apply (sorted_lookup arr (Z.to_nat ((lft + rgt) / 2)) k); auto. lia. }
      destruct (less_than_total x target) as [Hc | [Hc | Hc]]; try congruence.
      apply strict_eq_spec in Hc. congruence.
Qed.

(** C9: over a sorted array of length n, [binarySearch] reports at most
    ceil(log2 n) + 1 comparisons, and when the target is an element of the
    array it returns [found = true] with [index] at an element equal to the
    target.  ([Z.log2_up 0 = 0]: the bound for the empty array is 1, and the
    loop makes no comparison there.) *)
Theorem binarySearch_log_bound_and_found (arr : list A) (target : A) :
  sorted arr ->
  Z.of_nat (comparisons (binarySearch arr target))
    <= Z.log2_up (Z.of_nat (length arr)) + 1
  /\ ((exists k, present arr target k) ->
      found (binarySearch arr target) = true
      /\ 0 <= index (binarySearch arr target) < Z.of_nat (length arr)
      /\ present arr target (Z.to_nat (index (binarySearch arr target)))).
Proof using strict_eq_spec less_than_total.
  intros Hs. split.
  - pose proof (search_loop_comparisons arr target 0 (Z.of_nat (length arr) - 1) 0) as Hc.
    pose proof (steps_bound_log2_up (Z.of_nat (length arr))) as Hb.
    unfold binarySearch.
    replace (Z.of_nat (length arr) - 1 - 0 + 1) with (Z.of_nat (length arr)) in Hc by lia.
    lia.
  - intros [k [x [Hk Hx]]]. apply strict_eq_spec in Hx. subst x.
    pose proof (lookup_lt_Some _ _ _ Hk) as Hlt.
    destruct (search_loop_found arr target 0 (Z.of_nat (length arr) - 1) 0 k)
      as (Hf & Hp & Hi); auto; try lia.
Qed.
(** What the loop returns, on any array: a hit is an index of the window
    at an element [===] to the target, a miss has index -1. *)
Lemma search_loop_sound arr target lft rgt c :
  0 <= lft ->
  (found (search_loop arr target lft rgt c) = true
   /\ lft <= index (search_loop arr target lft rgt c) <= rgt
   /\ exists x, arr !! Z.to_nat (index (search_loop arr target lft rgt c)) = Some x
                /\ strict_eq x target = true)
  \/ (found (search_loop arr target lft rgt c) = false
      /\ index (search_loop arr target lft rgt c) = -1).
Proof using Type.
  funelim (search_loop arr target lft rgt c); try rewrite <- Heqcall; simpl; intros Hl.
  all: assert (lft <= (lft + rgt) / 2 <= rgt \/ rgt < lft) as Hmid
         by (Z.div_mod_to_equations; lia).
  - right. split; reflexivity.
  - destruct (H Hl) as [(Hf & Hi & Hx) | Hmiss]; [left | right; assumption].
    split; [assumption |]. split; [lia | assumption].
  - left. split; [reflexivity |]. split; [lia |]. exists x. split; [| assumption].
    unfold at_index in Heq0. destruct (Z.ltb_spec ((lft + rgt) / 2) 0); [discriminate |].
    assumption.
  - destruct H as [(Hf & Hi & Hx) | Hmiss]; [lia | left | right; assumption].
    split; [assumption |]. split; [lia | assumption].
  - destruct (H Hl) as [(Hf & Hi & Hx) | Hmiss]; [left | right; assumption].
    split; [assumption |]. split; [lia | assumption].
Qed.

(** X13: [binarySearch] never reports a wrong hit, on any array (sorted or
    not) and for any [===] and [<]: either it returns [found = true] with
    an index inside the array at an element that is [===] to the target, or
    it returns [found = false] with index -1. *)
Theorem binarySearch_sound (arr : list A) (target : A) :
  (found (binarySearch arr target) = true
   /\ 0 <= index (binarySearch arr target) < Z.of_nat (length arr)
   /\ exists x, arr !! Z.to_nat (index (binarySearch arr target)) = Some x
                /\ strict_eq x target = true)
  \/ (found (binarySearch arr target) = false /\ index (binarySearch arr target) = -1).
Proof using Type.
  unfold binarySearch.
  destruct (search_loop_sound arr target 0 (Z.of_nat (length arr) - 1) 0)
    as [(Hf & Hi & Hx) | Hmiss]; [lia | left | right; assumption].
  split; [assumption |]. split; [lia | assumption].
Qed.

End BinarySearch.

(** An instance on integers: 7 is found at index 3 of [1,3,5,7,9], within
    the bound of ceil(log2 5) + 1 = 4 comparisons. *)
Lemma binarySearch_log_bound_and_found_witness :
  Z.of_nat (comparisons (binarySearch Z.eqb Z.ltb [1; 3; 5; 7; 9] 7))
    <= Z.log2_up (Z.of_nat (length [1; 3; 5; 7; 9])) + 1
  /\ found (binarySearch Z.eqb Z.ltb [1; 3; 5; 7; 9] 7) = true
  /\ 0 <= index (binarySearch Z.eqb Z.ltb [1; 3; 5; 7; 9] 7)
       < Z.of_nat (length [1; 3; 5; 7; 9])
  /\ present Z.eqb [1; 3; 5; 7; 9] 7
       (Z.to_nat (index (binarySearch Z.eqb Z.ltb [1; 3; 5; 7; 9] 7))).
Proof.
  destruct (binarySearch_log_bound_and_found Z.eqb Z.ltb) with (arr := [1; 3; 5; 7; 9]) (target := 7)
    as [Hbound Hfound].
  - intros x y. apply Z.eqb_eq.
  - intros x y. rewrite !Z.ltb_lt. lia.
  - unfold sorted. repeat constructor.
  - split; [exact Hbound |]. apply Hfound. exists 3%nat, 7. split; reflexivity.
Defined.

Example binarySearch_example :
  binarySearch Z.eqb Z.ltb [1; 3; 5; 7; 9] 7 = {| found := true; index := 3; comparisons := 2 |}.
Proof. reflexivity. Qed.

(** *** [jumpSearch(arr, target)] *)
Section JumpSearch.
Context {A : Type}.
Variable strict_eq : A -> A -> bool.
Variable less_than : A -> A -> bool.

(** [arr[i] < target]; the comparison is false for [arr[i] === undefined]. *)
Definition below (arr : list A) (i : Z) (target : A) : bool :=
  match at_index arr i with
  | Some x => less_than x target
  | None => false
  end.

Definition miss (comparisons : nat) : SearchResult :=
  {| found := false; index := -1; comparisons := comparisons |}.

(** The first loop, [while (arr[Math.min(step, n) - 1] < target)]: its body
    sets [prev = step] and returns when [prev >= n].  Neither [step] nor [n]
    changes, so the test has the same value at every iteration; [fuel]
    bounds the iterations of the model.  The loop ends by a [return]
    ([inl]) or falls through with [(prev, comparisons)] ([inr]). *)
Fixpoint jump_loop (fuel : nat) (arr : list A) (target : A) (n step prev : Z)
    (comparisons : nat) : outcome (SearchResult + Z * nat) :=
  match fuel with
  | 0%nat => Diverges
  | S fuel' =>
      if below arr (Z.min step n - 1) target then
        if Z.leb n step then Ok (inl (miss (S comparisons)))
        else jump_loop fuel' arr target n step step (S comparisons)
      else Ok (inr (prev, comparisons))
  end.

(** The second loop, [while (arr[prev] < target)], with the test
    [arr[prev] === target] that follows it. *)
Fixpoint scan_loop (fuel : nat) (arr : list A) (target : A) (n step prev : Z)
    (comparisons : nat) : outcome SearchResult :=
  match fuel with
  | 0%nat => Diverges
  | S fuel' =>
      if below arr prev target then
        if Z.eqb (prev + 1) (Z.min step n) then Ok (miss (S comparisons))
        else scan_loop fuel' arr target n step (prev + 1) (S comparisons)
      else
        match at_index arr prev with
        | Some x =>
            if strict_eq x target
            then Ok {| found := true; index := prev; comparisons := comparisons |}
            else Ok (miss comparisons)
        | None => Ok (miss comparisons)
        end
  end.

(** [fuel] bounds the iterations of the first loop; the second loop moves
    [prev] up the array and gets one iteration per element and one more.
    [Math.floor(Math.sqrt(n))] is the integer square root for every array
    length. *)
Definition jumpSearch (fuel : nat) (arr : list A) (target : A) : outcome SearchResult :=
  let n := Z.of_nat (length arr) in
  let step := Z.sqrt n in
  match jump_loop fuel arr target n step 0 0 with
  | Ok (inl r) => Ok r
  | Ok (inr (prev, comparisons)) =>
      scan_loop (S (length arr)) arr target n step prev comparisons
  | Throw e => Throw e
  | Diverges => Diverges
  end.

Lemma jump_loop_spins (fuel : nat) (arr : list A) (target : A) (n step : Z) :
  forall prev comparisons,
    below arr (Z.min step n - 1) target = true -> step < n ->
    jump_loop fuel arr target n step prev comparisons = Diverges.
Proof.
  induction fuel as [| fuel IH]; intros prev comparisons Hbelow Hstep; [reflexivity |].
  simpl. rewrite Hbelow. destruct (Z.leb_spec n step); [lia |]. apply IH; assumption.
Qed.

(** X14: [jumpSearch] does not return when the last element of the first
    block is smaller than the target.  The first loop never advances (its
    body assigns [prev = step], and [step] is constant), so on an array of
    two or more elements with [arr[floor(sqrt(n)) - 1] < target] the loop
    is still running after any number of iterations. *)
Theorem jumpSearch_spins_past_first_block (arr : list A) (target : A) (fuel : nat) :
  2 <= Z.of_nat (length arr) ->
  below arr (Z.sqrt (Z.of_nat (length arr)) - 1) target = true ->
  jumpSearch fuel arr target = Diverges.
Proof.
  intros Hn Hbelow. unfold jumpSearch.
  assert (Z.sqrt (Z.of_nat (length arr)) < Z.of_nat (length arr)) as Hstep
    by (apply Z.sqrt_lt_lin; lia).
  rewrite jump_loop_spins; [reflexivity | | assumption].
  rewrite Z.min_l by lia. assumption.
Qed.


End JumpSearch.

(** Nine sorted numbers: the first block is [1; 2; 3].  A target inside it
    is found; for any larger target, 9 included, the first loop spins. *)
Example jumpSearch_example :
  jumpSearch Z.eqb Z.ltb 1 [1; 2; 3; 4; 5; 6; 7; 8; 9] 2
  = Ok {| found := true; index := 1; comparisons := 1 |}
  /\ jumpSearch Z.eqb Z.ltb 1000 [1; 2; 3; 4; 5; 6; 7; 8; 9] 9 = Diverges.
Proof. split; reflexivity. Qed.

Lemma jumpSearch_spins_past_first_block_witness :
  jumpSearch Z.eqb Z.ltb 1000 [1; 2; 3; 4; 5; 6; 7; 8; 9] 9 = Diverges.
Proof.
  apply (jumpSearch_spins_past_first_block Z.eqb Z.ltb [1; 2; 3; 4; 5; 6; 7; 8; 9] 9 1000).
  - simpl. lia.
  - reflexivity.
Defined.



(** *** [countMinSketch(data)] *)

(** The numbers the sketch's [query] computes with: a counter, [Infinity]
    (the initial minimum), or [NaN] ([Math.min] with an [undefined] cell). *)
Inductive count : Type :=
| Num (n : nat)
| Infinity
| NaN.

Definition Math_min (a b : count) : count :=
  match a, b with
  | NaN, _ | _, NaN => NaN
  | Infinity, y => y
  | x, Infinity => x
  | Num x, Num y => Num (Nat.min x y)
  end.

Definition width : Z := 1000.
Definition depth : nat := 7.

(** [Array.from({ length: depth }, (_, i) => i * 31)] *)
Definition hashSeeds : list Z := (fun i : nat => Z.of_nat i * 31) <$> seq 0 depth.

(** [hash(item, seed)] on the UTF-16 code units of [String(item)]; [%] is
    the remainder that takes the sign of the dividend ([Z.rem]). *)
Definition hash (codes : list Z) (seed : Z) : Z :=
  Z.abs (fold_left (fun h c => Z.rem (h * 31 + c) width) codes seed).

(** [hashSeeds[i]]; [i] ranges over [0 .. depth-1], where it is defined. *)
Definition seed_at (i : nat) : Z := default 0 (hashSeeds !! i).

Section CountMinSketch.
Context {A : Type} `{EqDecision A}.
(** [String(item)] as its list of UTF-16 code units ([charCodeAt]). *)
Variable String_codes : A -> list Z.

Definition slot (item : A) (i : nat) : nat := Z.to_nat (hash (String_codes item) (seed_at i)).

(** [sketch[i][idx]++].  The index is always inside the row ([slot_lt_width]
    below), so the out-of-range write of JavaScript never happens; [alter]
    leaves the rows unchanged there. *)
Definition bump (sketch : list (list nat)) (i idx : nat) : list (list nat) :=
  alter (alter S idx) i sketch.

(** The inner [for (let i = 0; i < depth; i++)] of the insertion loop. *)
Definition add_item (sketch : list (list nat)) (item : A) : list (list nat) :=
  fold_left (fun sk i => bump sk i (slot item i)) (seq 0 depth) sketch.

(** [Array.from({ length: depth }, () => new Array(width).fill(0))] *)
Definition empty_sketch : list (list nat) := replicate depth (replicate (Z.to_nat width) 0%nat).

(** [sketch[i][idx]] as [Math.min] reads it. *)
Definition cell (sketch : list (list nat)) (i idx : nat) : count :=
  match sketch !! i with
  | Some row => match row !! idx with Some n => Num n | None => NaN end
  | None => NaN
  end.

(** The [query] closure of the returned object. *)
Definition query_in (sketch : list (list nat)) (item : A) : count :=
  fold_left (fun mn i => Math_min mn (cell sketch i (slot item i))) (seq 0 depth) Infinity.

Record CountMinSketch : Type :=
  { sketch_name : string; sketch_width : Z; sketch_depth : nat; query : A -> count }.

Definition countMinSketch (data : list A) : CountMinSketch :=
  let sketch := fold_left add_item data empty_sketch in
  {| sketch_name := "count-min-sketch"; sketch_width := width; sketch_depth := depth;
     query := query_in sketch |}.

(** The number of elements of [data] equal to [item]. *)
Definition occurrences (item : A) (data : list A) : nat :=
  length (filter (fun d => d = item) data).

Lemma hash_range codes seed : Z.abs seed < width -> 0 <= hash codes seed < width.
Proof.
  unfold hash. revert seed.
  induction codes as [| c codes IH]; intros h Hh; simpl; [lia |].
  apply IH. apply (Z.rem_bound_abs (h * 31 + c) width). discriminate.
Qed.

Lemma seed_at_range i : Z.abs (seed_at i) < width.
Proof.
  unfold seed_at, hashSeeds, width.
  do 7 (destruct i as [| i]; [simpl; lia |]). simpl. lia.
Qed.

Lemma slot_lt_width item i : (slot item i < Z.to_nat width)%nat.
Proof.
  unfold slot. pose proof (hash_range (String_codes item) (seed_at i) (seed_at_range i)).
  unfold width in *. lia.
Qed.

(** Row [i] after a sequence of bumps, one per index of [rows]. *)
Lemma bumps_lookup (f : nat -> nat) (rows : list nat) (sketch : list (list nat)) (i : nat) :
  NoDup rows ->
  fold_left (fun sk r => bump sk r (f r)) rows sketch !! i
  = if decide (i ∈ rows) then alter S (f i) <$> sketch !! i else sketch !! i.
Proof.
  revert sketch. induction rows as [| r rows IH]; intros sketch Hnd; cbn [fold_left].
  - rewrite decide_False; [reflexivity | apply not_elem_of_nil].
  - apply NoDup_cons in Hnd as [Hr Hnd]. rewrite IH by assumption. unfold bump.
    destruct (decide (i = r)) as [-> | Hne].
    + rewrite (decide_False (P := r ∈ rows)) by assumption.
      rewrite decide_True by left. apply list_lookup_alter_eq.
    + rewrite list_lookup_alter_ne by congruence.
      destruct (decide (i ∈ rows)) as [Hin | Hn].
      * rewrite decide_True by (right; assumption). reflexivity.
      * rewrite decide_False; [reflexivity |].
        intros H. apply elem_of_cons in H. naive_solver.
Qed.

Lemma add_item_row sketch item i :
  (i < depth)%nat -> add_item sketch item !! i = alter S (slot item i) <$> sketch !! i.
Proof.
  intros Hi. unfold add_item.
  rewrite (bumps_lookup (slot item)) by apply NoDup_seq.
  rewrite decide_True; [reflexivity |]. apply elem_of_seq. lia.
Qed.

(** Every counter a later [item] hashes to has grown by one per occurrence. *)
Lemma fold_add_item_cell data : forall sketch item i row n,
  (i < depth)%nat -> sketch !! i = Some row -> row !! slot item i = Some n ->
  exists row' n', fold_left add_item data sketch !! i = Some row'
                  /\ row' !! slot item i = Some n'
                  /\ (n + occurrences item data <= n')%nat.
Proof.
  induction data as [| d data IH]; intros sketch item i row n Hi Hrow Hn; simpl.
  - exists row, n. unfold occurrences. simpl. split; [assumption |]. split; [assumption | lia].
  - pose proof (add_item_row sketch d i Hi) as Hstep. rewrite Hrow in Hstep. simpl in Hstep.
    unfold occurrences. rewrite filter_cons.
    destruct (decide (d = item)) as [-> | Hne].
    + destruct (IH (add_item sketch item) item i _ (S n) Hi Hstep) as (row' & n' & H1 & H2 & H3).
      { rewrite list_lookup_alter_eq, Hn. reflexivity. }
      exists row', n'. split; [assumption |]. split; [assumption |].
      unfold occurrences in H3. simpl. lia.
    + destruct (decide (slot d i = slot item i)) as [He | Hs].
      * destruct (IH (add_item sketch d) item i _ (S n) Hi Hstep) as (row' & n' & H1 & H2 & H3).
        { rewrite He, list_lookup_alter_eq, Hn. reflexivity. }
        exists row', n'. split; [assumption |]. split; [assumption |].
        unfold occurrences in H3. lia.
      * destruct (IH (add_item sketch d) item i _ n Hi Hstep) as (row' & n' & H1 & H2 & H3).
        { rewrite list_lookup_alter_ne by assumption. assumption. }
        exists row', n'. split; [assumption |]. split; [assumption |].
        unfold occurrences in H3. lia.
Qed.

Lemma empty_sketch_cell item i :
  (i < depth)%nat ->
  exists row, empty_sketch !! i = Some row /\ row !! slot item i = Some 0%nat.
Proof.
  intros Hi. exists (replicate (Z.to_nat width) 0%nat). unfold empty_sketch. split.
  - apply lookup_replicate. split; [reflexivity | assumption].
  - apply lookup_replicate. split; [reflexivity | apply slot_lt_width].
Qed.

(** A minimum over rows whose cells are all counters of at least [n]. *)
Lemma query_fold_lower sketch item n rows : forall mn,
  (forall i, i ∈ rows -> exists c, cell sketch i (slot item i) = Num c /\ (n <= c)%nat) ->
  (mn = Infinity /\ rows <> [] \/ exists m, mn = Num m /\ (n <= m)%nat) ->
  exists q, fold_left (fun mn i => Math_min mn (cell sketch i (slot item i))) rows mn = Num q
            /\ (n <= q)%nat.
Proof.
  induction rows as [| r rows IH]; intros mn Hcells Hmn; simpl.
  - destruct Hmn as [[_ Hne] | (m & -> & Hm)]; [congruence | eauto].
  - destruct (Hcells r) as (c & Hc & Hle); [left |]. rewrite Hc.
    apply IH; [intros i Hi; apply Hcells; right; assumption |]. right.
    destruct Hmn as [[-> _] | (m & -> & Hm)]; simpl; [eauto |].
    exists (Nat.min m c). split; [reflexivity | lia].
Qed.

(** C10: the count-min sketch never underestimates.  For every data list and
    every item, [query(item)] is a counter (not [Infinity] or [NaN]) that is
    at least the number of occurrences of that item in the data. *)
Theorem countMinSketch_never_underestimates (data : list A) (item : A) :
  exists q, query (countMinSketch data) item = Num q
            /\ (occurrences item data <= q)%nat.
Proof.
  unfold countMinSketch, query, query_in.
  apply query_fold_lower.
  - intros i Hi. apply elem_of_seq in Hi.
    destruct (empty_sketch_cell item i) as (row & Hrow & Hn); [lia |].
    destruct (fold_add_item_cell data empty_sketch item i row 0%nat) as (row' & n' & H1 & H2 & H3);
      [lia | assumption | assumption |].
    exists n'. unfold cell. rewrite H1, H2. split; [reflexivity | lia].
  - left. split; [reflexivity | discriminate].
Qed.
(** A counter grows by at most one per inserted item, and by exactly the
    occurrences of [item] in a row where no other item shares its slot. *)
Lemma fold_add_item_cell_upper data : forall sketch item i row n,
  (i < depth)%nat -> sketch !! i = Some row -> row !! slot item i = Some n ->
  exists row' n', fold_left add_item data sketch !! i = Some row'
                  /\ row' !! slot item i = Some n'
                  /\ (n' <= n + length data)%nat
                  /\ ((forall d, d ∈ data -> d <> item -> slot d i <> slot item i) ->
                      n' = (n + occurrences item data)%nat).
Proof.
  induction data as [| d data IH]; intros sketch item i row n Hi Hrow Hn; simpl.
  - exists row, n. unfold occurrences. simpl.
    split; [assumption |]. split; [assumption |]. split; lia.
  - pose proof (add_item_row sketch d i Hi) as Hstep. rewrite Hrow in Hstep. simpl in Hstep.
    unfold occurrences. rewrite filter_cons.
    destruct (decide (slot d i = slot item i)) as [He | Hs].
    + destruct (IH (add_item sketch d) item i _ (S n) Hi Hstep) as (row' & n' & H1 & H2 & H3 & H4).
      { rewrite He, list_lookup_alter_eq, Hn. reflexivity. }
      exists row', n'. split; [assumption |]. split; [assumption |]. split; [lia |].
      intros Hfree. destruct (decide (d = item)) as [-> | Hne].
      * rewrite H4 by (intros d' Hd'; apply Hfree; right; assumption).
        unfold occurrences. simpl. lia.
      * exfalso. apply (Hfree d); [left | assumption | assumption].
    + destruct (IH (add_item sketch d) item i _ n Hi Hstep) as (row' & n' & H1 & H2 & H3 & H4).
      { rewrite list_lookup_alter_ne by assumption. assumption. }
      exists row', n'. split; [assumption |]. split; [assumption |]. split; [lia |].
      intros Hfree. rewrite decide_False by (intros ->; apply Hs; reflexivity).
      apply H4. intros d' Hd'. apply Hfree. right. assumption.
Qed.

(** A minimum over rows whose cells are all counters is at most any one of
    them. *)
Lemma query_fold_upper sketch item n rows : forall mn,
  (forall i, i ∈ rows -> exists c, cell sketch i (slot item i) = Num c) ->
  (exists i c, i ∈ rows /\ cell sketch i (slot item i) = Num c /\ (c <= n)%nat)
  \/ (exists m, mn = Num m /\ (m <= n)%nat) ->
  mn <> NaN ->
  exists q, fold_left (fun mn i => Math_min mn (cell sketch i (slot item i))) rows mn = Num q
            /\ (q <= n)%nat.
Proof.
  induction rows as [| r rows IH]; intros mn Hcells Hbound Hmn; simpl.
  - destruct Hbound as [(i & c & Hi & _) | (m & -> & Hm)]; [inversion Hi | eauto].
  - destruct (Hcells r) as (cr & Hcr); [left |]. rewrite Hcr.
    apply IH; [intros i Hi; apply Hcells; right; assumption | |].
    + destruct Hbound as [(i & c & Hi & Hc & Hle) | (m & -> & Hm)].
      * apply elem_of_cons in Hi as [-> | Hi]; [| left; eauto].
        right. rewrite Hcr in Hc. injection Hc as ->.
        destruct mn as [m | |]; simpl; [| eauto | congruence].
        exists (Nat.min m c). split; [reflexivity | lia].
      * right. simpl. exists (Nat.min m cr). split; [reflexivity | lia].
    + destruct mn; simpl; congruence.
Qed.

Lemma sketch_cells (data : list A) (item : A) (i : nat) :
  (i < depth)%nat ->
  exists c, cell (fold_left add_item data empty_sketch) i (slot item i) = Num c
            /\ (c <= length data)%nat
            /\ ((forall d, d ∈ data -> d <> item -> slot d i <> slot item i) ->
                c = occurrences item data).
Proof.
  intros Hi. destruct (empty_sketch_cell item i Hi) as (row & Hrow & Hn).
  destruct (fold_add_item_cell_upper data empty_sketch item i row 0%nat Hi Hrow Hn)
    as (row' & n' & H1 & H2 & H3 & H4).
  exists n'. unfold cell. rewrite H1, H2. split; [reflexivity |]. split; [lia |].
  intros Hfree. rewrite (H4 Hfree). reflexivity.
Qed.

(** X18: a count-min sketch never counts more than it was given: for every
    data list and item, [query(item)] is a counter of at most the number of
    items inserted (so every query on the sketch of no data is 0). *)
Theorem countMinSketch_bounded_by_size (data : list A) (item : A) :
  exists q, query (countMinSketch data) item = Num q /\ (q <= length data)%nat.
Proof.
  unfold countMinSketch, query, query_in.
  apply query_fold_upper; [| | discriminate].
  - intros i Hi. apply elem_of_seq in Hi.
    destruct (sketch_cells data item i) as (c & Hc & _); [lia | eauto].
  - left. destruct (sketch_cells data item 0%nat) as (c & Hc & Hle & _); [unfold depth; lia |].
    exists 0%nat, c. split; [| auto]. apply elem_of_seq. unfold depth. lia.
Qed.

(** X19: the sketch is exact where a row separates the item from the
    others.  If in some row no other element of the data hashes to the slot
    of [item], [query(item)] is the number of occurrences of [item]. *)
Theorem countMinSketch_exact_without_collision (data : list A) (item : A) (i : nat) :
  (i < depth)%nat ->
  (forall d, d ∈ data -> d <> item -> slot d i <> slot item i) ->
  query (countMinSketch data) item = Num (occurrences item data).
Proof.
  intros Hi Hfree.
  assert (exists q, query (countMinSketch data) item = Num q
                    /\ (q <= occurrences item data)%nat) as (q & Hq & Hle).
  { unfold countMinSketch, query, query_in. apply query_fold_upper; [| | discriminate].
    - intros k Hk. apply elem_of_seq in Hk.
      destruct (sketch_cells data item k) as (c & Hc & _); [lia | eauto].
    - left. destruct (sketch_cells data item i Hi) as (c & Hc & _ & Hexact).
      exists i, c. split; [apply elem_of_seq; lia |]. split; [assumption |].
      rewrite (Hexact Hfree). lia. }
  assert (exists q', query (countMinSketch data) item = Num q'
                     /\ (occurrences item data <= q')%nat) as (q' & Hq' & Hge).
  { unfold countMinSketch, query, query_in. apply query_fold_lower.
    - intros k Hk. apply elem_of_seq in Hk.
      destruct (empty_sketch_cell item k) as (row & Hrow & Hn); [lia |].
      destruct (fold_add_item_cell data empty_sketch item k row 0%nat)
        as (row' & n' & H1 & H2 & H3); [lia | assumption | assumption |].
      exists n'. unfold cell. rewrite H1, H2. split; [reflexivity | lia].
    - left. split; [reflexivity | discriminate]. }
  rewrite Hq in Hq'. injection Hq' as <-. rewrite Hq. f_equal. lia.
Qed.

End CountMinSketch.

(** The code units of a string of 8-bit characters. *)
Definition char_codes (s : string) : list Z :=
  (fun c => Z.of_nat (Ascii.nat_of_ascii c)) <$> String.list_ascii_of_string s.

Example countMinSketch_example :
  query (countMinSketch char_codes ["apple"; "pear"; "apple"]%string) "apple"%string = Num 2
  /\ query (countMinSketch char_codes ["apple"; "pear"; "apple"]%string) "plum"%string = Num 0.
Proof. vm_compute. split; reflexivity. Qed.
(** In row 0, 'pear' does not share the slot of 'apple'. *)
Lemma countMinSketch_exact_without_collision_witness :
  query (countMinSketch char_codes ["apple"; "pear"; "apple"]%string) "apple"%string
  = Num (occurrences "apple"%string ["apple"; "pear"; "apple"]%string).
Proof.
  apply (countMinSketch_exact_without_collision char_codes
           ["apple"; "pear"; "apple"]%string "apple"%string 0%nat).
  - unfold depth. lia.
  - intros d Hd Hne.
    apply elem_of_cons in Hd as [-> | Hd]; [congruence |].
    apply elem_of_cons in Hd as [-> | Hd]; [vm_compute; lia |].
    apply elem_of_cons in Hd as [-> | Hd]; [congruence | inversion Hd].
Defined.


(** *** Plain objects

    An object created by [{}] is modelled by the finite map of its own
    properties.  It inherits the properties of [Object.prototype]; a read
    of a name that is no own property gives [undefined] or, for these
    names, a member of [Object.prototype] (a function, or the prototype
    itself for [__proto__]), never a value stored in the object. *)
Definition Object_prototype_names : list string :=
  ["constructor"; "__defineGetter__"; "__defineSetter__"; "hasOwnProperty";
   "__lookupGetter__"; "__lookupSetter__"; "isPrototypeOf"; "propertyIsEnumerable";
   "toString"; "valueOf"; "__proto__"; "toLocaleString"]%string.

Section PlainObject.
Context {A : Type}.

(** [o[k] = v] for a primitive value [v] (a number, a string, a boolean or
    [undefined]).  The name becomes, or stays, an own property; only for
    [__proto__] that is no own property does the assignment reach the
    inherited setter, which ignores a primitive. *)
Definition assign (o : gmap string A) (k : string) (v : A) : gmap string A :=
  if decide (k = "__proto__"%string) then
    match o !! k with
    | Some _ => <[k := v]> o
    | None => o
    end
  else <[k := v]> o.

(** [k in o] *)
Definition has_property (o : gmap string A) (k : string) : bool :=
  bool_decide (is_Some (o !! k)) || bool_decide (k ∈ Object_prototype_names).

Lemma assign_insert (o : gmap string A) (k : string) (v : A) :
  k <> "__proto__"%string \/ is_Some (o !! k) -> assign o k v = <[k := v]> o.
Proof.
  unfold assign. intros [Hk | [x Hx]].
  - rewrite decide_False by assumption. reflexivity.
  - rewrite Hx. destruct (decide _); reflexivity.
Qed.

Lemma lookup_assign_untouched (o : gmap string A) (k k' : string) (v : A) :
  k' <> k \/ (k' = "__proto__"%string /\ o !! k' = None) -> assign o k v !! k' = o !! k'.
Proof.
  unfold assign. intros Hk. destruct (decide (k' = k)) as [-> | Hne].
  - destruct Hk as [Hk | [-> Hnone]]; [contradiction |].
    rewrite decide_True by reflexivity. rewrite Hnone. assumption.
  - destruct (decide (k = "__proto__"%string)); [destruct (o !! k) |];
      try reflexivity; apply lookup_insert_ne; congruence.
Qed.

Lemma lookup_delete_untouched (o : gmap string A) (k k' : string) :
  k' <> k \/ (k' = "__proto__"%string /\ o !! k' = None) -> delete k o !! k' = o !! k'.
Proof.
  intros Hk. destruct (decide (k' = k)) as [-> | Hne].
  - destruct Hk as [Hk | [_ Hnone]]; [contradiction |]. rewrite lookup_delete_eq, Hnone.
    reflexivity.
  - apply lookup_delete_ne. congruence.
Qed.

Lemma delete_assign (o : gmap string A) (k : string) (v : A) :
  delete k (assign o k v) = delete k o.
Proof.
  unfold assign. destruct (decide (k = "__proto__"%string)); [destruct (o !! k) |];
    try reflexivity; apply delete_insert_eq.
Qed.

Lemma has_property_own (o : gmap string A) (k : string) :
  k ∉ Object_prototype_names -> has_property o k = bool_decide (is_Some (o !! k)).
Proof.
  intros Hk. unfold has_property. rewrite (bool_decide_eq_false_2 _ Hk). apply orb_false_r.
Qed.

Lemma lookup_assign_Some (o : gmap string A) (k k' : string) (v d : A) :
  assign o k v !! k' = Some d -> (k' = k /\ d = v) \/ o !! k' = Some d.
Proof.
  unfold assign. destruct (decide (k = "__proto__"%string)); [destruct (o !! k) |]; auto;
    (destruct (decide (k = k')) as [<- | Hne];
     [rewrite lookup_insert_eq; intros [= <-]; auto
     | rewrite lookup_insert_ne by assumption; auto]).
Qed.

Lemma assign_no_proto (o : gmap string A) (k : string) (v : A) :
  o !! "__proto__"%string = None -> assign o k v !! "__proto__"%string = None.
Proof.
  intros Hnone. rewrite lookup_assign_untouched; [assumption |]. right. auto.
Qed.

Lemma is_Some_assign (o : gmap string A) (k k' : string) (v : A) :
  o !! "__proto__"%string = None ->
  is_Some (assign o k v !! k') <-> is_Some (o !! k') \/ (k' = k /\ k' <> "__proto__"%string).
Proof.
  intros Hnone. unfold assign. destruct (decide (k = "__proto__"%string)) as [-> | Hk].
  - rewrite Hnone. split; [auto |]. intros [H | [-> H]]; [assumption | contradiction].
  - rewrite lookup_insert_is_Some'. split.
    + intros [<- | H]; auto.
    + intros [H | [-> _]]; auto.
Qed.
End PlainObject.

(** *** [solveConstraint(problem)]: the backtracking search *)

(** The values of the domains are primitive values.  ([null] or an object
    assigned under the name [__proto__] would replace the prototype of
    [assignment]; the problems modelled here hold neither.) *)
Inductive Primitive : Type :=
| PUndefined
| PBoolean (b : bool)
| PNumber (x : spec_float)
| PString (s : string).

Section SolveConstraint.

(** A constraint [{ variables, check }]; [check(assignment)] is read for
    its truth value and is taken to be a function of the own properties of
    the assignment. *)
Record Constraint : Type :=
  { constraint_variables : list string;
    check : gmap string Primitive -> bool }.

(** The problem [{ variables, domains, constraints }]; [domains] holds the
    own properties of the object. *)
Record Problem : Type :=
  { variables : list string;
    domains : gmap string (list Primitive);
    constraints : list Constraint }.

(** The result [{ solved, assignment, variables, constraints }];
    [assignment] is [null] ([None]) when the search fails. *)
Record Solution : Type :=
  { solved : bool;
    assignment : option (gmap string Primitive);
    variables_count : nat;
    constraints_count : nat }.

(** [constraint.variables.every(v => v in assignment)] *)
Definition fully_assigned (c : Constraint) (a : gmap string Primitive) : bool :=
  forallb (has_property a) (constraint_variables c).

(** Some constraint whose variables are all in the assignment fails its
    check. *)
Definition violated (cs : list Constraint) (a : gmap string Primitive) : bool :=
  existsb (fun c => fully_assigned c a && negb (check c a)) cs.

(** The closure [isConsistent(var_, value)]: it assigns the value, and
    takes the assignment back when a constraint is violated.  The result is
    the returned boolean with the object [assignment] as the call left it. *)
Definition isConsistent (cs : list Constraint) (a : gmap string Primitive) (var_ : string) (value : Primitive)
  : bool * gmap string Primitive :=
  if violated cs (assign a var_ value)
  then (false, delete var_ (assign a var_ value))
  else (true, assign a var_ value).

(** [domains[var_] || []], as the loop [for (const value of domain)] takes
    it: an own property is the array; for a name of [Object.prototype] that
    is no own property the read gives a member of the prototype, which is
    truthy and cannot be iterated. *)
Definition domain_of (doms : gmap string (list Primitive)) (var_ : string) : outcome (list Primitive) :=
  match doms !! var_ with
  | Some domain => Ok domain
  | None =>
      if bool_decide (var_ ∈ Object_prototype_names)
      then Throw (Error "domain is not iterable")
      else Ok []
  end.

(** The loop [for (const value of domain)] of [backtrack(varIndex)];
    [next] is [backtrack(varIndex + 1)]. *)
Fixpoint try_values (next : gmap string Primitive -> outcome (bool * gmap string Primitive))
    (cs : list Constraint) (var_ : string) (domain : list Primitive) (a : gmap string Primitive)
  : outcome (bool * gmap string Primitive) :=
  match domain with
  | [] => Ok (false, a)
  | value :: domain' =>
      match isConsistent cs a var_ value with
      | (true, a1) =>
          match next a1 with
          | Ok (true, a2) => Ok (true, a2)
          | Ok (false, a2) => try_values next cs var_ domain' (delete var_ a2)
          | Throw e => Throw e
          | Diverges => Diverges
          end
      | (false, a1) => try_values next cs var_ domain' a1
      end
  end.

(** The closure [backtrack(varIndex)], on [variables.slice(varIndex)]. *)
Fixpoint backtrack (cs : list Constraint) (doms : gmap string (list Primitive))
    (remaining : list string) (a : gmap string Primitive) : outcome (bool * gmap string Primitive) :=
  match remaining with
  | [] => Ok (true, a)
  | var_ :: rest =>
      match domain_of doms var_ with
      | Ok domain => try_values (backtrack cs doms rest) cs var_ domain a
      | Throw e => Throw e
      | Diverges => Diverges
      end
  end.

Definition solveConstraint (p : Problem) : outcome Solution :=
  match backtrack (constraints p) (domains p) (variables p) ∅ with
  | Ok (ok, a) =>
      Ok {| solved := ok;
            assignment := if ok then Some a else None;
            variables_count := length (variables p);
            constraints_count := length (constraints p) |}
  | Throw e => Throw e
  | Diverges => Diverges
  end.

(** Every constraint whose variables are all in the assignment holds. *)
Definition acceptable (cs : list Constraint) (a : gmap string Primitive) : Prop :=
  forall c, c ∈ cs -> fully_assigned c a = true -> check c a = true.

Lemma violated_false (cs : list Constraint) (a : gmap string Primitive) :
  violated cs a = false <-> acceptable cs a.
Proof.
  unfold violated, acceptable. induction cs as [| c cs IH]; simpl.
  - split; [intros _ c Hc; inversion Hc | reflexivity].
  - rewrite orb_false_iff, IH. split.
    + intros [Hc Hcs] c' Hc' Hfull. apply elem_of_cons in Hc' as [-> | Hc']; [| auto].
      rewrite Hfull in Hc. simpl in Hc. apply negb_false_iff in Hc. assumption.
    + intros Hall. split.
      * destruct (fully_assigned c a) eqn:Hfull; [| reflexivity]. simpl.
        apply negb_false_iff. apply Hall; [left | assumption].
      * intros c' Hc'. apply Hall. right. assumption.
Qed.

Lemma isConsistent_true cs a var_ value a1 :
  isConsistent cs a var_ value = (true, a1) ->
  a1 = assign a var_ value /\ acceptable cs a1.
Proof.
  unfold isConsistent. destruct (violated cs (assign a var_ value)) eqn:Hv; [discriminate |].
  intros [= <-]. split; [reflexivity |]. apply violated_false. assumption.
Qed.

Lemma isConsistent_false cs a var_ value a1 :
  isConsistent cs a var_ value = (false, a1) ->
  a1 = delete var_ a /\ ~ acceptable cs (assign a var_ value).
Proof.
  unfold isConsistent. destruct (violated cs (assign a var_ value)) eqn:Hv; [| discriminate].
  intros [= <-]. split; [apply delete_assign |].
  intros Hacc. apply violated_false in Hacc. congruence.
Qed.

Lemma domain_of_Ok doms v domain :
  domain_of doms v = Ok domain -> domain = default [] (doms !! v).
Proof.
  unfold domain_of. destruct (doms !! v) as [l |]; [intros [= <-]; reflexivity |].
  destruct (bool_decide _); [discriminate | intros [= <-]; reflexivity].
Qed.

(** A name the search is not given, or [__proto__] when it is no own
    property, is left as it was: the search assigns and deletes the
    variables it is given, and it never makes [__proto__] an own property. *)
Definition untouched (remaining : list string) (a : gmap string Primitive) (k : string) : Prop :=
  k ∉ remaining \/ (k = "__proto__"%string /\ a !! k = None).

Lemma untouched_step v rest a k :
  untouched (v :: rest) a k -> k <> v \/ (k = "__proto__"%string /\ a !! k = None).
Proof.
  intros [Hk | Hk]; [left | right; assumption].
  apply not_elem_of_cons in Hk as [Hk _]. assumption.
Qed.

Lemma untouched_rest v rest a a1 k :
  untouched (v :: rest) a k -> a1 !! k = a !! k -> untouched rest a1 k.
Proof.
  intros [Hk | [Hk Hnone]] Heq.
  - left. apply not_elem_of_cons in Hk as [_ Hk]. assumption.
  - right. split; [assumption | congruence].
Qed.

Lemma backtrack_frame cs doms (remaining : list string) : forall a b a',
  backtrack cs doms remaining a = Ok (b, a') ->
  forall k, untouched remaining a k -> a' !! k = a !! k.
Proof.
  induction remaining as [| v rest IH]; intros a b a'; cbn [backtrack].
  - intros [= _ <-]. reflexivity.
  - destruct (domain_of doms v) as [domain | |]; [| discriminate | discriminate].
    revert a. induction domain as [| x domain IHd]; intros a; cbn [try_values].
    + intros [= _ <-]. reflexivity.
    + intros Hrun k Hk. pose proof (untouched_step _ _ _ _ Hk) as Hkv.
      destruct (isConsistent cs a v x) as [[] a1] eqn:Hcons.
      * apply isConsistent_true in Hcons as [-> _].
        pose proof (lookup_assign_untouched a v k x Hkv) as Hassign.
        destruct (backtrack cs doms rest (assign a v x)) as [[[] a2] | |] eqn:Hnext;
          try discriminate.
        -- injection Hrun as _ <-.
           rewrite (IH _ _ _ Hnext k (untouched_rest _ _ _ _ _ Hk Hassign)). assumption.
        -- pose proof (IH _ _ _ Hnext k (untouched_rest _ _ _ _ _ Hk Hassign)) as Hnext_k.
           assert (delete v a2 !! k = a !! k) as Hdel.
           { rewrite lookup_delete_untouched; [congruence |].
             destruct Hkv as [Hne | [Hp Hnone]]; [left; assumption | right].
             split; [assumption | congruence]. }
           rewrite (IHd _ Hrun k); [assumption |].
           destruct Hk as [Hk | [Hp Hnone]]; [left; assumption | right].
           split; [assumption | congruence].
      * apply isConsistent_false in Hcons as [-> _].
        assert (delete v a !! k = a !! k) as Hdel
          by (apply lookup_delete_untouched; assumption).
        rewrite (IHd _ Hrun k); [assumption |].
        destruct Hk as [Hk | [Hp Hnone]]; [left; assumption | right].
        split; [assumption | congruence].
Qed.

(** A successful search has given every variable (but [__proto__]) a
    value of its domain, and the last check it made accepted the assignment
    it returns. *)
Lemma backtrack_sound cs doms (remaining : list string) : forall a a',
  backtrack cs doms remaining a = Ok (true, a') ->
  (forall v, v ∈ remaining -> v <> "__proto__"%string ->
     exists x, a' !! v = Some x /\ x ∈ default [] (doms !! v))
  /\ (remaining <> [] -> acceptable cs a').
Proof.
  induction remaining as [| v rest IH]; intros a a'; cbn [backtrack].
  - intros _. split; [intros v Hv; inversion Hv | congruence].
  - destruct (domain_of doms v) as [domain0 | |] eqn:Hdomain; [| discriminate | discriminate].
    apply domain_of_Ok in Hdomain.
    assert (forall domain a,
              (forall x, x ∈ domain -> x ∈ default [] (doms !! v)) ->
              try_values (backtrack cs doms rest) cs v domain a = Ok (true, a') ->
              (forall u, u ∈ v :: rest -> u <> "__proto__"%string ->
                 exists x, a' !! u = Some x /\ x ∈ default [] (doms !! u))
              /\ acceptable cs a') as Hloop.
    { intros domain. induction domain as [| x domain IHd]; intros a0 Hdom; cbn [try_values];
        [discriminate |].
      destruct (isConsistent cs a0 v x) as [[] a1] eqn:Hcons.
      - apply isConsistent_true in Hcons as [-> Hacc].
        destruct (backtrack cs doms rest (assign a0 v x)) as [[[] a2] | |] eqn:Hnext;
          try discriminate.
        + intros [= ->]. destruct (IH _ _ Hnext) as [Hvals Hok]. split.
          * intros u Hu Hproto.
            destruct (decide (u ∈ rest)) as [Hin | Hout]; [apply Hvals; assumption |].
            apply elem_of_cons in Hu as [-> | Hu]; [| contradiction].
            exists x. split; [| apply Hdom; left].
            rewrite (backtrack_frame _ _ _ _ _ _ Hnext v) by (left; assumption).
            rewrite assign_insert by (left; assumption). apply lookup_insert_eq.
          * destruct rest as [| w rest']; [| apply Hok; discriminate].
            cbn [backtrack] in Hnext. injection Hnext as <-. assumption.
        + apply IHd. intros y Hy. apply Hdom. right. assumption.
      - apply IHd. intros y Hy. apply Hdom. right. assumption. }
    intros Hrun. subst domain0.
    destruct (Hloop _ _ (fun x Hx => Hx) Hrun) as [Hvals Hacc].
    split; [assumption | intros _; assumption].
Qed.

(** X16: an assignment returned by [solveConstraint] is a solution.  When
    it returns with [solved] true, [assignment] gives every variable other
    than [__proto__] a value of its domain, binds no other name and never
    [__proto__] and, the problem having a variable, satisfies every
    constraint whose variables are all in the assignment. *)
Theorem solveConstraint_sound (p : Problem) (result : Solution) :
  solveConstraint p = Ok result ->
  solved result = true ->
  exists a,
    assignment result = Some a
    /\ (forall v, v ∈ variables p -> v <> "__proto__"%string ->
          exists x, a !! v = Some x /\ x ∈ default [] (domains p !! v))
    /\ (forall k, is_Some (a !! k) -> k ∈ variables p /\ k <> "__proto__"%string)
    /\ (variables p <> [] -> acceptable (constraints p) a).
Proof.
  unfold solveConstraint.
  destruct (backtrack (constraints p) (domains p) (variables p) ∅) as [[ok a] | |] eqn:Hrun;
    [| discriminate | discriminate].
  intros [= <-]. simpl. intros ->. exists a. split; [reflexivity |].
  destruct (backtrack_sound _ _ _ _ _ Hrun) as [Hvals Hacc].
  split; [assumption |]. split; [| assumption].
  intros k Hk. split.
  - destruct (decide (k ∈ variables p)) as [| Hout]; [assumption |].
    rewrite (backtrack_frame _ _ _ _ _ _ Hrun k) in Hk by (left; assumption).
    rewrite lookup_empty in Hk. destruct Hk as [? Hk]. discriminate.
  - intros ->.
    rewrite (backtrack_frame _ _ _ _ _ _ Hrun "__proto__"%string) in Hk
      by (right; split; [reflexivity | apply lookup_empty]).
    rewrite lookup_empty in Hk. destruct Hk as [? Hk]. discriminate.
Qed.

(** A check reads only the variables of its constraint. *)
Definition local_checks (cs : list Constraint) : Prop :=
  forall c a a', c ∈ cs ->
    (forall v, v ∈ constraint_variables c -> a !! v = a' !! v) -> check c a = check c a'.

(** No variable of a constraint is a name of [Object.prototype]. *)
Definition plain_names (cs : list Constraint) : Prop :=
  forall c v, c ∈ cs -> v ∈ constraint_variables c -> v ∉ Object_prototype_names.

Lemma fully_assigned_weaken (c : Constraint) (a s : gmap string Primitive) :
  (forall v, v ∈ constraint_variables c -> v ∉ Object_prototype_names) ->
  a ⊆ s -> fully_assigned c a = true ->
  fully_assigned c s = true /\ forall v, v ∈ constraint_variables c -> a !! v = s !! v.
Proof.
  unfold fully_assigned. rewrite !List.forallb_forall. intros Hplain Hsub Hfull.
  assert (forall v, v ∈ constraint_variables c -> is_Some (a !! v)) as Hown.
  { intros v Hv. pose proof (Hfull v (proj1 (list_elem_of_In _ _) Hv)) as H.
    rewrite has_property_own in H by (apply Hplain, Hv).
    apply bool_decide_eq_true in H. assumption. }
  split.
  - intros v Hv. apply list_elem_of_In in Hv. rewrite has_property_own by (apply Hplain, Hv).
    apply bool_decide_eq_true. eapply lookup_weaken_is_Some; eauto.
  - intros v Hv. destruct (Hown v Hv) as [x Hx]. rewrite Hx. symmetry.
    eapply lookup_weaken; eauto.
Qed.

(** Pruning loses no solution: a part of an acceptable assignment is
    acceptable. *)
Lemma acceptable_weaken (cs : list Constraint) (a s : gmap string Primitive) :
  local_checks cs -> plain_names cs -> a ⊆ s -> acceptable cs s -> acceptable cs a.
Proof.
  intros Hlocal Hplain Hsub Hacc c Hc Hfull.
  destruct (fully_assigned_weaken c a s (fun v => Hplain c v Hc) Hsub Hfull)
    as [Hfull' Hagree].
  rewrite (Hlocal c a s Hc Hagree). apply Hacc; assumption.
Qed.

(** [s] completes [a] over the variables [remaining] with values of their
    domains, and is acceptable. *)
Definition completes (cs : list Constraint) (doms : gmap string (list Primitive))
    (remaining : list string) (a s : gmap string Primitive) : Prop :=
  a ⊆ s
  /\ (forall v, v ∈ remaining -> exists x, s !! v = Some x /\ x ∈ default [] (doms !! v))
  /\ acceptable cs s.

Lemma domain_of_plain doms v :
  v ∉ Object_prototype_names -> domain_of doms v = Ok (default [] (doms !! v)).
Proof.
  intros Hv. unfold domain_of. destruct (doms !! v); [reflexivity |].
  rewrite (bool_decide_eq_false_2 _ Hv). reflexivity.
Qed.

Lemma plain_not_proto v : v ∉ Object_prototype_names -> v <> "__proto__"%string.
Proof.
  intros Hv ->. apply Hv. unfold Object_prototype_names.
  do 10 right. left.
Qed.

(** On distinct variables that are not assigned yet and are no names of
    [Object.prototype], the search returns; it fails only when no completion
    exists, and then leaves the assignment as it found it. *)
Lemma backtrack_complete cs doms (remaining : list string) :
  local_checks cs -> plain_names cs ->
  (forall v, v ∈ remaining -> v ∉ Object_prototype_names) ->
  forall a, NoDup remaining -> (forall v, v ∈ remaining -> a !! v = None) ->
    (exists r, backtrack cs doms remaining a = Ok r)
    /\ (forall a', backtrack cs doms remaining a = Ok (false, a') -> a' = a)
    /\ (forall s, completes cs doms remaining a s ->
          exists a', backtrack cs doms remaining a = Ok (true, a')).
Proof.
  intros Hlocal Hplain. induction remaining as [| v rest IH]; intros Hnames a Hnd Hfree;
    cbn [backtrack].
  - split; [eauto |]. split; [discriminate | eauto].
  - apply NoDup_cons in Hnd as [Hv Hnd].
    assert (v ∉ Object_prototype_names) as Hvplain by (apply Hnames; left).
    pose proof (plain_not_proto v Hvplain) as Hvproto.
    assert (forall u, u ∈ rest -> u ∉ Object_prototype_names) as Hnames'
      by (intros u Hu; apply Hnames; right; assumption).
    rewrite (domain_of_plain doms v Hvplain).
    assert (a !! v = None) as Hav by (apply Hfree; left).
    assert (forall x, forall u, u ∈ rest -> <[v := x]> a !! u = None) as Hfree1.
    { intros x u Hu. rewrite lookup_insert_ne by (intros ->; contradiction).
      apply Hfree. right. assumption. }
    assert (forall domain,
              (exists r, try_values (backtrack cs doms rest) cs v domain a = Ok r)
              /\ (forall a', try_values (backtrack cs doms rest) cs v domain a = Ok (false, a') ->
                    a' = a)
              /\ (forall s x, completes cs doms (v :: rest) a s -> s !! v = Some x ->
                    x ∈ domain ->
                    exists a', try_values (backtrack cs doms rest) cs v domain a
                               = Ok (true, a')))
      as Hloop.
    { intros domain. induction domain as [| x domain IHd]; cbn [try_values].
      - split; [eauto |]. split; [intros a' [= <-]; reflexivity |].
        intros s y _ _ Hy. inversion Hy.
      - destruct IHd as (IHret & IHfail & IHok).
        destruct (isConsistent cs a v x) as [[] a1] eqn:Hcons.
        + apply isConsistent_true in Hcons as [-> Hacc].
          rewrite (assign_insert a v x) in * by (left; assumption).
          destruct (IH Hnames' (<[v := x]> a) Hnd (Hfree1 x)) as ([r Hr] & Hrestore & Hfind).
          rewrite Hr. destruct r as [[] a2].
          * split; [eauto |]. split; [discriminate | eauto].
          * rewrite (Hrestore a2 Hr), (delete_insert_id _ _ _ Hav).
            split; [assumption |]. split; [assumption |]. intros s y Hs Hsv Hy.
            apply elem_of_cons in Hy as [-> | Hy]; [| eapply IHok; eauto].
            exfalso. destruct Hs as (Hsub & Hvals & Hacc').
            destruct (Hfind s) as [a' Ha']; [| rewrite Hr in Ha'; discriminate].
            split; [apply insert_subseteq_l; assumption |].
            split; [| assumption]. intros u Hu. apply Hvals. right. assumption.
        + apply isConsistent_false in Hcons as [-> Hrej]. rewrite (delete_id _ _ Hav).
          split; [assumption |]. split; [assumption |]. intros s y Hs Hsv Hy.
          apply elem_of_cons in Hy as [-> | Hy]; [| eapply IHok; eauto].
          exfalso. apply Hrej. destruct Hs as (Hsub & _ & Hacc').
          rewrite (assign_insert a v x) by (left; assumption).
          apply (acceptable_weaken cs _ s Hlocal Hplain); [| assumption].
          apply insert_subseteq_l; assumption. }
    destruct (Hloop (default [] (doms !! v))) as (Hret & Hfail & Hok).
    split; [assumption |]. split; [assumption |].
    intros s Hs. pose proof Hs as (_ & Hvals & _).
    destruct (Hvals v) as (x & Hx & Hdom); [left |]. eapply Hok; eauto.
Qed.

(** X17: [solveConstraint] finds a solution whenever there is one, names
    of [Object.prototype] apart.  For distinct variables and constraints
    whose checks read their own variables only, no variable of the problem
    or of a constraint being a property name of [Object.prototype]: if some
    assignment of domain values to the variables satisfies all the
    constraints, [solveConstraint] returns with [solved] true. *)
Theorem solveConstraint_complete (p : Problem) (s : gmap string Primitive) :
  NoDup (variables p) ->
  (forall v, v ∈ variables p -> v ∉ Object_prototype_names) ->
  plain_names (constraints p) ->
  local_checks (constraints p) ->
  (forall v, v ∈ variables p ->
     exists x, s !! v = Some x /\ x ∈ default [] (domains p !! v)) ->
  acceptable (constraints p) s ->
  exists result, solveConstraint p = Ok result /\ solved result = true.
Proof.
  intros Hnd Hnames Hplain Hlocal Hvals Hacc. unfold solveConstraint.
  destruct (backtrack_complete (constraints p) (domains p) (variables p) Hlocal Hplain
              Hnames ∅ Hnd) as (_ & _ & Hfind); [intros v _; apply lookup_empty |].
  destruct (Hfind s) as [a' ->]; [| eexists; split; reflexivity].
  split; [apply map_empty_subseteq |]. split; assumption.
Qed.
End SolveConstraint.


(** The constraint 'u and v take different values', on strings. *)
Definition differ (u v : string) : Constraint :=
  {| constraint_variables := [u; v];
     check := fun a => match a !! u, a !! v with
                       | Some (PString x), Some (PString y) => negb (String.eqb x y)
                       | _, _ => true
                       end |}.

Lemma differ_local (u v : string) (a a' : gmap string Primitive) :
  (forall w, w ∈ constraint_variables (differ u v) -> a !! w = a' !! w) ->
  check (differ u v) a = check (differ u v) a'.
Proof.
  intros Hagree. simpl. rewrite (Hagree u) by left. rewrite (Hagree v) by (right; left).
  reflexivity.
Qed.

Definition red : Primitive := PString "red".
Definition green : Primitive := PString "green".

(** Three regions in a row and two colours: neighbours must differ. *)
Definition colouring : Problem :=
  {| variables := ["a"; "b"; "c"]%string;
     domains := {[ "a"%string := [red; green]; "b"%string := [red; green];
                   "c"%string := [red; green] ]};
     constraints := [differ "a" "b"; differ "b" "c"] |}.

(** The same regions in a triangle: two colours are not enough. *)
Definition triangle : Problem :=
  {| variables := variables colouring;
     domains := domains colouring;
     constraints := [differ "a" "b"; differ "b" "c"; differ "a" "c"] |}.

Example solveConstraint_example :
  solveConstraint colouring
  = Ok {| solved := true;
          assignment := Some {[ "a"%string := red; "b"%string := green; "c"%string := red ]};
          variables_count := 3; constraints_count := 2 |}
  /\ solveConstraint triangle
     = Ok {| solved := false; assignment := None;
             variables_count := 3; constraints_count := 3 |}.
Proof. split; vm_compute; reflexivity. Qed.

(** The constraint 'u and v take the same value'; it fails while one of
    them has none. *)
Definition same (u v : string) : Constraint :=
  {| constraint_variables := [u; v];
     check := fun a => match a !! u, a !! v with
                       | Some (PString x), Some (PString y) => String.eqb x y
                       | _, _ => false
                       end |}.

(** Names of [Object.prototype] as variables.  A variable [__proto__] is
    never bound; a constraint on [valueOf] is checked before [valueOf] has a
    value, so that the search misses the solution; and a variable [toString]
    without a domain of its own stops the search with a [TypeError]. *)
Example solveConstraint_inherited_names :
  solveConstraint {| variables := ["__proto__"]%string;
                     domains := {[ "__proto__"%string := [red] ]};
                     constraints := [] |}
  = Ok {| solved := true; assignment := Some ∅;
          variables_count := 1; constraints_count := 0 |}
  /\ solveConstraint {| variables := ["a"; "valueOf"]%string;
                        domains := {[ "a"%string := [red]; "valueOf"%string := [red] ]};
                        constraints := [same "a" "valueOf"] |}
     = Ok {| solved := false; assignment := None;
             variables_count := 2; constraints_count := 1 |}
  /\ solveConstraint {| variables := ["toString"]%string;
                        domains := ∅;
                        constraints := [] |}
     = Throw (Error "domain is not iterable").
Proof. repeat split; vm_compute; reflexivity. Qed.

Lemma solveConstraint_sound_witness :
  exists a,
    Some {[ "a"%string := red; "b"%string := green; "c"%string := red ]} = Some a
    /\ (forall v, v ∈ variables colouring -> v <> "__proto__"%string ->
          exists x, a !! v = Some x /\ x ∈ default [] (domains colouring !! v))
    /\ (forall k, is_Some (a !! k) -> k ∈ variables colouring /\ k <> "__proto__"%string)
    /\ (variables colouring <> [] -> acceptable (constraints colouring) a).
Proof.
  apply (solveConstraint_sound colouring
           {| solved := true;
              assignment := Some {[ "a"%string := red; "b"%string := green;
                                    "c"%string := red ]};
              variables_count := 3; constraints_count := 2 |}).
  - vm_compute. reflexivity.
  - reflexivity.
Defined.

Lemma solveConstraint_complete_witness :
  exists result, solveConstraint colouring = Ok result /\ solved result = true.
Proof.
  apply (solveConstraint_complete colouring
           {[ "a"%string := green; "b"%string := red; "c"%string := green ]}).
  - apply (bool_decide_unpack _). vm_compute. exact I.
  - intros v Hv. simpl in Hv.
    repeat (apply elem_of_cons in Hv as [-> | Hv];
            [apply (bool_decide_unpack _); vm_compute; exact I |]).
    inversion Hv.
  - intros c v Hc Hv. simpl in Hc.
    repeat (apply elem_of_cons in Hc as [-> | Hc];
            [simpl in Hv;
             repeat (apply elem_of_cons in Hv as [-> | Hv];
                     [apply (bool_decide_unpack _); vm_compute; exact I |]);
             inversion Hv |]).
    inversion Hc.
  - intros c a a' Hc Hagree. simpl in Hc.
    repeat (apply elem_of_cons in Hc as [-> | Hc]; [apply differ_local, Hagree |]).
    inversion Hc.
  - intros v Hv. simpl in Hv.
    apply elem_of_cons in Hv as [-> | Hv];
      [exists green; split; [reflexivity |]; change (green ∈ [red; green]); right; left |].
    apply elem_of_cons in Hv as [-> | Hv];
      [exists red; split; [reflexivity |]; change (red ∈ [red; green]); left |].
    apply elem_of_cons in Hv as [-> | Hv];
      [exists green; split; [reflexivity |]; change (green ∈ [red; green]); right; left |].
    inversion Hv.
  - intros c Hc _. simpl in Hc.
    repeat (apply elem_of_cons in Hc as [-> | Hc]; [reflexivity |]).
    inversion Hc.
Defined.


(** *** [dijkstra(graph, source)]

    The distances are JavaScript numbers.  The algorithm adds them, compares
    them with [<] and tests a weight for truth; these operations are
    parameters of the model, and [Float] below instantiates them with the
    binary64 ones. *)
Section Dijkstra.
Context {N : Type}.
(** [x + y], [x < y], the truth value of a number, and the literals [0],
    [1] and [Infinity]. *)
Variable plus : N -> N -> N.
Variable lt : N -> N -> bool.
Variable truthy_number : N -> bool.
Variable zero one infinity : N.

Record GraphNode : Type := { id : string }.
(** [weight] is [None] when the edge has none. *)
Record GraphEdge : Type := { from : string; to : string; weight : option N }.
(** [None] is an absent property ([graph.nodes || []]). *)
Record Graph : Type := { nodes : option (list GraphNode); edges : option (list GraphEdge) }.

(** [edge.weight || 1] *)
Definition edge_weight (e : GraphEdge) : N :=
  match weight e with
  | Some w => if truthy_number w then w else one
  | None => one
  end.

(** [adj.get(u) || []]: the edges out of [u], in the order of [edges]. *)
Definition adjacent (es : list GraphEdge) (u : string) : list (string * N) :=
  (fun e => (to e, edge_weight e)) <$> filter (fun e => from e = u) es.

(** The body of the loop 'Find minimum'; the state is [(minNode, minDist)].
    A comparison with [undefined] is false. *)
Definition closer (distances : gmap string N) (visited : gset string)
    (st : option string * N) (node : GraphNode) : option string * N :=
  match distances !! id node with
  | Some d =>
      if bool_decide (id node ∉ visited) && lt d st.2 then (Some (id node), d) else st
  | None => st
  end.

(** The body of the loop 'Update neighbors', for the edges out of [u];
    [distances] is a plain object, and a comparison with what is no number
    of its own is false. *)
Definition relax (u : string) (distances : gmap string N) (edge : string * N)
  : gmap string N :=
  match distances !! u, distances !! edge.1 with
  | Some du, Some dv =>
      if lt (plus du edge.2) dv then assign distances edge.1 (plus du edge.2) else distances
  | _, _ => distances
  end.

(** The loop [while (visited.size < nodes.length)]; each iteration marks a
    node that was not visited, so [fuel] above the number of nodes is never
    used up ([process_returns]). *)
Fixpoint process (fuel : nat) (ns : list GraphNode) (es : list GraphEdge)
    (visited : gset string) (distances : gmap string N) : outcome (gmap string N) :=
  match fuel with
  | 0%nat => Diverges
  | S fuel' =>
      if decide (size visited < length ns)%nat then
        match (fold_left (closer distances visited) ns (None, infinity)).1 with
        | None => Ok distances
        | Some minNode =>
            process fuel' ns es ({[minNode]} ∪ visited)
              (fold_left (relax minNode) (adjacent es minNode) distances)
        end
      else Ok distances
  end.

(** [distances] after the loop 'Initialize' and [distances[source] = 0],
    on the plain object [{}]. *)
Definition initial_distances (ns : list GraphNode) (source : string) : gmap string N :=
  assign (fold_left (fun d n => assign d (id n) infinity) ns ∅) source zero.

Definition dijkstra (graph : Graph) (source : string) : outcome (gmap string N) :=
  let ns := default [] (nodes graph) in
  let es := default [] (edges graph) in
  process (S (length ns)) ns es ∅ (initial_distances ns source).

(** **** The loop ends *)

Lemma size_list_to_set_le (l : list string) :
  (size (list_to_set l : gset string) <= length l)%nat.
Proof using Type.
  induction l as [| x l IH].
  { change (size (∅ : gset string) <= 0)%nat. rewrite size_empty. lia. }
  rewrite list_to_set_cons, size_union_alt, size_singleton. cbn [length].
  assert (size (list_to_set l ∖ {[x]} : gset string) <= size (list_to_set l : gset string))%nat
    by (apply subseteq_size; set_solver).
  lia.
Qed.

Lemma closer_fold_unvisited distances visited (ns : list GraphNode) : forall st u,
  (fold_left (closer distances visited) ns st).1 = Some u ->
  st.1 = Some u \/ ((u ∉ visited) /\ u ∈ id <$> ns).
Proof using Type.
  induction ns as [| n ns IH]; intros st u; simpl; [auto |].
  intros Hfold. destruct (IH _ _ Hfold) as [Hst | [Hu Hin]].
  - unfold closer in Hst. destruct (distances !! id n) as [d |]; [| auto].
    destruct (bool_decide (id n ∉ visited)) eqn:Hv; simpl in Hst; [| auto].
    destruct (lt d st.2); [| auto]. simpl in Hst. injection Hst as <-.
    right. split; [apply bool_decide_eq_true in Hv; assumption | left].
  - right. split; [assumption | right; assumption].
Qed.

Lemma process_returns (ns : list GraphNode) (es : list GraphEdge) (fuel : nat) :
  forall visited distances,
    (forall u, u ∈ visited -> u ∈ id <$> ns) ->
    (length ns < fuel + size visited)%nat ->
    process fuel ns es visited distances <> Diverges.
Proof using Type.
  induction fuel as [| fuel IH]; intros visited distances Hsub Hfuel.
  - exfalso. simpl in Hfuel.
    assert (visited ⊆ list_to_set (id <$> ns)) as Hsub'
      by (intros u Hu; apply elem_of_list_to_set, Hsub, Hu).
    apply subseteq_size in Hsub'. pose proof (size_list_to_set_le (id <$> ns)) as Hle.
    rewrite length_fmap in Hle. lia.
  - cbn [process]. destruct (decide (size visited < length ns)%nat); [| discriminate].
    destruct (fold_left (closer distances visited) ns (None, infinity)).1 as [u |] eqn:Hmin;
      [| discriminate].
    apply closer_fold_unvisited in Hmin as [? | [Hu Hin]]; [discriminate |].
    apply IH.
    + intros x Hx. apply elem_of_union in Hx as [Hx | Hx]; [| apply Hsub, Hx].
      apply elem_of_singleton in Hx as ->. assumption.
    + rewrite size_union by set_solver. rewrite size_singleton. lia.
Qed.


Lemma process_ok (ns : list GraphNode) (es : list GraphEdge) (fuel : nat) :
  forall visited distances,
    (forall u, u ∈ visited -> u ∈ id <$> ns) ->
    (length ns < fuel + size visited)%nat ->
    exists result, process fuel ns es visited distances = Ok result.
Proof using Type.
  intros visited distances Hsub Hfuel.
  pose proof (process_returns ns es fuel visited distances Hsub Hfuel) as Hreturns.
  assert (forall e, process fuel ns es visited distances <> Throw e) as Hthrow.
  { clear. revert visited distances.
    induction fuel as [| fuel IH]; intros visited distances e; cbn [process]; [discriminate |].
    destruct (decide (size visited < length ns)%nat); [| discriminate].
    destruct (fold_left (closer distances visited) ns (None, infinity)).1;
      [apply IH | discriminate]. }
  destruct (process fuel ns es visited distances) as [result | e |].
  - exists result. reflexivity.
  - destruct (Hthrow e eq_refl).
  - destruct (Hreturns eq_refl).
Qed.

(** **** Every distance is the weight of a path *)

(** [path] leads from [src] to [dst] along consecutive edges. *)
Fixpoint walks (src : string) (path : list GraphEdge) (dst : string) : Prop :=
  match path with
  | [] => src = dst
  | e :: rest => from e = src /\ walks (to e) rest dst
  end.

(** The weight of a path, summed from the source on as the algorithm does. *)
Definition path_weight (path : list GraphEdge) : N :=
  fold_left (fun d e => plus d (edge_weight e)) path zero.

Lemma walks_snoc (src : string) (path : list GraphEdge) (e : GraphEdge) :
  walks src path (from e) -> walks src (path ++ [e]) (to e).
Proof using Type.
  revert src. induction path as [| x path IH]; intros src; simpl.
  - intros ->. split; reflexivity.
  - intros [Hx Hrest]. split; [assumption | apply IH, Hrest].
Qed.

(** A distance is [Infinity] as initialised, or the weight of a path of the
    graph from the source. *)
Definition path_distance (es : list GraphEdge) (source v : string) (d : N) : Prop :=
  d = infinity
  \/ exists path, (forall e, e ∈ path -> e ∈ es) /\ walks source path v /\ path_weight path = d.

Definition all_path_distances (es : list GraphEdge) (source : string)
    (distances : gmap string N) : Prop :=
  forall v d, distances !! v = Some d -> path_distance es source v d.

Lemma adjacent_edge (es : list GraphEdge) (u : string) (edge : string * N) :
  edge ∈ adjacent es u ->
  exists e, e ∈ es /\ from e = u /\ to e = edge.1 /\ edge_weight e = edge.2.
Proof using Type.
  unfold adjacent. intros Hin. apply list_elem_of_fmap in Hin as (e & -> & He).
  apply list_elem_of_filter in He as [Hfrom He]. exists e. auto.
Qed.

(** Nothing is below what [Infinity] adds up to. *)
Hypothesis infinity_absorbs : forall w x, lt (plus infinity w) x = false.

Lemma relax_path_distances (es : list GraphEdge) (source u : string)
    (edges_out : list (string * N)) : forall distances,
  (forall edge, edge ∈ edges_out -> edge ∈ adjacent es u) ->
  all_path_distances es source distances ->
  all_path_distances es source (fold_left (relax u) edges_out distances)
  /\ forall v, is_Some (fold_left (relax u) edges_out distances !! v) <-> is_Some (distances !! v).
Proof using infinity_absorbs.
  induction edges_out as [| edge edges_out IH]; intros distances Hout Hall; simpl.
  - split; [assumption | reflexivity].
  - assert (all_path_distances es source (relax u distances edge)
            /\ forall v, is_Some (relax u distances edge !! v) <-> is_Some (distances !! v))
      as [Hall1 Hkeys1].
    { unfold relax. destruct (distances !! u) as [du |] eqn:Hu; [| split; [assumption | reflexivity]].
      destruct (distances !! edge.1) as [dv |] eqn:Hv; [| split; [assumption | reflexivity]].
      destruct (lt (plus du edge.2) dv) eqn:Hlt; [| split; [assumption | reflexivity]].
      rewrite (assign_insert distances edge.1) by (right; rewrite Hv; eauto).
      split.
      - intros v d. destruct (decide (edge.1 = v)) as [<- | Hne].
        + rewrite lookup_insert_eq. intros [= <-].
          destruct (adjacent_edge es u edge) as (e & He & Hfrom & Hto & Hw); [apply Hout; left |].
          destruct (Hall u du Hu) as [-> | (path & Hpath & Hwalk & Hweight)].
          * rewrite infinity_absorbs in Hlt. discriminate.
          * right. exists (path ++ [e]). split; [| split].
            -- intros x Hx. apply elem_of_app in Hx as [Hx | Hx]; [apply Hpath, Hx |].
               apply list_elem_of_singleton in Hx as ->. assumption.
            -- rewrite <- Hto. apply walks_snoc. rewrite Hfrom. assumption.
            -- unfold path_weight in *. rewrite fold_left_app. simpl.
               rewrite Hweight, Hw. reflexivity.
        + rewrite lookup_insert_ne by assumption. apply Hall.
      - intros v. destruct (decide (edge.1 = v)) as [<- | Hne].
        + rewrite lookup_insert_eq, Hv. split; eauto.
        + rewrite lookup_insert_ne by assumption. reflexivity. }
    destruct (IH (relax u distances edge)) as [Hall2 Hkeys2];
      [intros x Hx; apply Hout; right; assumption | assumption |].
    split; [assumption |]. intros v. rewrite Hkeys2. apply Hkeys1.
Qed.

Lemma process_path_distances (ns : list GraphNode) (es : list GraphEdge) (source : string)
    (fuel : nat) : forall visited distances result,
  all_path_distances es source distances ->
  process fuel ns es visited distances = Ok result ->
  all_path_distances es source result
  /\ forall v, is_Some (result !! v) <-> is_Some (distances !! v).
Proof using infinity_absorbs.
  induction fuel as [| fuel IH]; intros visited distances result Hall; [discriminate |].
  cbn [process]. destruct (decide (size visited < length ns)%nat);
    [| intros [= <-]; split; [assumption | reflexivity]].
  destruct (fold_left (closer distances visited) ns (None, infinity)).1 as [u |];
    [| intros [= <-]; split; [assumption | reflexivity]].
  intros Hrun.
  destruct (relax_path_distances es source u (adjacent es u) distances (fun _ H => H) Hall)
    as [Hall1 Hkeys1].
  destruct (IH _ _ _ Hall1 Hrun) as [Hall2 Hkeys2].
  split; [assumption |]. intros v. rewrite Hkeys2. apply Hkeys1.
Qed.

Lemma initial_nodes_keys (ns : list GraphNode) : forall d : gmap string N,
  d !! "__proto__"%string = None ->
  fold_left (fun d n => assign d (id n) infinity) ns d !! "__proto__"%string = None
  /\ forall v, is_Some (fold_left (fun d n => assign d (id n) infinity) ns d !! v)
                <-> is_Some (d !! v) \/ (v ∈ id <$> ns /\ v <> "__proto__"%string).
Proof using Type.
  induction ns as [| n ns IH]; intros d Hd; simpl.
  - split; [assumption |]. intros v. split; [auto |].
    intros [H | [H _]]; [assumption | inversion H].
  - destruct (IH (assign d (id n) infinity) (assign_no_proto d (id n) infinity Hd))
      as [Hproto Hkeys].
    split; [assumption |]. intros v. rewrite Hkeys, (is_Some_assign d (id n) v infinity Hd).
    rewrite elem_of_cons. split.
    + intros [[H | [-> H]] | [H1 H2]]; auto.
    + intros [H | [[-> | H1] H2]]; auto.
Qed.

(** The loops 'Initialize' give an entry to the source and to each node,
    a node [__proto__] apart: for that name the assignment is ignored. *)
Lemma initial_distances_keys (ns : list GraphNode) (source : string) (v : string) :
  is_Some (initial_distances ns source !! v)
  <-> (v = source \/ v ∈ id <$> ns) /\ v <> "__proto__"%string.
Proof using Type.
  unfold initial_distances.
  destruct (initial_nodes_keys ns ∅ (lookup_empty _)) as [Hproto Hkeys].
  rewrite (is_Some_assign _ source v zero Hproto), Hkeys, lookup_empty. split.
  - intros [[[x Hx] | [H1 H2]] | [H1 H2]]; [discriminate | auto | auto].
  - intros [[-> | H1] H2]; auto.
Qed.

Lemma initial_distances_no_proto (ns : list GraphNode) (source : string) :
  initial_distances ns source !! "__proto__"%string = None.
Proof using Type.
  apply eq_None_not_Some. rewrite initial_distances_keys. intros [_ H]. apply H. reflexivity.
Qed.

Lemma initial_distances_values (ns : list GraphNode) (source : string) (v : string) (d : N) :
  initial_distances ns source !! v = Some d -> (v = source /\ d = zero) \/ d = infinity.
Proof using Type.
  unfold initial_distances. intros Hv. apply lookup_assign_Some in Hv as [Hv | Hv]; [auto |].
  right. revert Hv.
  assert (forall m : gmap string N, (forall x, m !! v = Some x -> x = infinity) ->
            forall x, fold_left (fun d n => assign d (id n) infinity) ns m !! v = Some x ->
                      x = infinity) as Hfold.
  { induction ns as [| n ns IH]; intros m Hm; simpl; [assumption |].
    apply IH. intros x Hx. apply lookup_assign_Some in Hx as [[_ ->] | Hx];
      [reflexivity | apply Hm, Hx]. }
  apply Hfold. intros x. rewrite lookup_empty. discriminate.
Qed.

(** X26: [dijkstra] returns, and every distance it reports is real.  The
    result has an entry for the source and for each node, the name
    [__proto__] apart, which gets none; each entry is [Infinity], as
    initialised, or the weight of a path of the graph that leads from the
    source to that node, summed edge by edge (an edge without weight, or
    with weight 0, counting 1). *)
Theorem dijkstra_distances_are_paths (graph : Graph) (source : string) :
  exists distances,
    dijkstra graph source = Ok distances
    /\ (forall v, is_Some (distances !! v)
                  <-> (v = source \/ v ∈ id <$> default [] (nodes graph))
                      /\ v <> "__proto__"%string)
    /\ forall v d, distances !! v = Some d ->
         path_distance (default [] (edges graph)) source v d.
Proof using infinity_absorbs.
  unfold dijkstra.
  set (ns := default [] (nodes graph)). set (es := default [] (edges graph)).
  destruct (process (S (length ns)) ns es ∅ (initial_distances ns source))
    as [distances | e |] eqn:Hrun.
  - exists distances. split; [reflexivity |].
    destruct (process_path_distances ns es source (S (length ns)) ∅
                (initial_distances ns source) distances) as [Hall Hkeys]; [| exact Hrun |].
    { intros v d Hv. apply initial_distances_values in Hv as [[-> ->] | ->].
      - right. exists []. split; [intros e He; inversion He |]. split; reflexivity.
      - left. reflexivity. }
    split; [| assumption]. intros v. rewrite Hkeys. apply initial_distances_keys.
  - exfalso. revert Hrun. generalize (S (length ns)) as fuel. generalize (∅ : gset string).
    generalize (initial_distances ns source). intros distances visited fuel. revert distances visited.
    induction fuel as [| fuel IH]; intros distances visited; cbn [process]; [discriminate |].
    destruct (decide (size visited < length ns)%nat); [| discriminate].
    destruct (fold_left (closer distances visited) ns (None, infinity)).1; [apply IH | discriminate].
  - exfalso. apply (process_returns ns es (S (length ns)) ∅ (initial_distances ns source));
      [intros u Hu; set_solver | rewrite size_empty; lia | assumption].
Qed.

(** **** With weights that are not negative, the distances are the shortest *)

(** [x <= y]: [y < x] is false. *)
Definition at_most (x y : N) : Prop := lt y x = false.

(** [<] is a strict weak order (as on numbers other than [NaN]) with
    [Infinity] on top. *)
Hypothesis lt_irreflexive : forall x, lt x x = false.
Hypothesis lt_transitive : forall x y z, lt x y = true -> lt y z = true -> lt x z = true.
Hypothesis lt_comparable : forall x y z, lt x z = true -> lt x y = true \/ lt y z = true.
Hypothesis infinity_top : forall x, lt infinity x = false.

Lemma at_most_refl x : at_most x x.
Proof using lt_irreflexive. apply lt_irreflexive. Qed.

Lemma at_most_trans x y z : at_most x y -> at_most y z -> at_most x z.
Proof using lt_comparable.
  unfold at_most. intros Hxy Hyz. destruct (lt z x) eqn:Hzx; [| reflexivity].
  destruct (lt_comparable z y x Hzx) as [H | H]; congruence.
Qed.

Lemma lt_at_most x y : lt x y = true -> at_most x y.
Proof using lt_irreflexive lt_transitive.
  unfold at_most. intros Hxy. destruct (lt y x) eqn:Hyx; [| reflexivity].
  pose proof (lt_transitive x y x Hxy Hyx) as H. rewrite lt_irreflexive in H. discriminate.
Qed.

Lemma lt_at_most_trans x y z : lt x y = true -> at_most y z -> lt x z = true.
Proof using lt_comparable.
  unfold at_most. intros Hxy Hyz. destruct (lt_comparable x z y Hxy) as [H | H]; congruence.
Qed.

Section Shortest.
Variable ns : list GraphNode.
Variable es : list GraphEdge.
Variable source : string.

(** The weights are not negative, and adding one keeps the order. *)
Hypothesis weights_not_negative : forall e x, e ∈ es -> at_most x (plus x (edge_weight e)).
Hypothesis plus_monotone :
  forall e x y, e ∈ es -> at_most x y -> at_most (plus x (edge_weight e)) (plus y (edge_weight e)).
(** The source and the ends of the edges are nodes of the graph, and no
    node is called [__proto__]: in the object [distances] that name cannot
    hold a number. *)
Hypothesis source_is_node : source ∈ id <$> ns.
Hypothesis edges_join_nodes : forall e, e ∈ es -> from e ∈ id <$> ns /\ to e ∈ id <$> ns.
Hypothesis no_proto_node : "__proto__"%string ∉ id <$> ns.

(** What the loop keeps true of [visited] and [distances]. *)
Record settled (visited : gset string) (distances : gmap string N) : Prop :=
  { settled_keys : forall v, v ∈ id <$> ns -> is_Some (distances !! v);
    settled_nodes : forall u, u ∈ visited -> u ∈ id <$> ns;
    settled_edges : forall u e du dv,
        u ∈ visited -> e ∈ es -> from e = u ->
        distances !! u = Some du -> distances !! to e = Some dv ->
        at_most dv (plus du (edge_weight e));
    settled_first : forall u v du dv,
        u ∈ visited -> v ∈ id <$> ns -> v ∉ visited ->
        distances !! u = Some du -> distances !! v = Some dv -> at_most du dv;
    settled_source : forall d, distances !! source = Some d -> at_most d zero }.

(** The node chosen by the loop 'Find minimum'. *)
Lemma closer_fold_spec distances visited (l : list GraphNode) : forall st,
  (st.1 = None -> st.2 = infinity) ->
  (forall u, st.1 = Some u ->
     (u ∉ visited) /\ distances !! u = Some st.2 /\ lt st.2 infinity = true) ->
  let r := fold_left (closer distances visited) l st in
  (r.1 = None -> r.2 = infinity)
  /\ (forall u, r.1 = Some u ->
        (u ∉ visited) /\ distances !! u = Some r.2 /\ lt r.2 infinity = true
        /\ (st.1 = Some u \/ u ∈ id <$> l))
  /\ at_most r.2 st.2
  /\ (forall n d, n ∈ l -> id n ∉ visited -> distances !! id n = Some d -> at_most r.2 d).
Proof using lt_irreflexive lt_transitive lt_comparable infinity_top.
  induction l as [| n l IH]; intros st Hnone Hsome; simpl.
  - split; [assumption |]. split.
    + intros u Hu. destruct (Hsome u Hu) as (H1 & H2 & H3). auto.
    + split; [apply at_most_refl |]. intros n d Hn. inversion Hn.
  - set (st1 := closer distances visited st n).
    assert ((st1.1 = None -> st1.2 = infinity)
            /\ (forall u, st1.1 = Some u ->
                  (u ∉ visited) /\ distances !! u = Some st1.2 /\ lt st1.2 infinity = true
                  /\ (st.1 = Some u \/ u = id n))
            /\ at_most st1.2 st.2
            /\ (forall d, id n ∉ visited -> distances !! id n = Some d -> at_most st1.2 d))
      as (Hnone1 & Hsome1 & Hle1 & Hmin1).
    { unfold st1, closer. destruct (distances !! id n) as [d |] eqn:Hd.
      - destruct (bool_decide (id n ∉ visited)) eqn:Hv; simpl.
        + apply bool_decide_eq_true in Hv. destruct (lt d st.2) eqn:Hlt; simpl.
          * split; [discriminate |]. split.
            -- intros u [= <-]. split; [assumption |]. split; [assumption |].
               split; [| right; reflexivity].
               apply (lt_at_most_trans d st.2 infinity Hlt). apply infinity_top.
            -- split; [apply lt_at_most; assumption |]. intros d' _ [= <-]. apply at_most_refl.
          * split; [assumption |]. split.
            -- intros u Hu. destruct (Hsome u Hu) as (H1 & H2 & H3). auto.
            -- split; [apply at_most_refl |]. intros d' _ [= <-]. exact Hlt.
        + apply bool_decide_eq_false in Hv. split; [assumption |]. split.
          * intros u Hu. destruct (Hsome u Hu) as (H1 & H2 & H3). auto.
          * split; [apply at_most_refl |]. intros d' Hn. exfalso. apply Hv. assumption.
      - split; [assumption |]. split.
        + intros u Hu. destruct (Hsome u Hu) as (H1 & H2 & H3). auto.
        + split; [apply at_most_refl |]. intros d' _. discriminate. }
    destruct (IH st1 Hnone1) as (HnoneR & HsomeR & HleR & HminR).
    { intros u Hu. destruct (Hsome1 u Hu) as (H1 & H2 & H3 & _). auto. }
    split; [assumption |]. split.
    + intros u Hu. destruct (HsomeR u Hu) as (H1 & H2 & H3 & H4).
      split; [assumption |]. split; [assumption |]. split; [assumption |].
      destruct H4 as [H4 | H4]; [| right; right; assumption].
      destruct (Hsome1 u H4) as (_ & _ & _ & [H5 | ->]); [left; assumption | right; left].
    + split; [eapply at_most_trans; eassumption |].
      intros x d Hx Hv Hd. apply elem_of_cons in Hx as [-> | Hx].
      * eapply at_most_trans; [exact HleR | apply Hmin1; assumption].
      * eapply HminR; eassumption.
Qed.

(** The loop 'Update neighbors' from a node [u] that is no farther than
    any node not visited: the distance of [u] and those of the visited
    nodes stay, the others only go down, never below that of [u], and each
    edge out of [u] that has been handled is settled. *)
Lemma relax_fold_spec (u : string) (du : N) (visited : gset string)
    (edges_out : list (string * N)) : forall distances,
  (forall edge, edge ∈ edges_out -> edge ∈ adjacent es u) ->
  distances !! u = Some du ->
  (forall x dx, x ∈ visited -> distances !! x = Some dx -> at_most dx du) ->
  let result := fold_left (relax u) edges_out distances in
  result !! u = Some du
  /\ (forall v, is_Some (result !! v) <-> is_Some (distances !! v))
  /\ (forall x, x ∈ visited -> result !! x = distances !! x)
  /\ (forall v d d', distances !! v = Some d -> result !! v = Some d' ->
        at_most d' d /\ (d' = d \/ at_most du d'))
  /\ (forall edge dv, edge ∈ edges_out -> result !! edge.1 = Some dv ->
        at_most dv (plus du edge.2)).
Proof using lt_irreflexive lt_transitive lt_comparable weights_not_negative.
  induction edges_out as [| edge edges_out IH]; intros distances Hout Hu Hvisited; simpl.
  - split; [assumption |]. split; [reflexivity |]. split; [reflexivity |]. split.
    + intros v d d' Hd Hd'. rewrite Hd in Hd'. injection Hd' as <-.
      split; [apply at_most_refl | left; reflexivity].
    + intros e dv He. inversion He.
  - destruct (adjacent_edge es u edge) as (e & He & Hfrom & Hto & Hw); [apply Hout; left |].
    assert (at_most du (plus du edge.2)) as Hup by (rewrite <- Hw; apply weights_not_negative, He).
    set (d1 := relax u distances edge).
    assert (d1 !! u = Some du
            /\ (forall v, is_Some (d1 !! v) <-> is_Some (distances !! v))
            /\ (forall x, x ∈ visited -> d1 !! x = distances !! x)
            /\ (forall v d d', distances !! v = Some d -> d1 !! v = Some d' ->
                  at_most d' d /\ (d' = d \/ at_most du d'))
            /\ (forall dv, d1 !! edge.1 = Some dv -> at_most dv (plus du edge.2)))
      as (Hu1 & Hkeys1 & Hvis1 & Hdown1 & Hedge1).
    { unfold d1, relax. rewrite Hu. destruct (distances !! edge.1) as [dv |] eqn:Hv.
      - destruct (lt (plus du edge.2) dv) eqn:Hlt.
        + rewrite (assign_insert distances edge.1) by (right; rewrite Hv; eauto).
          assert (edge.1 <> u) as Hne.
          { intros Heq. rewrite Heq, Hu in Hv. injection Hv as <-.
            unfold at_most in Hup. congruence. }
          split; [rewrite lookup_insert_ne by assumption; assumption |]. split.
          { intros v. destruct (decide (edge.1 = v)) as [<- | Hn].
            - rewrite lookup_insert_eq, Hv. split; eauto.
            - rewrite lookup_insert_ne by assumption. reflexivity. }
          split.
          { intros x Hx. apply lookup_insert_ne. intros Heq. rewrite <- Heq in Hx.
            pose proof (Hvisited edge.1 dv Hx Hv) as Hdv.
            assert (at_most dv (plus du edge.2)) as Hle by (eapply at_most_trans; eassumption).
            unfold at_most in Hle. congruence. }
          split.
          { intros v d d' Hd. destruct (decide (edge.1 = v)) as [<- | Hn].
            - rewrite lookup_insert_eq. intros [= <-]. rewrite Hv in Hd. injection Hd as <-.
              split; [apply lt_at_most; assumption | right; assumption].
            - rewrite lookup_insert_ne by assumption. rewrite Hd. intros [= <-].
              split; [apply at_most_refl | left; reflexivity]. }
          intros dv'. rewrite lookup_insert_eq. intros [= <-]. apply at_most_refl.
        + split; [assumption |]. split; [reflexivity |]. split; [reflexivity |]. split.
          { intros v d d' Hd Hd'. rewrite Hd in Hd'. injection Hd' as <-.
            split; [apply at_most_refl | left; reflexivity]. }
          intros dv'. rewrite Hv. intros [= <-]. exact Hlt.
      - split; [assumption |]. split; [reflexivity |]. split; [reflexivity |]. split.
        { intros v d d' Hd Hd'. rewrite Hd in Hd'. injection Hd' as <-.
          split; [apply at_most_refl | left; reflexivity]. }
        intros dv'. rewrite Hv. discriminate. }
    destruct (IH d1) as (HuR & HkeysR & HvisR & HdownR & HedgeR).
    { intros x Hx. apply Hout. right. assumption. }
    { assumption. }
    { intros x dx Hx Hdx. rewrite (Hvis1 x Hx) in Hdx. eapply Hvisited; eassumption. }
    split; [assumption |]. split; [intros v; rewrite HkeysR; apply Hkeys1 |].
    split; [intros x Hx; rewrite (HvisR x Hx); apply Hvis1, Hx |]. split.
    + intros v d d' Hd Hd'.
      destruct (proj2 (Hkeys1 v) (ex_intro _ d Hd)) as [d1v Hd1v].
      destruct (Hdown1 v d d1v Hd Hd1v) as [Hle1 Hcase1].
      destruct (HdownR v d1v d' Hd1v Hd') as [Hle2 Hcase2].
      split; [eapply at_most_trans; eassumption |].
      destruct Hcase2 as [-> | Hge]; [assumption | right; assumption].
    + intros x dv Hx Hdv. apply elem_of_cons in Hx as [-> | Hx]; [| eapply HedgeR; eassumption].
      destruct (proj1 (HkeysR edge.1) (ex_intro _ dv Hdv)) as [d1v Hd1v].
      destruct (HdownR edge.1 d1v dv Hd1v Hdv) as [Hle _].
      eapply at_most_trans; [exact Hle | apply Hedge1; assumption].
Qed.

Lemma adjacent_of_edge (e : GraphEdge) :
  e ∈ es -> (to e, edge_weight e) ∈ adjacent es (from e).
Proof using Type.
  intros He. unfold adjacent. apply list_elem_of_fmap. exists e.
  split; [reflexivity |]. apply list_elem_of_filter. split; [reflexivity | assumption].
Qed.

(** One iteration of the loop keeps [settled]. *)
Lemma settled_step (visited : gset string) (distances : gmap string N) (u : string) :
  settled visited distances ->
  (fold_left (closer distances visited) ns (None, infinity)).1 = Some u ->
  settled ({[u]} ∪ visited) (fold_left (relax u) (adjacent es u) distances).
Proof using lt_irreflexive lt_transitive lt_comparable infinity_top weights_not_negative
            source_is_node edges_join_nodes.
  intros Hs Hmin.
  destruct (closer_fold_spec distances visited ns (None, infinity))
    as (_ & Hsome & _ & Hleast); [reflexivity | intros x Hx; discriminate |].
  destruct (Hsome u Hmin) as (Hu & Hdu & _ & [Hx | Hin]); [discriminate |].
  set (du := (fold_left (closer distances visited) ns (None, infinity)).2) in *.
  assert (forall x dx, x ∈ visited -> distances !! x = Some dx -> at_most dx du) as Hvis.
  { intros x dx Hx Hdx. exact (settled_first _ _ Hs x u dx du Hx Hin Hu Hdx Hdu). }
  assert (forall v dv, v ∈ id <$> ns -> v ∉ visited -> distances !! v = Some dv ->
                       at_most du dv) as Hfirst.
  { intros v dv Hv Hnv Hdv. apply list_elem_of_fmap in Hv as (n & -> & Hn).
    exact (Hleast n dv Hn Hnv Hdv). }
  destruct (relax_fold_spec u du visited (adjacent es u) distances (fun _ H => H) Hdu Hvis)
    as (HuR & HkeysR & HvisR & HdownR & HedgeR).
  split.
  - intros v Hv. apply HkeysR. exact (settled_keys _ _ Hs v Hv).
  - intros x Hx. apply elem_of_union in Hx as [Hx | Hx].
    + apply elem_of_singleton in Hx as ->. assumption.
    + exact (settled_nodes _ _ Hs x Hx).
  - intros x e dx dv Hx He Hfrom Hdx Hdv. apply elem_of_union in Hx as [Hx | Hx].
    + apply elem_of_singleton in Hx as ->. rewrite HuR in Hdx. injection Hdx as <-.
      apply (HedgeR (to e, edge_weight e) dv); [| assumption].
      rewrite <- Hfrom. apply adjacent_of_edge, He.
    + rewrite (HvisR x Hx) in Hdx.
      destruct (settled_keys _ _ Hs (to e) (proj2 (edges_join_nodes e He))) as [dv0 Hdv0].
      destruct (HdownR (to e) dv0 dv Hdv0 Hdv) as [Hle _].
      eapply at_most_trans; [exact Hle |].
      exact (settled_edges _ _ Hs x e dx dv0 Hx He Hfrom Hdx Hdv0).
  - intros x v dx dv Hx Hv Hnv Hdx Hdv.
    assert (v <> u /\ v ∉ visited) as [Hvu Hnv'].
    { split; intros H; apply Hnv; [subst v; apply elem_of_union_l, elem_of_singleton
                                  | apply elem_of_union_r, H]; reflexivity. }
    destruct (settled_keys _ _ Hs v Hv) as [dv0 Hdv0].
    destruct (HdownR v dv0 dv Hdv0 Hdv) as [_ Hcase].
    assert (at_most du dv) as Hdudv.
    { destruct Hcase as [-> | Hge]; [apply (Hfirst v dv0 Hv Hnv' Hdv0) | assumption]. }
    apply elem_of_union in Hx as [Hx | Hx].
    + apply elem_of_singleton in Hx as ->. rewrite HuR in Hdx. injection Hdx as <-. assumption.
    + rewrite (HvisR x Hx) in Hdx. eapply at_most_trans; [apply (Hvis x dx Hx Hdx) | assumption].
  - intros d Hd. destruct (settled_keys _ _ Hs source source_is_node) as [d0 Hd0].
    destruct (HdownR source d0 d Hd0 Hd) as [Hle _].
    eapply at_most_trans; [exact Hle | exact (settled_source _ _ Hs d0 Hd0)].
Qed.

(** When the loop ends, a node that was not visited is at [Infinity]. *)
Lemma process_settled (fuel : nat) : forall visited distances result,
  settled visited distances ->
  process fuel ns es visited distances = Ok result ->
  exists visited',
    settled visited' result
    /\ forall v d, v ∈ id <$> ns -> v ∉ visited' -> result !! v = Some d -> at_most infinity d.
Proof using lt_irreflexive lt_transitive lt_comparable infinity_top weights_not_negative
            source_is_node edges_join_nodes.
  induction fuel as [| fuel IH]; intros visited distances result Hs; [discriminate |].
  cbn [process]. destruct (decide (size visited < length ns)%nat) as [Hsize | Hsize].
  - destruct (fold_left (closer distances visited) ns (None, infinity)).1 as [u |] eqn:Hmin.
    + intros Hrun. eapply IH; [| exact Hrun]. apply settled_step; assumption.
    + intros [= <-]. exists visited. split; [assumption |]. intros v d Hv Hnv Hd.
      destruct (closer_fold_spec distances visited ns (None, infinity))
        as (Hnone & _ & _ & Hleast); [reflexivity | intros x Hx; discriminate |].
      apply list_elem_of_fmap in Hv as (n & -> & Hn).
      rewrite <- (Hnone Hmin). exact (Hleast n d Hn Hnv Hd).
  - intros [= <-]. exists visited. split; [assumption |]. intros v d Hv Hnv Hd.
    exfalso. apply Hnv.
    assert (visited ⊆ list_to_set (id <$> ns)) as Hsub.
    { intros x Hx. apply elem_of_list_to_set. exact (settled_nodes _ _ Hs x Hx). }
    pose proof (size_list_to_set_le (id <$> ns)) as Hle. rewrite length_fmap in Hle.
    rewrite (set_subseteq_size_eq _ _ Hsub) by lia.
    apply elem_of_list_to_set. assumption.
Qed.

Lemma walks_snoc_inv (src : string) (path : list GraphEdge) (e : GraphEdge) (dst : string) :
  walks src (path ++ [e]) dst -> walks src path (from e) /\ to e = dst.
Proof using Type.
  revert src. induction path as [| x path IH]; intros src; simpl.
  - intros [Hfrom Hto]. split; [symmetry; assumption | assumption].
  - intros [Hx Hrest]. destruct (IH _ Hrest) as [Hwalk Hto].
    split; [split; assumption | assumption].
Qed.

(** No path is lighter than a settled distance. *)
Lemma settled_shortest (visited : gset string) (distances : gmap string N) :
  settled visited distances ->
  (forall v d, v ∈ id <$> ns -> v ∉ visited -> distances !! v = Some d -> at_most infinity d) ->
  forall path v d,
    (forall e, e ∈ path -> e ∈ es) -> walks source path v -> distances !! v = Some d ->
    at_most d (path_weight path).
Proof using lt_irreflexive lt_comparable infinity_top weights_not_negative plus_monotone
            edges_join_nodes.
  intros Hs Hend path. induction path as [| e path IH] using rev_ind; intros v d Hpath Hwalk Hd.
  - simpl in Hwalk. subst v. exact (settled_source _ _ Hs d Hd).
  - apply walks_snoc_inv in Hwalk as [Hwalk Hto]. subst v.
    assert (e ∈ es) as He by (apply Hpath, elem_of_app; right; left).
    destruct (edges_join_nodes e He) as [Hfrom _].
    destruct (settled_keys _ _ Hs (from e) Hfrom) as [du Hdu].
    assert (at_most du (path_weight path)) as Hdu_le.
    { apply (IH (from e) du); [| assumption | assumption].
      intros x Hx. apply Hpath, elem_of_app. left. assumption. }
    unfold path_weight. rewrite fold_left_app. cbn [fold_left].
    fold (path_weight path).
    destruct (decide (from e ∈ visited)) as [Hvis | Hvis].
    + eapply at_most_trans; [exact (settled_edges _ _ Hs (from e) e du d Hvis He eq_refl Hdu Hd) |].
      apply plus_monotone; assumption.
    + pose proof (Hend (from e) du Hfrom Hvis Hdu) as Hinf.
      eapply at_most_trans; [apply infinity_top |].
      eapply at_most_trans; [exact Hinf |].
      eapply at_most_trans; [exact Hdu_le |]. apply weights_not_negative, He.
Qed.

Lemma initial_distances_settled : settled ∅ (initial_distances ns source).
Proof using lt_irreflexive source_is_node no_proto_node.
  assert (forall v, v ∈ id <$> ns -> v <> "__proto__"%string) as Hplain
    by (intros v Hv ->; contradiction).
  split.
  - intros v Hv. apply initial_distances_keys. split; [right; assumption | apply Hplain, Hv].
  - intros u Hu. apply elem_of_empty in Hu. destruct Hu.
  - intros u e du dv Hu. apply elem_of_empty in Hu. destruct Hu.
  - intros u v du dv Hu. apply elem_of_empty in Hu. destruct Hu.
  - intros d. unfold initial_distances.
    rewrite assign_insert by (left; apply Hplain, source_is_node).
    rewrite lookup_insert_eq. intros [= <-]. apply at_most_refl.
Qed.

End Shortest.

(** X27: with weights that are not negative, [dijkstra] reports shortest
    distances.  When [<] is a strict weak order with [Infinity] on top, no
    edge weight lowers a number it is added to, adding a weight keeps the
    order, the source and the ends of the edges are nodes of the graph and
    no node is called [__proto__], no path of the graph from the source to a
    node is lighter than the distance reported for that node. *)
Theorem dijkstra_distances_are_shortest (graph : Graph) (source : string) :
  (forall e x, e ∈ default [] (edges graph) -> at_most x (plus x (edge_weight e))) ->
  (forall e x y, e ∈ default [] (edges graph) -> at_most x y ->
     at_most (plus x (edge_weight e)) (plus y (edge_weight e))) ->
  source ∈ id <$> default [] (nodes graph) ->
  (forall e, e ∈ default [] (edges graph) ->
     from e ∈ id <$> default [] (nodes graph) /\ to e ∈ id <$> default [] (nodes graph)) ->
  "__proto__"%string ∉ id <$> default [] (nodes graph) ->
  exists distances,
    dijkstra graph source = Ok distances
    /\ forall path v d,
         (forall e, e ∈ path -> e ∈ default [] (edges graph)) ->
         walks source path v -> distances !! v = Some d ->
         lt (path_weight path) d = false.
Proof using lt_irreflexive lt_transitive lt_comparable infinity_top.
  intros Hweights Hmono Hsource Hedges Hproto.
  destruct (process_ok (default [] (nodes graph)) (default [] (edges graph))
              (S (length (default [] (nodes graph)))) ∅
              (initial_distances (default [] (nodes graph)) source))
    as [distances Hrun]; [intros u Hu; apply elem_of_empty in Hu; destruct Hu
                         | rewrite size_empty; lia |].
  exists distances. split; [exact Hrun |].
  destruct (process_settled _ _ source Hweights Hsource Hedges _ _ _ _
              (initial_distances_settled _ _ source Hsource Hproto) Hrun)
    as (visited & Hs & Hend).
  intros path v d Hpath Hwalk Hd.
  exact (settled_shortest _ _ source Hweights Hmono Hedges visited distances Hs Hend
           path v d Hpath Hwalk Hd).
Qed.

End Dijkstra.


(** **** [Float]: the binary64 numbers of JavaScript *)
Definition float_plus : spec_float -> spec_float -> spec_float := SFadd 53 1024.
Definition float_lt : spec_float -> spec_float -> bool := SFltb.
Definition float_truthy (x : spec_float) : bool :=
  match x with
  | S754_zero _ | S754_nan => false
  | _ => true
  end.
Definition float_of_Z (z : Z) : spec_float := binary_normalize 53 1024 z 0 false.
Definition float_infinity : spec_float := S754_infinity false.
(** The literal [0.5]. *)
Definition one_half : spec_float := S754_finite false 4503599627370496 (-53).

Definition float_dijkstra : Graph -> string -> outcome (gmap string spec_float) :=
  dijkstra float_plus float_lt float_truthy (float_of_Z 0) (float_of_Z 1) float_infinity.

Lemma float_infinity_absorbs (w x : spec_float) :
  float_lt (float_plus float_infinity w) x = false.
Proof.
  destruct w as [s | [] | | s m e]; destruct x as [s' | [] | | s' m' e']; reflexivity.
Qed.

(** Four places; the road from a to c has no weight, and d is cut off. *)
Definition roads : Graph :=
  {| nodes := Some [ {| id := "a" |}; {| id := "b" |}; {| id := "c" |}; {| id := "d" |} ];
     edges := Some [ {| from := "a"; to := "b"; weight := Some (float_of_Z 4) |};
                     {| from := "a"; to := "c"; weight := None |};
                     {| from := "c"; to := "b"; weight := Some one_half |} ] |}.

Example float_dijkstra_roads :
  float_dijkstra roads "a"
  = Ok {[ "a"%string := float_of_Z 0;
          "b"%string := S754_finite false 6755399441055744 (-52);
          "c"%string := float_of_Z 1;
          "d"%string := float_infinity ]}.
Proof. vm_compute. reflexivity. Qed.

(** A node called [__proto__] gets no entry, and no path leads through it:
    c stays at [Infinity] although a path of weight 2 reaches it. *)
Example float_dijkstra_proto_node :
  float_dijkstra
    {| nodes := Some [ {| id := "a" |}; {| id := "__proto__" |}; {| id := "c" |} ];
       edges := Some [ {| from := "a"; to := "__proto__"; weight := Some (float_of_Z 1) |};
                       {| from := "__proto__"; to := "c"; weight := Some (float_of_Z 1) |} ] |}
    "a"
  = Ok {[ "a"%string := float_of_Z 0; "c"%string := float_infinity ]}.
Proof. vm_compute. reflexivity. Qed.

Lemma dijkstra_distances_are_paths_witness :
  exists distances,
    float_dijkstra roads "a" = Ok distances
    /\ (forall v, is_Some (distances !! v)
                  <-> (v = "a"%string \/ v ∈ id <$> default [] (nodes roads))
                      /\ v <> "__proto__"%string)
    /\ forall v d, distances !! v = Some d ->
         path_distance float_plus float_truthy (float_of_Z 0) (float_of_Z 1) float_infinity
           (default [] (edges roads)) "a" v d.
Proof.
  apply (dijkstra_distances_are_paths float_plus float_lt float_truthy
           (float_of_Z 0) (float_of_Z 1) float_infinity float_infinity_absorbs roads "a").
Defined.

(** **** Whole numbers with [Infinity] ([None]) *)
Definition whole_plus (x y : option Z) : option Z :=
  match x, y with
  | Some a, Some b => Some (a + b)%Z
  | _, _ => None
  end.
Definition whole_lt (x y : option Z) : bool :=
  match x, y with
  | Some a, Some b => (a <? b)%Z
  | Some _, None => true
  | None, _ => false
  end.
Definition whole_truthy (x : option Z) : bool :=
  match x with
  | Some 0%Z => false
  | _ => true
  end.

Definition whole_dijkstra : Graph -> string -> outcome (gmap string (option Z)) :=
  dijkstra whole_plus whole_lt whole_truthy (Some 0%Z) (Some 1%Z) None.

Definition lanes : Graph :=
  {| nodes := Some [ {| id := "a" |}; {| id := "b" |}; {| id := "c" |}; {| id := "d" |} ];
     edges := Some [ {| from := "a"; to := "b"; weight := Some (Some 4%Z) |};
                     {| from := "a"; to := "c"; weight := None |};
                     {| from := "c"; to := "b"; weight := Some (Some 2%Z) |};
                     {| from := "b"; to := "a"; weight := Some (Some 0%Z) |} ] |}.

Example whole_dijkstra_lanes :
  whole_dijkstra lanes "a"
  = Ok {[ "a"%string := Some 0%Z; "b"%string := Some 3%Z;
          "c"%string := Some 1%Z; "d"%string := None ]}.
Proof. vm_compute. reflexivity. Qed.

Lemma whole_lt_spec (x y : option Z) :
  whole_lt x y = true
  <-> match x, y with
      | Some a, Some b => (a < b)%Z
      | Some _, None => True
      | None, _ => False
      end.
Proof.
  destruct x as [a |], y as [b |]; simpl; try (split; [intros; exact I | reflexivity]);
    try (split; [discriminate | intros []]).
  apply Z.ltb_lt.
Qed.

Lemma whole_at_most_spec (x y : option Z) :
  at_most whole_lt x y
  <-> match x, y with
      | Some a, Some b => (a <= b)%Z
      | _, None => True
      | None, Some _ => False
      end.
Proof.
  unfold at_most. destruct x as [a |], y as [b |]; simpl;
    try (split; [intros; exact I | reflexivity]); try (split; [discriminate | intros []]).
  apply Z.ltb_ge.
Qed.

Lemma dijkstra_distances_are_shortest_witness :
  exists distances,
    whole_dijkstra lanes "a" = Ok distances
    /\ forall path v d,
         (forall e, e ∈ path -> e ∈ default [] (edges lanes)) ->
         walks "a" path v -> distances !! v = Some d ->
         whole_lt (path_weight whole_plus whole_truthy (Some 0%Z) (Some 1%Z) path) d = false.
Proof.
  apply (dijkstra_distances_are_shortest whole_plus whole_lt whole_truthy
           (Some 0%Z) (Some 1%Z) None).
  - intros [a |]; simpl; [apply Z.ltb_irrefl | reflexivity].
  - intros x y z Hxy Hyz. apply whole_lt_spec in Hxy, Hyz. apply whole_lt_spec.
    destruct x, y, z; simpl in *; try exact I; try contradiction; lia.
  - intros x y z Hxz. apply whole_lt_spec in Hxz. rewrite !whole_lt_spec.
    destruct x as [a |], y as [b |], z as [c |]; simpl in *; try contradiction; auto.
    destruct (Z_lt_le_dec a b); [left; assumption | right; lia].
  - intros x. reflexivity.
  - intros e x He. apply whole_at_most_spec. simpl in He.
    repeat (apply elem_of_cons in He as [-> | He]; [destruct x; simpl; [lia | exact I] |]).
    inversion He.
  - intros e x y He Hxy. apply whole_at_most_spec in Hxy. apply whole_at_most_spec.
    simpl in He.
    repeat (apply elem_of_cons in He as [-> | He];
            [destruct x, y; simpl in *; try exact I; try contradiction; lia |]).
    inversion He.
  - apply (bool_decide_unpack _). vm_compute. exact I.
  - intros e He. simpl in He.
    repeat (apply elem_of_cons in He as [-> | He];
            [split; apply (bool_decide_unpack _); vm_compute; exact I |]).
    inversion He.
  - apply (bool_decide_unpack _). vm_compute. exact I.
Defined.

End Solvers.

(** ** The swarm manager (class [SwarmManager]) *)
Module Swarm.

(** [SWARM_TOPOLOGIES] and [CONSENSUS_PROTOCOLS]: plain strings in the source. *)
Definition MESH : string := "mesh".
Definition STAR : string := "star".
Definition HIERARCHICAL : string := "hierarchical".
Definition RING : string := "ring".
Definition HYBRID : string := "hybrid".
Definition RAFT : string := "raft".

(** *** Numbers: IEEE-754 binary64 *)
Definition number (n : nat) : spec_float := binary_normalize 53 1024 (Z.of_nat n) 0 false.
Definition number_div (x y : spec_float) : spec_float := SFdiv 53 1024 x y.
(** [x >= y]; false when either side is [NaN]. *)
Definition number_ge (x y : spec_float) : bool := SFleb y x.
(** The literal [0.7]: 0x1.6666666666666p-1. *)
Definition seven_tenths : spec_float := S754_finite false 6305039478318694 (-53).

Definition number_truthy (x : spec_float) : bool :=
  match x with
  | S754_zero _ | S754_nan => false
  | _ => true
  end.

(** *** Data model *)
Inductive AgentState : Type := ready | busy.
(** [swarm.state]: 'idle', 'executing', 'error'. *)
Inductive SwarmState : Type := idle | executing | errored.

Record AgentMetrics : Type :=
  { messagesReceived : nat; messagesSent : nat; agent_tasksCompleted : nat }.

Record Agent : Type :=
  { agent_id : string;
    agent_swarmId : string;
    role : string;
    agent_type : string;
    capabilities : list string;
    agent_state : AgentState;
    connections : list string;
    messageQueue : list value;
    agent_metrics : AgentMetrics }.

(** An entry of [spec.roles], also the [agentSpec] of [addAgent]. *)
Record Role : Type :=
  { role_name : string;
    role_type : option string;
    role_capabilities : option (list string);
    isCoordinator : bool }.

Record SwarmConfig : Type :=
  { maxAgents : nat; consensusThreshold : spec_float; faultTolerance : string }.

Record SwarmMetrics : Type :=
  { tasksCompleted : nat;
    swarm_consensusReached : nat;
    averageResponseTime : nat;
    messagesExchanged : nat }.

Record Swarm : Type :=
  { swarm_id : string;
    swarm_name : string;
    topology : string;
    consensusProtocol : string;
    agents : list Agent;
    coordinator : option string;
    swarm_state : SwarmState;
    swarm_config : SwarmConfig;
    swarm_metrics : SwarmMetrics;
    createdAt : string }.

(** The argument of [createSwarm]; [None] is an absent property. *)
Record SwarmSpec : Type :=
  { spec_id : option string;
    spec_name : option string;
    spec_topology : option string;
    spec_consensusProtocol : option string;
    spec_roles : option (list Role);
    spec_maxAgents : option nat;
    spec_consensusThreshold : option spec_float;
    spec_faultTolerance : option string }.

(** [this.config] after the constructor's defaults. *)
Record ManagerConfig : Type :=
  { cfg_maxAgents : nat;
    cfg_defaultTopology : string;
    cfg_consensusThreshold : spec_float;
    cfg_consensusProtocol : string }.

Record ManagerMetrics : Type :=
  { swarmsCreated : nat; tasksExecuted : nat; consensusReached : nat; opsPerSecond : nat }.

(** What [this.emit] announces. *)
Inductive Event : Type :=
| swarm_created (swarmId : string)
| agent_added (swarmId agentId : string)
| task_started (swarmId : string)
| task_completed (swarmId : string)
| task_failed (swarmId : string).

(** The manager with [this.ruvSwarm = null]: the optional [ruv-swarm]
    package is not part of the repository, and every method then takes its
    local path. *)
Record SwarmManager : Type :=
  { config : ManagerConfig;
    swarms : gmap string Swarm;
    metrics : ManagerMetrics;
    events : list Event }.

(** [{ achieved, confidence, result, votes, total }] *)
Record ConsensusResult : Type :=
  { achieved : bool;
    confidence : spec_float;
    result : value;
    votes : nat;
    total : nat }.

(** *** Field updates of the mutable objects *)
Definition with_connections (a : Agent) (c : list string) : Agent :=
  {| agent_id := agent_id a; agent_swarmId := agent_swarmId a; role := role a;
     agent_type := agent_type a; capabilities := capabilities a;
     agent_state := agent_state a; connections := c;
     messageQueue := messageQueue a; agent_metrics := agent_metrics a |}.

Definition with_agent_state (a : Agent) (s : AgentState) : Agent :=
  {| agent_id := agent_id a; agent_swarmId := agent_swarmId a; role := role a;
     agent_type := agent_type a; capabilities := capabilities a;
     agent_state := s; connections := connections a;
     messageQueue := messageQueue a; agent_metrics := agent_metrics a |}.

Definition count_task (a : Agent) : Agent :=
  {| agent_id := agent_id a; agent_swarmId := agent_swarmId a; role := role a;
     agent_type := agent_type a; capabilities := capabilities a;
     agent_state := agent_state a; connections := connections a;
     messageQueue := messageQueue a;
     agent_metrics :=
       {| messagesReceived := messagesReceived (agent_metrics a);
          messagesSent := messagesSent (agent_metrics a);
          agent_tasksCompleted := S (agent_tasksCompleted (agent_metrics a)) |} |}.

Definition with_agents (s : Swarm) (l : list Agent) : Swarm :=
  {| swarm_id := swarm_id s; swarm_name := swarm_name s; topology := topology s;
     consensusProtocol := consensusProtocol s; agents := l; coordinator := coordinator s;
     swarm_state := swarm_state s; swarm_config := swarm_config s;
     swarm_metrics := swarm_metrics s; createdAt := createdAt s |}.

Definition with_swarm_state (s : Swarm) (st : SwarmState) : Swarm :=
  {| swarm_id := swarm_id s; swarm_name := swarm_name s; topology := topology s;
     consensusProtocol := consensusProtocol s; agents := agents s;
     coordinator := coordinator s; swarm_state := st; swarm_config := swarm_config s;
     swarm_metrics := swarm_metrics s; createdAt := createdAt s |}.

Definition with_swarm_metrics (s : Swarm) (f : SwarmMetrics -> SwarmMetrics) : Swarm :=
  {| swarm_id := swarm_id s; swarm_name := swarm_name s; topology := topology s;
     consensusProtocol := consensusProtocol s; agents := agents s;
     coordinator := coordinator s; swarm_state := swarm_state s;
     swarm_config := swarm_config s; swarm_metrics := f (swarm_metrics s);
     createdAt := createdAt s |}.

Definition count_swarm_task (x : SwarmMetrics) : SwarmMetrics :=
  {| tasksCompleted := S (tasksCompleted x);
     swarm_consensusReached := swarm_consensusReached x;
     averageResponseTime := averageResponseTime x;
     messagesExchanged := messagesExchanged x |}.

Definition count_swarm_consensus (x : SwarmMetrics) : SwarmMetrics :=
  {| tasksCompleted := tasksCompleted x;
     swarm_consensusReached := S (swarm_consensusReached x);
     averageResponseTime := averageResponseTime x;
     messagesExchanged := messagesExchanged x |}.

Definition count_task_executed (x : ManagerMetrics) : ManagerMetrics :=
  {| swarmsCreated := swarmsCreated x; tasksExecuted := S (tasksExecuted x);
     consensusReached := consensusReached x; opsPerSecond := opsPerSecond x |}.

Definition count_consensus (x : ManagerMetrics) : ManagerMetrics :=
  {| swarmsCreated := swarmsCreated x; tasksExecuted := tasksExecuted x;
     consensusReached := S (consensusReached x); opsPerSecond := opsPerSecond x |}.

Definition count_swarm_created (x : ManagerMetrics) : ManagerMetrics :=
  {| swarmsCreated := S (swarmsCreated x); tasksExecuted := tasksExecuted x;
     consensusReached := consensusReached x; opsPerSecond := opsPerSecond x |}.

(** *** [createSwarmAgent(swarmId, role)]

    [rnd] is the string [Math.random().toString(36).substr(2, 9)] drawn for
    the agent's id. *)
Definition createSwarmAgent (swarmId : string) (r : Role) (rnd : string) : Agent :=
  {| agent_id := swarmId +:+ "-agent-" +:+ rnd;
     agent_swarmId := swarmId;
     role := role_name r;
     agent_type := str_or (role_type r) "worker";
     capabilities := default [] (role_capabilities r);
     agent_state := ready;
     connections := [];
     messageQueue := [];
     agent_metrics :=
       {| messagesReceived := 0; messagesSent := 0; agent_tasksCompleted := 0 |} |}.

(** [x || d] on an optional number: [undefined] and [0] are falsy. *)
Definition nat_or (x : option nat) (d : nat) : nat :=
  match x with
  | Some (S n) => S n
  | _ => d
  end.

Definition number_or (x : option spec_float) (d : spec_float) : spec_float :=
  match x with
  | Some y => if number_truthy y then y else d
  | None => d
  end.

(** The [for (const role of spec.roles)] loop of [createSwarm]: the state is
    the roster, the coordinator and the number of random draws made. *)
Definition add_role (swarmId : string) (random : nat -> string)
    (st : list Agent * option string * nat) (r : Role) : list Agent * option string * nat :=
  let '(roster, coord, draws) := st in
  let agent := createSwarmAgent swarmId r (random draws) in
  (roster ++ [agent], if isCoordinator r then Some (agent_id agent) else coord, S draws).

(** *** [createSwarm(spec)]

    [now] is [Date.now()] in decimal, [iso] is [new Date().toISOString()],
    and [random k] is the k-th draw of [Math.random()] made by the call. *)
Definition createSwarm (m : SwarmManager) (now iso : string) (random : nat -> string)
    (spec : SwarmSpec) : Swarm * SwarmManager :=
  let '(swarmId, draws) :=
    match spec_id spec with
    | Some s => if decide (s = EmptyString)
                then ("swarm-" +:+ now +:+ "-" +:+ random 0, 1)
                else (s, 0)
    | None => ("swarm-" +:+ now +:+ "-" +:+ random 0, 1)
    end in
  let '(roster, coord, _) :=
    fold_left (add_role swarmId random) (default [] (spec_roles spec)) ([], None, draws) in
  let swarm :=
    {| swarm_id := swarmId;
       swarm_name := str_or (spec_name spec) swarmId;
       topology := str_or (spec_topology spec) (cfg_defaultTopology (config m));
       consensusProtocol :=
         str_or (spec_consensusProtocol spec) (cfg_consensusProtocol (config m));
       agents := roster;
       coordinator := coord;
       swarm_state := idle;
       swarm_config :=
         {| maxAgents := nat_or (spec_maxAgents spec) (cfg_maxAgents (config m));
            consensusThreshold :=
              number_or (spec_consensusThreshold spec) (cfg_consensusThreshold (config m));
            faultTolerance := str_or (spec_faultTolerance spec) "byzantine" |};
       swarm_metrics :=
         {| tasksCompleted := 0; swarm_consensusReached := 0;
            averageResponseTime := 0; messagesExchanged := 0 |};
       createdAt := iso |} in
  (swarm,
   {| config := config m;
      swarms := <[swarmId := swarm]> (swarms m);
      metrics := count_swarm_created (metrics m);
      events := events m ++ [swarm_created swarmId] |}).

(** *** [updateTopologyConnections(swarm)]

    Each loop assigns [connections] of the agent it visits and reads only
    the ids of the roster, which no iteration changes; the loops are
    therefore maps over the roster (with the index, where the source has
    one). *)
Definition other_ids (roster : list Agent) (a : Agent) : list string :=
  agent_id <$> filter (fun b => agent_id b <> agent_id a) roster.

(** The index in the roster of the hub (or coordinator) object:
    [agents.find(a => a.id === swarm.coordinator) || agents[0]]. *)
Definition hub_index (s : Swarm) : option (nat * Agent) :=
  match list_find (fun a => Some (agent_id a) = coordinator s) (agents s) with
  | Some h => Some h
  | None => match agents s with
            | a :: _ => Some (0, a)
            | [] => None
            end
  end.

(** The hub itself. *)
Definition hub_of (s : Swarm) : option Agent := snd <$> hub_index s.

(** The id of [agents[j]], when [agents[j]] is defined. *)
Definition id_at (roster : list Agent) (j : Z) : list string :=
  if Z.ltb j 0 then []
  else match roster !! Z.to_nat j with
       | Some a => [agent_id a]
       | None => []
       end.

Definition mesh_connections (roster : list Agent) : list Agent :=
  (fun a => with_connections a (other_ids roster a)) <$> roster.

Definition star_connections (hub : Agent) (roster : list Agent) : list Agent :=
  (fun a => if decide (agent_id a = agent_id hub)
            then with_connections a (other_ids roster a)
            else with_connections a [agent_id hub]) <$> roster.

(** parent [Math.floor((i - 1) / 2)], children [2i + 1] and [2i + 2] *)
Definition hierarchical_connections (roster : list Agent) : list Agent :=
  imap (fun i a =>
          let parent := ((Z.of_nat i - 1) / 2)%Z in
          let leftChild := (2 * Z.of_nat i + 1)%Z in
          let rightChild := (2 * Z.of_nat i + 2)%Z in
          with_connections a
            (id_at roster parent ++ id_at roster leftChild ++ id_at roster rightChild))
       roster.

(** [prev = (i - 1 + n) % n], [next = (i + 1) % n]; [agents[prev]] and
    [agents[next]] are defined for every index of a non-empty roster. *)
Definition ring_connections (roster : list Agent) : list Agent :=
  imap (fun i a =>
          let n := Z.of_nat (length roster) in
          let prev := Z.rem (Z.of_nat i - 1 + n) n in
          let next := Z.rem (Z.of_nat i + 1) n in
          with_connections a (id_at roster prev ++ id_at roster next))
       roster.

Definition updateTopologyConnections (s : Swarm) : Swarm :=
  if decide (topology s = MESH) then with_agents s (mesh_connections (agents s))
  else if decide (topology s = STAR) then
    match hub_of s with
    | Some hub => with_agents s (star_connections hub (agents s))
    | None => s
    end
  else if decide (topology s = HIERARCHICAL) then
    with_agents s (hierarchical_connections (agents s))
  else if decide (topology s = RING) then with_agents s (ring_connections (agents s))
  else s.

(** *** [addAgent(swarmId, agentSpec)]

    The returned agent is the object pushed on the roster, as
    [updateTopologyConnections] left it. *)
Definition addAgent (m : SwarmManager) (swarmId : string) (agentSpec : Role) (rnd : string)
  : outcome Agent * SwarmManager :=
  match swarms m !! swarmId with
  | None => (Throw (Error ("Swarm not found: " +:+ swarmId)), m)
  | Some swarm =>
      if decide (maxAgents (swarm_config swarm) <= length (agents swarm))
      then (Throw (Error "Swarm is at maximum capacity"), m)
      else
        let agent := createSwarmAgent swarmId agentSpec rnd in
        let swarm' := updateTopologyConnections (with_agents swarm (agents swarm ++ [agent])) in
        (Ok (default agent (agents swarm' !! length (agents swarm))),
         {| config := config m;
            swarms := <[swarmId := swarm']> (swarms m);
            metrics := metrics m;
            events := events m ++ [agent_added swarmId (agent_id agent)] |})
  end.

(** *** Task dispatch and consensus *)

(** How the gateway call inside [executeAgentTask] can end. *)
Inductive GatewayReply : Type :=
| fetch_rejected                    (* [fetch] throws: the gateway cannot be reached *)
| response_not_ok                   (* [response.ok] is false *)
| response_malformed                (* [response.json()] or [data.choices[0].message.content] throws *)
| response_content (content : value).

(** The result of a dispatch: a consensus verdict (mesh) or what the hub or
    coordinator agent returned (star, hierarchical). *)
Inductive TaskResult : Type :=
| consensus_result (c : ConsensusResult)
| agent_result (v : value).

(** [{ success: true, result, duration }] *)
Record TaskReport : Type := { success : bool; task_result : TaskResult; duration : Z }.

Section Dispatch.
(** [JSON.stringify] ([None] is [undefined]: the value has no JSON text) and
    [JSON.parse], which the code applies to texts made by [JSON.stringify]
    only. *)
Variable JSON_stringify : value -> option string.
Variable JSON_parse : string -> value.
(** The language-model gateway behind [fetch]: the reply to the request
    made for an agent and a task. *)
Variable gateway : Agent -> value -> GatewayReply.

(** [counts.set(response, (counts.get(response) || 0) + 1)] *)
Definition tally (counts : JsMap.t (option string) nat) (response : option string)
  : JsMap.t (option string) nat :=
  JsMap.set counts response (default 0 (JsMap.get counts response) + 1).

(** The body of [for (const [value, count] of counts.entries())]; the
    state is [(maxCount, consensusValue)], and [consensusValue] starts as
    [null] ([None]). *)
Definition take_larger (st : nat * option (option string)) (entry : option string * nat)
  : nat * option (option string) :=
  let '(maxCount, consensusValue) := st in
  let '(value, count) := entry in
  if decide (maxCount < count) then (count, Some value) else (maxCount, consensusValue).

(** [consensusValue ? JSON.parse(consensusValue) : null]: [null],
    [undefined] and the empty string are falsy. *)
Definition parse_consensus (consensusValue : option (option string)) : value :=
  match consensusValue with
  | Some (Some text) => if decide (text = EmptyString) then VNull else JSON_parse text
  | _ => VNull
  end.

Definition achieveConsensus (results : list value) (threshold : spec_float) : ConsensusResult :=
  let responses := JSON_stringify <$> results in
  let counts := fold_left tally responses JsMap.empty in
  let '(maxCount, consensusValue) := fold_left take_larger (JsMap.entries counts) (0, None) in
  {| achieved := number_ge (number_div (number maxCount) (number (length results))) threshold;
     confidence := number_div (number maxCount) (number (length results));
     result := parse_consensus consensusValue;
     votes := maxCount;
     total := length results |}.

(** [{ processed: true, task, agentId: agent.id }] *)
Definition fallback (agent : Agent) (task : value) : value :=
  VObj [("processed", VBool true); ("task", task); ("agentId", VStr (agent_id agent))].

(** What [executeAgentTask] returns: every failure of the gateway call is
    caught (or skipped by [if (response.ok)]) and answered by the fallback. *)
Definition agent_answer (agent : Agent) (task : value) : value :=
  match gateway agent task with
  | response_content content => content
  | _ => fallback agent task
  end.

(** *** [executeAgentTask(agent, task)]

    The agent is [swarm.agents[i]]; the object is updated in place:
    [tasksCompleted++], and [state] is 'busy' during the call and 'ready'
    after it.  [agents[i]] undefined makes [agent.state = 'busy'] a
    [TypeError]. *)
Definition executeAgentTask (s : Swarm) (i : nat) (task : value) : outcome value * Swarm :=
  match agents s !! i with
  | None => (Throw (Error "Cannot set properties of undefined (setting 'state')"), s)
  | Some agent =>
      (Ok (agent_answer agent task),
       with_agents s (<[i := with_agent_state (count_task agent) ready]> (agents s)))
  end.

(** [Promise.all(indices.map(i => this.executeAgentTask(agents[i], task i)))] *)
Fixpoint all_agent_tasks (s : Swarm) (calls : list (nat * value)) : outcome (list value) * Swarm :=
  match calls with
  | [] => (Ok [], s)
  | (i, task) :: rest =>
      match executeAgentTask s i task with
      | (Ok v, s1) =>
          match all_agent_tasks s1 rest with
          | (Ok vs, s2) => (Ok (v :: vs), s2)
          | (Throw e, s2) => (Throw e, s2)
          | (Diverges, s2) => (Diverges, s2)
          end
      | (Throw e, s1) => (Throw e, snd (all_agent_tasks s1 rest))
      | (Diverges, s1) => (Diverges, s1)
      end
  end.

(** *** [executeMesh(swarm, task)] *)
Definition executeMesh (s : Swarm) (mm : ManagerMetrics) (task : value)
  : outcome ConsensusResult * Swarm * ManagerMetrics :=
  match all_agent_tasks s ((fun i => (i, task)) <$> seq 0 (length (agents s))) with
  | (Ok results, s1) =>
      let consensus := achieveConsensus results (consensusThreshold (swarm_config s1)) in
      if achieved consensus
      then (Ok consensus, with_swarm_metrics s1 count_swarm_consensus, count_consensus mm)
      else (Ok consensus, s1, mm)
  | (Throw e, s1) => (Throw e, s1, mm)
  | (Diverges, s1) => (Diverges, s1, mm)
  end.

(** The indices of [agents.filter(a => a.id !== hub.id)]. *)
Definition others_index (s : Swarm) (hub : Agent) : list nat :=
  List.filter (fun i => match agents s !! i with
                        | Some a => bool_decide (agent_id a <> agent_id hub)
                        | None => false
                        end) (seq 0 (length (agents s))).

(** *** [executeStar(swarm, task)]: with no agent at all the filter reads
    no [hub.id], there is no spoke, and [executeAgentTask(undefined, ...)]
    fails at [agent.state = 'busy']. *)
Definition executeStar (s : Swarm) (task : value) : outcome value * Swarm :=
  match hub_index s with
  | None => (Throw (Error "Cannot set properties of undefined (setting 'state')"), s)
  | Some (h, hub) =>
      match all_agent_tasks s ((fun i => (i, task)) <$> others_index s hub) with
      | (Ok spokeResults, s1) =>
          executeAgentTask s1 h
            (VObj [("type", VStr "aggregate"); ("results", VArr spokeResults)])
      | (Throw e, s1) => (Throw e, s1)
      | (Diverges, s1) => (Diverges, s1)
      end
  end.

(** [decomposed.subtasks || [task]]: reading a property of [null] or
    [undefined] throws, a string or an object without the property gives
    [undefined]; [subtasks.map] needs an array. *)
Definition subtasks_of (decomposed task : value) : outcome (list value) :=
  match decomposed with
  | VUndefined =>
      Throw (Error "Cannot read properties of undefined (reading 'subtasks')")
  | VNull =>
      Throw (Error "Cannot read properties of null (reading 'subtasks')")
  | VObj props =>
      match JsMap.get props "subtasks" with
      | Some v => if truthy v
                  then match v with
                       | VArr items => Ok items
                       | _ => Throw (Error "subtasks.map is not a function")
                       end
                  else Ok [task]
      | None => Ok [task]
      end
  | _ => Ok [task]
  end.

(** [workers[i % workers.length]] for the i-th subtask; with no worker the
    index is [NaN] and the agent [undefined] (an index outside the roster). *)
Definition assign (s : Swarm) (workers : list nat) (subtasks : list value) : list (nat * value) :=
  imap (fun i subtask =>
          (default (length (agents s)) (workers !! (i mod length workers)), subtask))
       subtasks.

(** *** [executeHierarchical(swarm, task)] *)
Definition executeHierarchical (s : Swarm) (task : value) : outcome value * Swarm :=
  match hub_index s with
  | None => (Throw (Error "Cannot set properties of undefined (setting 'state')"), s)
  | Some (c, coord) =>
      match executeAgentTask s c (VObj [("type", VStr "decompose"); ("task", task)]) with
      | (Ok decomposed, s1) =>
          match subtasks_of decomposed task with
          | Ok subtasks =>
              match all_agent_tasks s1 (assign s1 (others_index s1 coord) subtasks) with
              | (Ok results, s2) =>
                  executeAgentTask s2 c
                    (VObj [("type", VStr "synthesize"); ("results", VArr results)])
              | (Throw e, s2) => (Throw e, s2)
              | (Diverges, s2) => (Diverges, s2)
              end
          | Throw e => (Throw e, s1)
          | Diverges => (Diverges, s1)
          end
      | (Throw e, s1) => (Throw e, s1)
      | (Diverges, s1) => (Diverges, s1)
      end
  end.

(** The [switch (swarm.topology)] of [executeTask]; mesh is the default. *)
Definition dispatch (s : Swarm) (mm : ManagerMetrics) (task : value)
  : outcome TaskResult * Swarm * ManagerMetrics :=
  if decide (topology s = HIERARCHICAL) then
    match executeHierarchical s task with
    | (Ok v, s1) => (Ok (agent_result v), s1, mm)
    | (Throw e, s1) => (Throw e, s1, mm)
    | (Diverges, s1) => (Diverges, s1, mm)
    end
  else if decide (topology s = STAR) then
    match executeStar s task with
    | (Ok v, s1) => (Ok (agent_result v), s1, mm)
    | (Throw e, s1) => (Throw e, s1, mm)
    | (Diverges, s1) => (Diverges, s1, mm)
    end
  else
    match executeMesh s mm task with
    | (Ok c, s1, mm1) => (Ok (consensus_result c), s1, mm1)
    | (Throw e, s1, mm1) => (Throw e, s1, mm1)
    | (Diverges, s1, mm1) => (Diverges, s1, mm1)
    end.

(** *** [executeTask(swarmId, task)]

    [startTime] and [endTime] are the two readings of [Date.now()]. *)
Definition executeTask (m : SwarmManager) (swarmId : string) (task : value)
    (startTime endTime : Z) : outcome TaskReport * SwarmManager :=
  match swarms m !! swarmId with
  | None => (Throw (Error ("Swarm not found: " +:+ swarmId)), m)
  | Some swarm =>
      match dispatch (with_swarm_state swarm executing) (metrics m) task with
      | (Ok r, s1, mm1) =>
          (Ok {| success := true; task_result := r; duration := (endTime - startTime)%Z |},
           {| config := config m;
              swarms := <[swarmId :=
                            with_swarm_metrics (with_swarm_state s1 idle) count_swarm_task]>
                          (swarms m);
              metrics := count_task_executed mm1;
              events := events m ++ [task_started swarmId; task_completed swarmId] |})
      | (Throw e, s1, mm1) =>
          (Throw e,
           {| config := config m;
              swarms := <[swarmId := with_swarm_state s1 errored]> (swarms m);
              metrics := mm1;
              events := events m ++ [task_started swarmId; task_failed swarmId] |})
      | (Diverges, s1, mm1) =>
          (Diverges,
           {| config := config m;
              swarms := <[swarmId := s1]> (swarms m);
              metrics := mm1;
              events := events m ++ [task_started swarmId] |})
      end
  end.

(** *** Properties of [achieveConsensus] *)

(** Occurrences of the serialization [k] among the responses. *)
Definition response_count (l : list (option string)) (k : option string) : nat :=
  length (filter (fun k' => k' = k) l).

(** Occurrences of [v] among the results, values being compared by their
    JSON serialization. *)
Definition occurrences (results : list value) (v : value) : nat :=
  length (filter (fun w => JSON_stringify w = JSON_stringify v) results).

Lemma occurrences_response_count results v :
  occurrences results v = response_count (JSON_stringify <$> results) (JSON_stringify v).
Proof.
  unfold occurrences, response_count.
  induction results as [| w results IH]; [reflexivity |].
  rewrite fmap_cons, !filter_cons.
  destruct (decide (JSON_stringify w = JSON_stringify v)); simpl; rewrite IH; reflexivity.
Qed.

Lemma response_count_snoc l x k :
  response_count (l ++ [x]) k = response_count l k + (if decide (x = k) then 1 else 0).
Proof.
  unfold response_count. rewrite filter_app, length_app, filter_cons, filter_nil.
  destruct (decide (x = k)); reflexivity.
Qed.

Lemma response_count_pos l k : k ∈ l -> 0 < response_count l k.
Proof.
  unfold response_count. intros Hin.
  assert (k ∈ filter (fun k' => k' = k) l) as Hf by (apply list_elem_of_filter; auto).
  destruct (filter (fun k' => k' = k) l); [inversion Hf | simpl; lia].
Qed.

Section Counting.
Context {K : Type} `{EqDecision K}.

Lemma get_keyed (f : K -> nat) (ks : list K) (x : K) :
  JsMap.get ((fun k => (k, f k)) <$> ks) x = if decide (x ∈ ks) then Some (f x) else None.
Proof.
  induction ks as [| k ks IH].
  - rewrite decide_False; [reflexivity | apply not_elem_of_nil].
  - rewrite fmap_cons. cbn [JsMap.get].
    destruct (decide (k = x)) as [-> | Hne].
    + rewrite decide_True by left. reflexivity.
    + rewrite IH. destruct (decide (x ∈ ks)) as [Hin | Hn].
      * rewrite decide_True by (right; assumption). reflexivity.
      * rewrite decide_False; [reflexivity |].
        intros H. apply elem_of_cons in H. naive_solver.
Qed.

Lemma set_keyed_in (f : K -> nat) (ks : list K) (x : K) (v : nat) :
  NoDup ks -> x ∈ ks ->
  JsMap.set ((fun k => (k, f k)) <$> ks) x v
  = (fun k => (k, if decide (k = x) then v else f k)) <$> ks.
Proof.
  induction ks as [| k ks IH]; intros Hnd Hin; [inversion Hin |].
  apply NoDup_cons in Hnd as [Hk Hnd]. simpl.
  destruct (decide (k = x)) as [-> | Hne].
  - f_equal. apply list_fmap_ext. intros i y Hy.
    rewrite decide_False; [reflexivity |].
    intros ->. apply Hk. apply list_elem_of_lookup. eauto.
  - f_equal. apply IH; [assumption |]. apply elem_of_cons in Hin. naive_solver.
Qed.

Lemma set_keyed_notin (f : K -> nat) (ks : list K) (x : K) (v : nat) :
  x ∉ ks ->
  JsMap.set ((fun k => (k, f k)) <$> ks) x v = ((fun k => (k, f k)) <$> ks) ++ [(x, v)].
Proof.
  induction ks as [| k ks IH]; intros Hn; simpl; [reflexivity |].
  apply not_elem_of_cons in Hn as [Hne Hn].
  rewrite decide_False by congruence. f_equal. apply IH, Hn.
Qed.

Lemma find_snoc (P : K -> bool) (l : list K) (x : K) :
  List.find P (l ++ [x])
  = match List.find P l with Some y => Some y | None => if P x then Some x else None end.
Proof.
  induction l as [| y l IH]; simpl; [reflexivity |].
  destruct (P y); [reflexivity | apply IH].
Qed.

Lemma find_None_elem (P : K -> bool) (l : list K) (x : K) :
  List.find P l = None -> x ∈ l -> P x = false.
Proof.
  intros Hf Hin. apply (List.find_none P l Hf). apply list_elem_of_In, Hin.
Qed.

(** The first element satisfying [P] splits the list. *)
Lemma find_Some_split (P : K -> bool) (l : list K) (x : K) :
  List.find P l = Some x ->
  exists l1 l2, l = l1 ++ x :: l2 /\ P x = true /\ forall y, y ∈ l1 -> P y = false.
Proof.
  induction l as [| y l IH]; simpl; [discriminate |].
  destruct (P y) eqn:Hy.
  - intros [= ->]. exists [], l. split; [reflexivity |]. split; [assumption |].
    intros z Hz. inversion Hz.
  - intros Hf. destruct (IH Hf) as (l1 & l2 & -> & Hx & Hl1).
    exists (y :: l1), l2. split; [reflexivity |]. split; [assumption |].
    intros z Hz. apply elem_of_cons in Hz as [-> | Hz]; auto.
Qed.
End Counting.

(** The map built by the counting loop: one entry per distinct response,
    in order of first occurrence, holding its number of occurrences. *)
Lemma tally_entries (l : list (option string)) :
  exists ks,
    fold_left tally l JsMap.empty = (fun k => (k, response_count l k)) <$> ks
    /\ NoDup ks
    /\ (forall k, k ∈ ks <-> k ∈ l)
    /\ (forall P : option string -> bool, List.find P ks = List.find P l).
Proof.
  induction l as [| x l IH] using rev_ind.
  - exists []. repeat split; try reflexivity; try apply NoDup_nil_2; auto.
  - destruct IH as (ks & Hm & Hnd & Hin & Hfind).
    rewrite fold_left_app. simpl. rewrite Hm. unfold tally at 1. rewrite get_keyed.
    destruct (decide (x ∈ ks)) as [Hx | Hx]; simpl.
    + exists ks. split; [| split; [assumption | split]].
      * rewrite set_keyed_in by assumption. apply list_fmap_ext. intros i k Hk.
        rewrite response_count_snoc.
        destruct (decide (k = x)) as [-> | Hne].
        -- rewrite decide_True by reflexivity. reflexivity.
        -- rewrite decide_False by congruence. f_equal. lia.
      * intros k. rewrite elem_of_app, list_elem_of_singleton, Hin.
        split; [auto |]. intros [H | ->]; [assumption | apply Hin, Hx].
      * intros P. rewrite find_snoc, Hfind.
        destruct (List.find P l) eqn:Hf; [reflexivity |].
        rewrite (find_None_elem P l x Hf); [reflexivity | apply Hin, Hx].
    + exists (ks ++ [x]). split; [| split; [| split]].
      * rewrite set_keyed_notin by assumption. rewrite fmap_app. simpl. f_equal.
        -- apply list_fmap_ext. intros i k Hk. rewrite response_count_snoc.
           rewrite decide_False; [f_equal; lia |].
           intros ->. apply Hx. apply list_elem_of_lookup. eauto.
        -- rewrite response_count_snoc, decide_True by reflexivity.
           assert (response_count l x = 0) as ->; [| reflexivity].
           unfold response_count.
           destruct (filter (fun k' => k' = x) l) as [| y t] eqn:Hf; [reflexivity |].
           exfalso. apply Hx, Hin.
           assert (y ∈ filter (fun k' => k' = x) l) as Hy by (rewrite Hf; left).
           apply list_elem_of_filter in Hy as [-> Hy]. assumption.
      * apply NoDup_app. split; [assumption |]. split; [| apply NoDup_singleton].
        intros y Hy Hy'. apply list_elem_of_singleton in Hy'. congruence.
      * intros k. rewrite !elem_of_app, !list_elem_of_singleton, Hin. reflexivity.
      * intros P. rewrite !find_snoc, Hfind. reflexivity.
Qed.

(** The scan for the largest count keeps the first entry that attains it. *)
Lemma take_larger_scan (f : option string -> nat) (ks : list (option string)) :
  forall maxCount consensusValue,
    exists cv,
      fold_left take_larger ((fun k => (k, f k)) <$> ks) (maxCount, consensusValue)
      = (Nat.max maxCount (max_list (f <$> ks)), cv)
      /\ (Nat.max maxCount (max_list (f <$> ks)) = maxCount -> cv = consensusValue)
      /\ (Nat.max maxCount (max_list (f <$> ks)) <> maxCount ->
          exists k, cv = Some k
                    /\ List.find (fun k => Nat.eqb (f k) (Nat.max maxCount (max_list (f <$> ks)))) ks
                       = Some k).
Proof.
  induction ks as [| k ks IH]; intros maxCount consensusValue.
  - exists consensusValue. simpl. rewrite Nat.max_0_r.
    split; [reflexivity |]. split; [auto | congruence].
  - rewrite !fmap_cons.
    change (max_list (f k :: (f <$> ks))) with (Nat.max (f k) (max_list (f <$> ks))).
    set (X := max_list (f <$> ks)) in *. set (es := (fun k => (k, f k)) <$> ks) in *.
    cbn [fold_left List.find]. unfold take_larger at 2.
    destruct (decide (maxCount < f k)) as [Hlt | Hge].
    + destruct (IH (f k) (Some k)) as (cv & Hscan & Hsame & Hdiff).
      exists cv. rewrite (Nat.max_r maxCount _) by lia.
      split; [assumption |]. split; [lia |]. intros _.
      destruct (decide (Nat.max (f k) X = f k)) as [He | Hne].
      * exists k. split; [auto |]. rewrite He, Nat.eqb_refl. reflexivity.
      * destruct (Hdiff Hne) as (k' & -> & Hk'). exists k'. split; [reflexivity |].
        destruct (Nat.eqb_spec (f k) (Nat.max (f k) X)); [lia | assumption].
    + destruct (IH maxCount consensusValue) as (cv & Hscan & Hsame & Hdiff).
      exists cv. rewrite Nat.max_assoc, (Nat.max_l maxCount (f k)) by lia.
      split; [assumption |]. split; [assumption |]. intros Hne.
      destruct (Hdiff Hne) as (k' & -> & Hk'). exists k'. split; [reflexivity |].
      destruct (Nat.eqb_spec (f k) (Nat.max maxCount X)); [lia | assumption].
Qed.

(** What the two loops of [achieveConsensus] compute, on the serialized
    responses. *)
Lemma achieveConsensus_scan results threshold :
  results <> [] ->
  exists k,
    result (achieveConsensus results threshold) = parse_consensus (Some k)
    /\ List.find (fun k' => Nat.eqb (response_count (JSON_stringify <$> results) k')
                              (votes (achieveConsensus results threshold)))
         (JSON_stringify <$> results) = Some k
    /\ (forall k', k' ∈ JSON_stringify <$> results ->
          response_count (JSON_stringify <$> results) k'
          <= votes (achieveConsensus results threshold)).
Proof.
  intros Hne. unfold achieveConsensus.
  set (responses := JSON_stringify <$> results).
  destruct (tally_entries responses) as (ks & Hm & Hnd & Hin & Hfind).
  unfold JsMap.entries. rewrite Hm.
  destruct (take_larger_scan (response_count responses) ks 0 None) as (cv & Hscan & _ & Hdiff).
  rewrite Hscan. rewrite Nat.max_0_l in *. simpl.
  assert (forall k', k' ∈ responses ->
            response_count responses k' <= max_list (response_count responses <$> ks)) as Hmax.
  { intros k' Hk'. apply max_list_elem_of_le. apply list_elem_of_fmap.
    exists k'. split; [reflexivity | apply Hin, Hk']. }
  assert (max_list (response_count responses <$> ks) <> 0) as Hpos.
  { destruct results as [| v results]; [congruence |].
    assert (JSON_stringify v ∈ responses) as Hv by (unfold responses; rewrite fmap_cons; left).
    pose proof (Hmax _ Hv). pose proof (response_count_pos _ _ Hv). lia. }
  destruct (Hdiff Hpos) as (k & -> & Hk).
  exists k. split; [reflexivity |]. split; [| assumption].
  rewrite <- Hfind. assumption.
Qed.

(** [JSON.parse(JSON.stringify(v))] gives [v] back, from a text that is not
    empty: [v] is a JSON value. *)
Definition serializable (v : value) : Prop :=
  exists text, JSON_stringify v = Some text /\ text <> EmptyString /\ JSON_parse text = v.

(** C1: for every non-empty list of results and every threshold,
    [achieveConsensus] returns [votes] equal to the largest number of
    occurrences of a value (values compared by their JSON serialization),
    [confidence] equal to [votes / results.length], [achieved] equal to
    [confidence >= threshold], and as [result] the first value in list order
    whose number of occurrences is that maximum (read back from its JSON
    text); three results split two to one do not reach the threshold 0.7. *)
Theorem achieveConsensus_plurality (results : list value) (threshold : spec_float) :
  results <> [] ->
  (forall v, v ∈ results -> occurrences results v <= votes (achieveConsensus results threshold))
  /\ (exists before first after,
        results = before ++ first :: after
        /\ occurrences results first = votes (achieveConsensus results threshold)
        /\ (forall w, w ∈ before ->
              occurrences results w < votes (achieveConsensus results threshold))
        /\ result (achieveConsensus results threshold)
           = parse_consensus (Some (JSON_stringify first))
        /\ (serializable first -> result (achieveConsensus results threshold) = first))
  /\ confidence (achieveConsensus results threshold)
     = number_div (number (votes (achieveConsensus results threshold)))
                  (number (length results))
  /\ achieved (achieveConsensus results threshold)
     = number_ge (confidence (achieveConsensus results threshold)) threshold
  /\ total (achieveConsensus results threshold) = length results
  /\ (threshold = seven_tenths -> length results = 3 ->
      votes (achieveConsensus results threshold) = 2 ->
      achieved (achieveConsensus results threshold) = false).
Proof.
  intros Hne.
  destruct (achieveConsensus_scan results threshold Hne) as (k & Hres & Hfind & Hmax).
  assert (forall v, v ∈ results ->
            occurrences results v <= votes (achieveConsensus results threshold)) as Hle.
  { intros v Hv. rewrite occurrences_response_count. apply Hmax.
    apply list_elem_of_fmap. eauto. }
  assert (confidence (achieveConsensus results threshold)
          = number_div (number (votes (achieveConsensus results threshold)))
              (number (length results))
          /\ achieved (achieveConsensus results threshold)
             = number_ge (confidence (achieveConsensus results threshold)) threshold
          /\ total (achieveConsensus results threshold) = length results) as (Hc & Ha & Ht).
  { unfold achieveConsensus.
    destruct (fold_left take_larger _ _) as [maxCount consensusValue]. simpl. auto. }
  split; [assumption |]. split; [| split; [assumption | split; [assumption | split; [assumption |]]]].
  - apply find_Some_split in Hfind as (r1 & r2 & Hsplit & Hk & Hr1).
    apply fmap_app_inv in Hsplit as (before & rest & -> & Hrest & ->).
    symmetry in Hrest. apply fmap_cons_inv in Hrest as (first & after & -> & -> & ->).
    exists before, first, after. split; [reflexivity |].
    apply Nat.eqb_eq in Hk. rewrite <- occurrences_response_count in Hk.
    split; [assumption |]. split; [| split; [assumption |]].
    + intros w Hw.
      assert (w ∈ before ++ first :: after) as Hw' by (apply elem_of_app; auto).
      pose proof (Hle w Hw') as Hwle.
      assert (JSON_stringify w ∈ JSON_stringify <$> before) as Hsw
        by (apply list_elem_of_fmap; eauto).
      pose proof (Hr1 _ Hsw) as Hneq. apply Nat.eqb_neq in Hneq.
      rewrite <- occurrences_response_count in Hneq. lia.
    + intros (text & Htext & Hnonempty & Hparse). rewrite Hres.
      unfold parse_consensus. rewrite Htext, decide_False by assumption. assumption.
  - intros -> Hlen Hvotes. rewrite Ha, Hc, Hvotes, Hlen. reflexivity.
Qed.

(** *** Properties of the dispatch *)

(** The answer [executeAgentTask] gives for [agents[i]] as the roster stands. *)
Definition answer_at (s : Swarm) (call : nat * value) : value :=
  match agents s !! call.1 with
  | Some agent => agent_answer agent call.2
  | None => VUndefined
  end.




Lemma hub_index_valid (s : Swarm) h hub :
  hub_index s = Some (h, hub) -> agents s !! h = Some hub.
Proof.
  unfold hub_index. destruct (list_find _ (agents s)) as [[h' hub'] |] eqn:Hfind.
  - intros [= -> ->]. apply list_find_Some in Hfind. tauto.
  - destruct (agents s) as [| a l]; [discriminate |]. intros [= <- <-]. reflexivity.
Qed.

Lemma others_index_valid (s : Swarm) (hub : Agent) i :
  i ∈ others_index s hub -> i < length (agents s).
Proof.
  unfold others_index. intros Hi. apply list_elem_of_In, List.filter_In in Hi as [Hi _].
  apply List.in_seq in Hi. lia.
Qed.


(** *** What a dispatch does to the roster *)

(** The agent after one call of [executeAgentTask]: one more task counted,
    and [state] back to 'ready'. *)
Definition after_task (a : Agent) : Agent := with_agent_state (count_task a) ready.

(** Calls on distinct agents of the roster leave each called agent one
    task further and the others as they were. *)
Lemma all_agent_tasks_roster (calls : list (nat * value)) : forall s,
  NoDup calls.*1 ->
  (forall call, call ∈ calls -> call.1 < length (agents s)) ->
  exists s',
    all_agent_tasks s calls = (Ok (answer_at s <$> calls), s')
    /\ agents s' = imap (fun i a => if decide (i ∈ calls.*1) then after_task a else a) (agents s)
    /\ s' = with_agents s (agents s').
Proof using Type.
  induction calls as [| [i task] calls IH]; intros s Hnd Hvalid.
  - exists s. simpl. split; [reflexivity |]. split; [| destruct s; reflexivity].
    apply list_eq. intros j. rewrite list_lookup_imap.
    destruct (agents s !! j); reflexivity.
  - rewrite fmap_cons in Hnd. apply NoDup_cons in Hnd as [Hi Hnd].
    assert (i < length (agents s)) as Hlt by (apply (Hvalid (i, task)); left).
    destruct (lookup_lt_is_Some_2 _ _ Hlt) as [agent Hagent].
    cbn [all_agent_tasks]. unfold executeAgentTask. rewrite Hagent.
    fold (after_task agent).
    set (s1 := with_agents s (<[i := after_task agent]> (agents s))).
    assert (length (agents s1) = length (agents s)) as Hlen1
      by (unfold s1; simpl; apply length_insert).
    destruct (IH s1 Hnd) as (s' & Hrun & Hagents & Hs').
    { intros call Hcall. rewrite Hlen1. apply Hvalid. right. assumption. }
    assert (answer_at s1 <$> calls = answer_at s <$> calls) as Hsame.
    { apply list_fmap_ext. intros n [j t] Hj. unfold answer_at, s1. simpl.
      rewrite list_lookup_insert_ne; [reflexivity |].
      intros ->. apply Hi. apply list_elem_of_fmap. exists (j, t). split; [reflexivity |].
      apply list_elem_of_lookup. eauto. }
    assert (answer_at s (i, task) = agent_answer agent task) as Hfirst
      by (unfold answer_at; simpl; rewrite Hagent; reflexivity).
    exists s'. rewrite Hrun, fmap_cons, Hfirst, Hsame.
    split; [reflexivity |]. split; [| rewrite Hs' at 1; reflexivity].
    rewrite Hagents. apply list_eq. intros j. rewrite !list_lookup_imap. unfold s1. simpl.
    destruct (decide (j = i)) as [-> | Hne].
    + rewrite list_lookup_insert_eq by assumption. rewrite Hagent. simpl.
      rewrite decide_False by assumption. rewrite decide_True by left. reflexivity.
    + rewrite list_lookup_insert_ne by congruence.
      destruct (agents s !! j) as [b |]; [| reflexivity]. simpl.
      destruct (decide (j ∈ calls.*1)) as [Hin | Hout].
      * rewrite decide_True by (right; assumption). reflexivity.
      * rewrite decide_False; [reflexivity |]. intros H.
        apply elem_of_cons in H as [H | H]; [apply Hne, H | apply Hout, H].
Qed.

Lemma roster_calls_NoDup (indices : list nat) (task : value) :
  NoDup indices -> NoDup ((fun i => (i, task)) <$> indices).*1.
Proof using Type.
  intros Hnd. rewrite <- list_fmap_compose. rewrite (list_fmap_ext _ id indices).
  - rewrite list_fmap_id. assumption.
  - intros; reflexivity.
Qed.

Lemma roster_calls_indices (indices : list nat) (task : value) :
  ((fun i => (i, task)) <$> indices).*1 = indices.
Proof using Type.
  rewrite <- list_fmap_compose. rewrite (list_fmap_ext _ id indices); [apply list_fmap_id |].
  intros; reflexivity.
Qed.

(** X10: a mesh dispatch runs the task once on every agent.  [executeTask]
    on a swarm whose topology is neither 'hierarchical' nor 'star' returns
    its report with the measured duration; in the registry every agent has
    one more task counted and is 'ready' again, the swarm is 'idle' with
    one more task completed, the manager has one more task executed, and
    the events are 'task-started' and 'task-completed'. *)
Theorem executeTask_mesh_runs_every_agent_once (m : SwarmManager) (swarmId : string)
    (swarm : Swarm) (task : value) (startTime endTime : Z) :
  swarms m !! swarmId = Some swarm ->
  topology swarm <> HIERARCHICAL ->
  topology swarm <> STAR ->
  exists report m' swarm',
    executeTask m swarmId task startTime endTime = (Ok report, m')
    /\ duration report = (endTime - startTime)%Z
    /\ swarms m' !! swarmId = Some swarm'
    /\ agents swarm' = after_task <$> agents swarm
    /\ swarm_state swarm' = idle
    /\ tasksCompleted (swarm_metrics swarm') = S (tasksCompleted (swarm_metrics swarm))
    /\ tasksExecuted (metrics m') = S (tasksExecuted (metrics m))
    /\ events m' = events m ++ [task_started swarmId; task_completed swarmId].
Proof.
  intros Hswarm Hh Hs. unfold executeTask, dispatch. rewrite Hswarm. simpl.
  rewrite !decide_False by assumption. unfold executeMesh.
  set (s0 := with_swarm_state swarm executing).
  destruct (all_agent_tasks_roster ((fun i => (i, task)) <$> seq 0 (length (agents s0))) s0)
    as (s1 & Hrun & Hagents & Hs1).
  { apply roster_calls_NoDup, NoDup_seq. }
  { intros call Hcall. apply list_elem_of_fmap in Hcall as (i & -> & Hi).
    apply elem_of_seq in Hi. unfold s0 in Hi |- *. simpl in Hi |- *. lia. }
  rewrite Hrun.
  assert (agents s1 = after_task <$> agents swarm) as Hroster.
  { rewrite Hagents, roster_calls_indices. apply list_eq. intros j.
    rewrite list_lookup_imap, list_lookup_fmap. unfold s0. simpl.
    destruct (agents swarm !! j) as [b |] eqn:Hb; [| reflexivity]. simpl.
    rewrite decide_True; [reflexivity |]. apply elem_of_seq.
    apply lookup_lt_Some in Hb. lia. }
  destruct (achieved _); eexists _, _, _; (split; [reflexivity |]);
    (split; [reflexivity |]); cbn [swarms metrics events];
    (split; [apply lookup_insert_eq |]); rewrite Hs1; cbn; rewrite Hroster; repeat split.
Qed.

(** The spokes of a star with distinct ids are all agents but the hub. *)
Lemma others_index_spec (s : Swarm) (h : nat) (hub : Agent) :
  NoDup (agent_id <$> agents s) -> agents s !! h = Some hub ->
  forall i, i ∈ others_index s hub <-> i < length (agents s) /\ i <> h.
Proof using Type.
  intros Hnd Hh i. unfold others_index.
  rewrite list_elem_of_In, List.filter_In, List.in_seq. split.
  - intros [Hi Hcond]. split; [lia |]. intros ->. rewrite Hh in Hcond.
    apply bool_decide_eq_true in Hcond. apply Hcond. reflexivity.
  - intros [Hi Hne]. split; [lia |].
    destruct (lookup_lt_is_Some_2 _ _ Hi) as [a Ha]. rewrite Ha.
    apply bool_decide_eq_true. intros Heq. apply Hne.
    apply (NoDup_lookup _ i h (agent_id a) Hnd).
    + rewrite list_lookup_fmap, Ha. reflexivity.
    + rewrite list_lookup_fmap, Hh, Heq. reflexivity.
Qed.

Lemma others_index_answers (s : Swarm) (hub : Agent) (task : value) :
  answer_at s <$> ((fun i => (i, task)) <$> others_index s hub)
  = (fun a => agent_answer a task) <$> filter (fun a => agent_id a <> agent_id hub) (agents s).
Proof using Type.
  unfold others_index. rewrite <- list_fmap_compose.
  assert (forall (l : list Agent) (k : nat),
            (forall j a, l !! j = Some a -> agents s !! (k + j) = Some a) ->
            (answer_at s ∘ (fun i => (i, task)))
              <$> List.filter (fun i => match agents s !! i with
                                        | Some a => bool_decide (agent_id a <> agent_id hub)
                                        | None => false
                                        end) (seq k (length l))
            = (fun a => agent_answer a task)
                <$> filter (fun a => agent_id a <> agent_id hub) l) as Hgen.
  { intros l. induction l as [| a l IH]; intros k Hl; [reflexivity |].
    cbn [length seq List.filter]. pose proof (Hl 0 a eq_refl) as Ha.
    rewrite Nat.add_0_r in Ha. rewrite Ha. rewrite filter_cons.
    assert (forall j b, l !! j = Some b -> agents s !! (S k + j) = Some b) as Hl'.
    { intros j b Hb. replace (S k + j) with (k + S j) by lia. apply Hl. assumption. }
    destruct (decide (agent_id a <> agent_id hub)) as [Hne | Heq].
    - rewrite bool_decide_eq_true_2 by assumption. rewrite !fmap_cons.
      rewrite (IH (S k) Hl'). unfold answer_at at 1. simpl. rewrite Ha. reflexivity.
    - rewrite bool_decide_eq_false_2 by assumption. apply (IH (S k) Hl'). }
  apply (Hgen (agents s) 0). intros j a Ha. assumption.
Qed.

(** X11: a star dispatch runs the task once on every spoke and then hands
    the hub their answers, in roster order, in one 'aggregate' task: with
    distinct ids every agent ends one task further, and the dispatch
    returns what the hub answers to the aggregate. *)
Theorem executeStar_aggregates_spokes (s : Swarm) (h : nat) (hub : Agent) (task : value) :
  NoDup (agent_id <$> agents s) ->
  hub_index s = Some (h, hub) ->
  exists s',
    executeStar s task
    = (Ok (agent_answer hub
             (VObj [("type", VStr "aggregate");
                    ("results",
                     VArr ((fun a => agent_answer a task)
                             <$> filter (fun a => agent_id a <> agent_id hub) (agents s)))])),
       s')
    /\ agents s' = after_task <$> agents s.
Proof using Type.
  intros Hnd Hhub. pose proof (hub_index_valid s h hub Hhub) as Hh.
  pose proof (others_index_spec s h hub Hnd Hh) as Hothers.
  unfold executeStar. rewrite Hhub.
  destruct (all_agent_tasks_roster ((fun i => (i, task)) <$> others_index s hub) s)
    as (s1 & Hrun & Hagents & Hs1).
  { apply roster_calls_NoDup. unfold others_index. apply NoDup_ListNoDup.
    apply List.NoDup_filter, List.seq_NoDup. }
  { intros call Hcall. apply list_elem_of_fmap in Hcall as (i & -> & Hi).
    simpl. apply (others_index_valid s hub i Hi). }
  rewrite Hrun, others_index_answers. rewrite roster_calls_indices in Hagents.
  assert (agents s1 !! h = Some hub) as Hh1.
  { rewrite Hagents, list_lookup_imap, Hh. simpl.
    rewrite decide_False; [reflexivity |]. intros Hin. apply Hothers in Hin as [_ Hin].
    apply Hin. reflexivity. }
  unfold executeAgentTask. rewrite Hh1. fold (after_task hub).
  eexists. split; [reflexivity |]. simpl. rewrite Hagents.
  apply list_eq. intros j. rewrite list_lookup_fmap.
  destruct (decide (j = h)) as [-> | Hne].
  - rewrite list_lookup_insert_eq by (rewrite length_imap; apply lookup_lt_Some in Hh; assumption).
    rewrite Hh. reflexivity.
  - rewrite list_lookup_insert_ne by congruence. rewrite list_lookup_imap.
    destruct (agents s !! j) as [b |] eqn:Hb; [| reflexivity]. simpl.
    rewrite decide_True; [reflexivity |]. apply Hothers. split; [| assumption].
    apply lookup_lt_Some in Hb. assumption.
Qed.

(** The first task of a hierarchical dispatch, given to the coordinator. *)
Definition decompose (task : value) : value :=
  VObj [("type", VStr "decompose"); ("task", task)].

(** X12: a hierarchical dispatch needs a worker.  In a swarm of one agent
    that agent is the coordinator and there is no worker: as soon as the
    decomposition yields a subtask (the task itself, when the coordinator's
    answer has no [subtasks]), the subtask is handed to [undefined],
    [executeTask] throws the TypeError of [agent.state = 'busy'], the swarm
    is left in state 'error', and the task is not counted as executed. *)
Theorem executeHierarchical_needs_workers (m : SwarmManager) (swarmId : string)
    (swarm : Swarm) (a : Agent) (task : value) (subtasks : list value)
    (startTime endTime : Z) :
  swarms m !! swarmId = Some swarm ->
  topology swarm = HIERARCHICAL ->
  agents swarm = [a] ->
  subtasks_of (agent_answer a (decompose task)) task = Ok subtasks ->
  subtasks <> [] ->
  exists m' swarm',
    executeTask m swarmId task startTime endTime
    = (Throw (Error "Cannot set properties of undefined (setting 'state')"), m')
    /\ swarms m' !! swarmId = Some swarm'
    /\ swarm_state swarm' = errored
    /\ tasksExecuted (metrics m') = tasksExecuted (metrics m)
    /\ events m' = events m ++ [task_started swarmId; task_failed swarmId].
Proof.
  intros Hswarm Htop Hagents Hsub Hne.
  unfold executeTask, dispatch. rewrite Hswarm. cbn [topology with_swarm_state].
  rewrite decide_True by assumption.
  assert (exists s', executeHierarchical (with_swarm_state swarm executing) task
                     = (Throw (Error "Cannot set properties of undefined (setting 'state')"), s'))
    as [s' Hrun].
  { unfold executeHierarchical.
    assert (hub_index (with_swarm_state swarm executing) = Some (0, a)) as ->.
    { unfold hub_index. cbn [agents coordinator with_swarm_state]. rewrite Hagents.
      cbn [list_find]. destruct (decide (Some (agent_id a) = coordinator swarm)); reflexivity. }
    unfold executeAgentTask at 1. cbn [agents with_swarm_state]. rewrite Hagents.
    cbn [lookup list_lookup]. fold (decompose task). rewrite Hsub.
    cbn [agents with_agents with_swarm_state list_insert insert].
    set (s1 := with_agents (with_swarm_state swarm executing) _).
    assert (others_index s1 a = []) as ->.
    { unfold others_index, s1. cbn [agents with_agents length seq List.filter lookup list_lookup].
      rewrite bool_decide_eq_false_2; [reflexivity |]. intros H. apply H. reflexivity. }
    destruct subtasks as [| subtask rest]; [congruence |].
    unfold assign. cbn [imap lookup list_lookup default]. cbn [all_agent_tasks].
    unfold executeAgentTask at 1. unfold s1 at 1 2.
    cbn [agents with_agents length lookup list_lookup default].
    eexists. reflexivity. }
  rewrite Hrun. eexists _, _. split; [reflexivity |]. cbn [swarms metrics events].
  split; [apply lookup_insert_eq |]. repeat split.
Qed.

(** *** The verdict of [achieveConsensus] and the order of the results *)

Lemma response_count_Permutation (l l' : list (option string)) (k : option string) :
  l ≡ₚ l' -> response_count l k = response_count l' k.
Proof using Type.
  intros Hperm. unfold response_count. apply Permutation_length.
  apply filter_Permutation. assumption.
Qed.

(** [votes] is the largest number of occurrences, and some response has it. *)
Lemma achieveConsensus_votes results threshold :
  results <> [] ->
  (exists k, k ∈ JSON_stringify <$> results
             /\ response_count (JSON_stringify <$> results) k
                = votes (achieveConsensus results threshold))
  /\ (forall k, k ∈ JSON_stringify <$> results ->
        response_count (JSON_stringify <$> results) k
        <= votes (achieveConsensus results threshold)).
Proof using Type.
  intros Hne. destruct (achieveConsensus_scan results threshold Hne) as (k & _ & Hfind & Hmax).
  split; [| assumption]. exists k. apply List.find_some in Hfind as [Hin Heq].
  split; [apply list_elem_of_In; assumption | apply Nat.eqb_eq; assumption].
Qed.

Lemma achieveConsensus_fields results threshold :
  confidence (achieveConsensus results threshold)
  = number_div (number (votes (achieveConsensus results threshold))) (number (length results))
  /\ achieved (achieveConsensus results threshold)
     = number_ge (confidence (achieveConsensus results threshold)) threshold
  /\ total (achieveConsensus results threshold) = length results.
Proof using Type.
  unfold achieveConsensus.
  destruct (fold_left take_larger _ _) as [maxCount consensusValue]. simpl. auto.
Qed.

(** X23: the verdict of [achieveConsensus] does not depend on the order of
    the results: two lists that are permutations of each other get the same
    [votes], [total], [confidence] and [achieved] (only the value reported
    in a tie depends on the order). *)
Theorem achieveConsensus_order_independent (results results' : list value)
    (threshold : spec_float) :
  results ≡ₚ results' ->
  votes (achieveConsensus results threshold) = votes (achieveConsensus results' threshold)
  /\ total (achieveConsensus results threshold) = total (achieveConsensus results' threshold)
  /\ confidence (achieveConsensus results threshold)
     = confidence (achieveConsensus results' threshold)
  /\ achieved (achieveConsensus results threshold)
     = achieved (achieveConsensus results' threshold).
Proof using Type.
  intros Hperm.
  assert (votes (achieveConsensus results threshold)
          = votes (achieveConsensus results' threshold)) as Hvotes.
  { destruct results as [| v results].
    - apply Permutation_nil_l in Hperm. subst results'. reflexivity.
    - assert (results' <> []) as Hne'
        by (intros ->; apply Permutation_nil_r in Hperm; discriminate).
      assert (JSON_stringify <$> v :: results ≡ₚ JSON_stringify <$> results') as Hp
        by (apply fmap_Permutation; assumption).
      destruct (achieveConsensus_votes (v :: results) threshold) as [(k & Hk & Hkv) Hmax];
        [discriminate |].
      destruct (achieveConsensus_votes results' threshold Hne') as [(k' & Hk' & Hkv') Hmax'].
      apply Nat.le_antisymm.
      + rewrite <- Hkv, (response_count_Permutation _ _ k Hp). apply Hmax'.
        rewrite <- Hp. assumption.
      + rewrite <- Hkv', <- (response_count_Permutation _ _ k' Hp). apply Hmax.
        rewrite Hp. assumption. }
  destruct (achieveConsensus_fields results threshold) as (Hc & Ha & Ht).
  destruct (achieveConsensus_fields results' threshold) as (Hc' & Ha' & Ht').
  assert (length results = length results') as Hlen by (apply Permutation_length; assumption).
  split; [assumption |]. split; [congruence |].
  assert (confidence (achieveConsensus results threshold)
          = confidence (achieveConsensus results' threshold)) as Hconf
    by (rewrite Hc, Hc', Hvotes, Hlen; reflexivity).
  split; [assumption |]. rewrite Ha, Ha', Hconf. reflexivity.
Qed.

End Dispatch.

(** *** Properties of the roster operations *)

Lemma add_role_connections swarmId random roles : forall roster coord draws,
  Forall (fun a => connections a = []) roster ->
  Forall (fun a => connections a = [])
    (fold_left (add_role swarmId random) roles (roster, coord, draws)).1.1.
Proof.
  induction roles as [| r roles IH]; intros roster coord draws Hall; simpl; [assumption |].
  apply IH. apply Forall_app. split; [assumption |]. apply Forall_singleton. reflexivity.
Qed.

(** C6 does not hold of [createSwarm]: it builds the roster and never calls
    [updateTopologyConnections] (only [addAgent] does); whatever the
    topology and the roles, every agent of the created swarm has no
    connection at all. *)
Theorem createSwarm_leaves_connections_empty (m : SwarmManager) (now iso : string)
    (random : nat -> string) (spec : SwarmSpec) :
  Forall (fun a => connections a = []) (agents (createSwarm m now iso random spec).1).
Proof.
  unfold createSwarm.
  destruct (match spec_id spec with
            | Some s => _
            | None => _
            end) as [swarmId draws].
  pose proof (add_role_connections swarmId random (default [] (spec_roles spec))
                [] None draws (Forall_nil_2 _)) as Hall.
  destruct (fold_left _ _ _) as [[roster coord] n]. simpl in *. assumption.
Qed.

(** A successful [addAgent] leaves in the registry the roster with the new
    agent, recomputed by [updateTopologyConnections]. *)
Lemma addAgent_recomputes_connections (m m' : SwarmManager) (swarmId : string)
    (agentSpec : Role) (rnd : string) (swarm : Swarm) (agent : Agent) :
  swarms m !! swarmId = Some swarm ->
  addAgent m swarmId agentSpec rnd = (Ok agent, m') ->
  swarms m' !! swarmId
  = Some (updateTopologyConnections
            (with_agents swarm (agents swarm ++ [createSwarmAgent swarmId agentSpec rnd]))).
Proof.
  intros Hswarm. unfold addAgent. rewrite Hswarm.
  destruct (decide (maxAgents (swarm_config swarm) <= length (agents swarm)));
    [discriminate |].
  intros [= _ <-]. simpl. apply lookup_insert_eq.
Qed.

Lemma updateTopologyConnections_ring (s : Swarm) :
  topology s = RING -> agents (updateTopologyConnections s) = ring_connections (agents s).
Proof.
  intros Htop. unfold updateTopologyConnections. rewrite Htop.
  repeat (rewrite decide_False by discriminate). rewrite decide_True by reflexivity.
  reflexivity.
Qed.

Lemma id_at_inside (roster : list Agent) (j : Z) (a : Agent) :
  (0 <= j)%Z -> roster !! Z.to_nat j = Some a -> id_at roster j = [agent_id a].
Proof.
  intros Hj Ha. unfold id_at. destruct (Z.ltb_spec j 0); [lia |]. rewrite Ha. reflexivity.
Qed.

(** C7: in a ring of n >= 1 agents, after [updateTopologyConnections] the
    agent at index i is connected to the agents at indices (i-1) mod n and
    (i+1) mod n and to no other: its [connections] are exactly the ids of
    these two agents (the same id twice when n is 1 or 2, where the two
    indices coincide). *)
Theorem ring_connects_neighbours_only (s : Swarm) (i : nat) (a : Agent) :
  topology s = RING ->
  agents (updateTopologyConnections s) !! i = Some a ->
  exists p q,
    agents s !! Z.to_nat ((Z.of_nat i - 1) mod Z.of_nat (length (agents s))) = Some p
    /\ agents s !! Z.to_nat ((Z.of_nat i + 1) mod Z.of_nat (length (agents s))) = Some q
    /\ connections a = [agent_id p; agent_id q]
    /\ (forall j b, agents s !! j = Some b -> NoDup (agent_id <$> agents s) ->
          (agent_id b ∈ connections a
           <-> j = Z.to_nat ((Z.of_nat i - 1) mod Z.of_nat (length (agents s)))
               \/ j = Z.to_nat ((Z.of_nat i + 1) mod Z.of_nat (length (agents s))))).
Proof.
  intros Htop Ha. rewrite (updateTopologyConnections_ring s Htop) in Ha.
  unfold ring_connections in Ha. rewrite list_lookup_imap in Ha.
  destruct (agents s !! i) as [a0 |] eqn:Ha0; [| discriminate]. simpl in Ha.
  injection Ha as <-. pose proof (lookup_lt_Some _ _ _ Ha0) as Hi.
  set (n := Z.of_nat (length (agents s))) in *.
  assert (0 < n)%Z as Hn by lia.
  assert (Z.rem (Z.of_nat i - 1 + n) n = (Z.of_nat i - 1) mod n)%Z as Hprev.
  { rewrite Z.rem_mod_nonneg by lia.
    replace (Z.of_nat i - 1 + n)%Z with (Z.of_nat i - 1 + 1 * n)%Z by lia.
    apply Z_mod_plus_full. }
  assert (Z.rem (Z.of_nat i + 1) n = (Z.of_nat i + 1) mod n)%Z as Hnext
    by (apply Z.rem_mod_nonneg; lia).
  rewrite Hprev, Hnext.
  pose proof (Z.mod_pos_bound (Z.of_nat i - 1) n Hn) as Hpb.
  pose proof (Z.mod_pos_bound (Z.of_nat i + 1) n Hn) as Hqb.
  destruct (lookup_lt_is_Some_2 (agents s) (Z.to_nat ((Z.of_nat i - 1) mod n))) as [p Hp];
    [lia |].
  destruct (lookup_lt_is_Some_2 (agents s) (Z.to_nat ((Z.of_nat i + 1) mod n))) as [q Hq];
    [lia |].
  exists p, q. split; [assumption |]. split; [assumption |].
  simpl. rewrite (id_at_inside _ _ p), (id_at_inside _ _ q) by (assumption || lia).
  split; [reflexivity |].
  intros j b Hb Hnd. simpl. rewrite !elem_of_cons, elem_of_nil.
  assert (forall k c, agents s !! k = Some c -> agent_id b = agent_id c <-> j = k) as Hinj.
  { intros k c Hc. split.
    - intros Heq. apply (NoDup_lookup _ j k (agent_id b) Hnd).
      + rewrite list_lookup_fmap, Hb. reflexivity.
      + rewrite list_lookup_fmap, Hc, Heq. reflexivity.
    - intros ->. rewrite Hb in Hc. injection Hc as ->. reflexivity. }
  rewrite (Hinj _ p Hp), (Hinj _ q Hq). tauto.
Qed.

(** *** The connections of the other topologies *)

(** [updateTopologyConnections] assigns [connections] and nothing else. *)
Definition connections_only (before after : list Agent) : Prop :=
  Forall2 (fun a a' => a' = with_connections a (connections a')) before after.

Lemma connections_only_fmap (roster : list Agent) (f : Agent -> list string) :
  connections_only roster ((fun a => with_connections a (f a)) <$> roster).
Proof.
  unfold connections_only. apply Forall2_fmap_r, Forall_Forall2_diag, Forall_forall.
  intros a _. reflexivity.
Qed.

Lemma connections_only_imap (roster : list Agent) (f : nat -> Agent -> list string) :
  connections_only roster (imap (fun i a => with_connections a (f i a)) roster).
Proof.
  unfold connections_only. apply Forall2_lookup. intros i. rewrite list_lookup_imap.
  destruct (roster !! i); constructor. reflexivity.
Qed.

Lemma connections_only_refl (roster : list Agent) : connections_only roster roster.
Proof.
  unfold connections_only. apply Forall_Forall2_diag, Forall_forall.
  intros [] _. reflexivity.
Qed.

Lemma connections_only_ids (before after : list Agent) :
  connections_only before after -> agent_id <$> after = agent_id <$> before.
Proof.
  intros H. induction H as [| a a' l l' Ha _ IH]; [reflexivity |].
  rewrite !fmap_cons, IH, Ha. reflexivity.
Qed.

Lemma connections_only_update (s : Swarm) :
  connections_only (agents s) (agents (updateTopologyConnections s))
  /\ updateTopologyConnections s = with_agents s (agents (updateTopologyConnections s)).
Proof.
  unfold updateTopologyConnections.
  assert (s = with_agents s (agents s)) as Hsame by (destruct s; reflexivity).
  destruct (decide (topology s = MESH)); [split; [apply connections_only_fmap | reflexivity] |].
  destruct (decide (topology s = STAR)).
  { destruct (hub_of s) as [hub |]; [| split; [apply connections_only_refl | assumption]].
    split; [| reflexivity]. simpl. unfold star_connections, connections_only.
    apply Forall2_fmap_r, Forall_Forall2_diag, Forall_forall. intros a _. simpl.
    destruct (decide (agent_id a = agent_id hub)); reflexivity. }
  destruct (decide (topology s = HIERARCHICAL));
    [split; [apply connections_only_imap | reflexivity] |].
  destruct (decide (topology s = RING));
    [split; [apply connections_only_imap | reflexivity] |].
  split; [apply connections_only_refl | assumption].
Qed.

(** X6: [updateTopologyConnections] changes nothing but the [connections]
    of the agents: the roster keeps its agents, in order, with their ids,
    roles, states, queues and counters, and the swarm keeps its other
    fields, whatever the topology. *)
Theorem updateTopologyConnections_assigns_connections_only (s : Swarm) :
  connections_only (agents s) (agents (updateTopologyConnections s))
  /\ updateTopologyConnections s = with_agents s (agents (updateTopologyConnections s)).
Proof. apply connections_only_update. Qed.

Lemma other_ids_filter (roster : list Agent) (a : Agent) :
  other_ids roster a = filter (fun x => x <> agent_id a) (agent_id <$> roster).
Proof.
  unfold other_ids. induction roster as [| b roster IH]; [reflexivity |].
  rewrite fmap_cons, !filter_cons.
  destruct (decide (agent_id b <> agent_id a)); [rewrite fmap_cons |]; rewrite IH; reflexivity.
Qed.

Lemma filter_absent (ids : list string) (x : string) :
  x ∉ ids -> filter (fun y => y <> x) ids = ids.
Proof.
  induction ids as [| y ids IH]; intros Hx; [reflexivity |].
  apply not_elem_of_cons in Hx as [Hy Hx].
  rewrite filter_cons, decide_True by congruence. rewrite IH by assumption. reflexivity.
Qed.

Lemma filter_present_length (ids : list string) (x : string) : forall i,
  NoDup ids -> ids !! i = Some x -> length (filter (fun y => y <> x) ids) = length ids - 1.
Proof.
  induction ids as [| y ids IH]; intros i Hnd Hi.
  - rewrite lookup_nil in Hi. discriminate.
  - apply NoDup_cons in Hnd as [Hy Hnd]. rewrite filter_cons. destruct i as [| i]; simpl in Hi.
    + injection Hi as ->. rewrite decide_False by (intros H; apply H; reflexivity).
      rewrite filter_absent by assumption. simpl. lia.
    + assert (y <> x) as Hne.
      { intros ->. apply Hy. apply list_elem_of_lookup. eauto. }
      rewrite decide_True by assumption. simpl. rewrite (IH i Hnd Hi).
      apply lookup_lt_Some in Hi. lia.
Qed.

(** With distinct ids, the ids of the others are those of the agents at
    the other indices, one fewer than the roster. *)
Lemma other_ids_spec (roster : list Agent) (i : nat) (a : Agent) :
  NoDup (agent_id <$> roster) -> roster !! i = Some a ->
  length (other_ids roster a) = length roster - 1
  /\ forall j b, roster !! j = Some b -> (agent_id b ∈ other_ids roster a <-> j <> i).
Proof.
  intros Hnd Ha. split.
  - rewrite other_ids_filter. rewrite <- (length_fmap agent_id roster).
    apply (filter_present_length _ _ i Hnd). rewrite list_lookup_fmap, Ha. reflexivity.
  - intros j b Hb. rewrite other_ids_filter, list_elem_of_filter.
    assert (agent_id b ∈ agent_id <$> roster) as Hin
      by (apply list_elem_of_fmap; exists b; split; [reflexivity |];
          apply list_elem_of_lookup; eauto).
    split.
    + intros [Hne _] ->. rewrite Ha in Hb. injection Hb as ->. apply Hne. reflexivity.
    + intros Hji. split; [| assumption]. intros Heq. apply Hji.
      apply (NoDup_lookup _ j i (agent_id b) Hnd).
      * rewrite list_lookup_fmap, Hb. reflexivity.
      * rewrite list_lookup_fmap, Ha, Heq. reflexivity.
Qed.

(** X7: in a mesh, [updateTopologyConnections] connects every agent to all
    the others.  With distinct ids, the connections of the agent at index i
    hold the ids of the agents at every other index and not its own, and
    there are n - 1 of them. *)
Theorem mesh_connects_all_others (s : Swarm) (i : nat) (a : Agent) :
  topology s = MESH ->
  NoDup (agent_id <$> agents s) ->
  agents (updateTopologyConnections s) !! i = Some a ->
  length (connections a) = length (agents s) - 1
  /\ forall j b, agents s !! j = Some b -> (agent_id b ∈ connections a <-> j <> i).
Proof.
  intros Htop Hnd Ha. unfold updateTopologyConnections in Ha.
  rewrite decide_True in Ha by assumption. simpl in Ha.
  unfold mesh_connections in Ha. rewrite list_lookup_fmap in Ha.
  destruct (agents s !! i) as [a0 |] eqn:Ha0; [| discriminate].
  injection Ha as <-. simpl. apply (other_ids_spec (agents s) i a0 Hnd Ha0).
Qed.

Lemma hub_index_lookup (s : Swarm) (h : nat) (hub : Agent) :
  hub_index s = Some (h, hub) -> agents s !! h = Some hub.
Proof.
  unfold hub_index. destruct (list_find _ (agents s)) as [[h' hub'] |] eqn:Hfind.
  - intros [= -> ->]. apply list_find_Some in Hfind. tauto.
  - destruct (agents s) as [| a l]; [discriminate |]. intros [= <- <-]. reflexivity.
Qed.

(** X8: in a star, [updateTopologyConnections] connects the hub (the
    coordinator, or the first agent when the swarm has none) to every other
    agent, and every other agent to the hub alone. *)
Theorem star_connects_hub_and_spokes (s : Swarm) (h : nat) (hub : Agent) (i : nat) (a : Agent) :
  topology s = STAR ->
  NoDup (agent_id <$> agents s) ->
  hub_index s = Some (h, hub) ->
  agents (updateTopologyConnections s) !! i = Some a ->
  (i = h ->
   length (connections a) = length (agents s) - 1
   /\ forall j b, agents s !! j = Some b -> (agent_id b ∈ connections a <-> j <> h))
  /\ (i <> h -> connections a = [agent_id hub]).
Proof.
  intros Htop Hnd Hhub Ha. pose proof (hub_index_lookup s h hub Hhub) as Hh.
  unfold updateTopologyConnections in Ha.
  rewrite decide_False in Ha by (rewrite Htop; discriminate).
  rewrite decide_True in Ha by assumption.
  unfold hub_of in Ha. rewrite Hhub in Ha. simpl in Ha.
  unfold star_connections in Ha. rewrite list_lookup_fmap in Ha.
  destruct (agents s !! i) as [a0 |] eqn:Ha0; [| discriminate].
  injection Ha as <-.
  assert (agent_id a0 = agent_id hub <-> i = h) as Hid.
  { split.
    - intros Heq. apply (NoDup_lookup _ i h (agent_id a0) Hnd).
      + rewrite list_lookup_fmap, Ha0. reflexivity.
      + rewrite list_lookup_fmap, Hh, Heq. reflexivity.
    - intros ->. rewrite Hh in Ha0. injection Ha0 as ->. reflexivity. }
  destruct (decide (agent_id a0 = agent_id hub)) as [Heq | Hne]; simpl.
  - apply Hid in Heq as ->. split; [| intros H; contradiction].
    intros _. apply (other_ids_spec (agents s) h a0 Hnd Ha0).
  - split; [| reflexivity]. intros ->. exfalso. apply Hne, Hid. reflexivity.
Qed.

Lemma id_at_elem (roster : list Agent) (k : Z) (j : nat) (b : Agent) :
  NoDup (agent_id <$> roster) -> roster !! j = Some b ->
  agent_id b ∈ id_at roster k <-> k = Z.of_nat j.
Proof.
  intros Hnd Hb. unfold id_at. destruct (Z.ltb_spec k 0) as [Hneg | Hpos].
  - split; [intros H; inversion H | lia].
  - destruct (roster !! Z.to_nat k) as [c |] eqn:Hc.
    + rewrite list_elem_of_singleton. split.
      * intros Heq. assert (j = Z.to_nat k); [| lia].
        apply (NoDup_lookup _ j (Z.to_nat k) (agent_id b) Hnd).
        -- rewrite list_lookup_fmap, Hb. reflexivity.
        -- rewrite list_lookup_fmap, Hc, Heq. reflexivity.
      * intros ->. rewrite Nat2Z.id, Hb in Hc. injection Hc as ->. reflexivity.
    + split; [intros H; inversion H |]. intros ->. rewrite Nat2Z.id, Hb in Hc. discriminate.
Qed.

(** X9: in a hierarchy, [updateTopologyConnections] lays the roster out as
    a binary heap: with distinct ids, the agent at index i is connected to
    the agent at index j exactly when one is the parent of the other
    (the children of i are 2i+1 and 2i+2), so the relation is symmetric and
    the first agent is the root. *)
Theorem hierarchical_connects_parent_and_children (s : Swarm) (i : nat) (a : Agent) :
  topology s = HIERARCHICAL ->
  NoDup (agent_id <$> agents s) ->
  agents (updateTopologyConnections s) !! i = Some a ->
  forall j b, agents s !! j = Some b ->
    (agent_id b ∈ connections a
     <-> i = 2 * j + 1 \/ i = 2 * j + 2 \/ j = 2 * i + 1 \/ j = 2 * i + 2).
Proof.
  intros Htop Hnd Ha j b Hb. unfold updateTopologyConnections in Ha.
  rewrite Htop in Ha. repeat (rewrite decide_False in Ha by discriminate).
  rewrite decide_True in Ha by reflexivity. simpl in Ha.
  unfold hierarchical_connections in Ha. rewrite list_lookup_imap in Ha.
  destruct (agents s !! i) as [a0 |] eqn:Ha0; [| discriminate].
  injection Ha as <-. simpl.
  rewrite !elem_of_app, !(id_at_elem (agents s) _ j b Hnd Hb).
  split.
  - intros [H | [H | H]]; [| lia | lia]. revert H. Z.div_mod_to_equations. lia.
  - intros [H | [H | [H | H]]]; [left | left | right; left; lia | right; right; lia].
    all: subst i; Z.div_mod_to_equations; lia.
Qed.

(** *** Updating the connections twice

    The connections are computed from the ids of the roster, the topology
    and the coordinator, none of which the update changes. *)

Lemma other_ids_same_ids (r r' : list Agent) (a a' : Agent) :
  agent_id <$> r' = agent_id <$> r -> agent_id a' = agent_id a ->
  other_ids r' a' = other_ids r a.
Proof. intros Hr Ha. rewrite !other_ids_filter, Hr, Ha. reflexivity. Qed.

Lemma id_at_same_ids (r r' : list Agent) (j : Z) :
  agent_id <$> r' = agent_id <$> r -> id_at r' j = id_at r j.
Proof.
  intros Hr. unfold id_at. destruct (Z.ltb j 0); [reflexivity |].
  assert ((agent_id <$> r') !! Z.to_nat j = (agent_id <$> r) !! Z.to_nat j) as H
    by (rewrite Hr; reflexivity).
  rewrite !list_lookup_fmap in H.
  destruct (r' !! Z.to_nat j), (r !! Z.to_nat j); simpl in H; congruence.
Qed.

Lemma reassign_connections (r r' : list Agent) (f f' : nat -> Agent -> list string) :
  connections_only r r' ->
  (forall i a a', r !! i = Some a -> r' !! i = Some a' -> agent_id a' = agent_id a ->
                  f' i a' = f i a) ->
  imap (fun i a => with_connections a (f' i a)) r'
  = imap (fun i a => with_connections a (f i a)) r.
Proof.
  intros Hco Hf. apply list_eq. intros i. rewrite !list_lookup_imap.
  unfold connections_only in Hco. destruct (r' !! i) as [a' |] eqn:Ha'.
  - destruct (Forall2_lookup_r _ _ _ _ _ Hco Ha') as (a & Ha & Heq). rewrite Ha. simpl.
    f_equal. rewrite (Hf i a a' Ha Ha') by (rewrite Heq; reflexivity).
    rewrite Heq. reflexivity.
  - apply lookup_ge_None in Ha'. rewrite <- (Forall2_length _ _ _ Hco) in Ha'.
    apply lookup_ge_None in Ha'. rewrite Ha'. reflexivity.
Qed.

Lemma mesh_connections_imap (r : list Agent) :
  mesh_connections r = imap (fun _ a => with_connections a (other_ids r a)) r.
Proof.
  symmetry. apply (imap_const (fun a => with_connections a (other_ids r a))).
Qed.

Lemma star_connections_imap (hub : Agent) (r : list Agent) :
  star_connections hub r
  = imap (fun _ a => with_connections a
                       (if decide (agent_id a = agent_id hub)
                        then other_ids r a else [agent_id hub])) r.
Proof.
  unfold star_connections. apply list_eq. intros i.
  rewrite list_lookup_fmap, list_lookup_imap. destruct (r !! i) as [a |]; [| reflexivity].
  simpl. destruct (decide (agent_id a = agent_id hub)); reflexivity.
Qed.

Lemma list_find_same_ids (P : string -> Prop) `{forall x, Decision (P x)} (r : list Agent) :
  forall r', agent_id <$> r' = agent_id <$> r ->
    prod_map id agent_id <$> list_find (fun a => P (agent_id a)) r'
    = prod_map id agent_id <$> list_find (fun a => P (agent_id a)) r.
Proof.
  induction r as [| a r IH]; intros [| a' r'] Hids; try discriminate; [reflexivity |].
  rewrite !fmap_cons in Hids. injection Hids as Ha Hr. cbn [list_find].
  rewrite Ha. destruct (decide (P (agent_id a))); [simpl; rewrite Ha; reflexivity |].
  specialize (IH r' Hr).
  destruct (list_find _ r') as [[j b'] |], (list_find _ r) as [[k b] |];
    simpl in IH |- *; try discriminate; [| reflexivity].
  injection IH as -> Hb. unfold prod_map. simpl. rewrite Hb. reflexivity.
Qed.

Lemma hub_of_same_ids (s : Swarm) (r' : list Agent) :
  agent_id <$> r' = agent_id <$> agents s ->
  agent_id <$> hub_of (with_agents s r') = agent_id <$> hub_of s.
Proof.
  intros Hids. unfold hub_of, hub_index. cbn [agents coordinator with_agents].
  pose proof (list_find_same_ids (fun x => Some x = coordinator s) (agents s) r' Hids) as Hfind.
  destruct (list_find _ r') as [[j b'] |], (list_find _ (agents s)) as [[k b] |];
    simpl in Hfind |- *; try discriminate.
  - injection Hfind as _ Hb. rewrite Hb. reflexivity.
  - destruct r' as [| a' r'], (agents s) as [| a r]; try discriminate; [reflexivity |].
    rewrite !fmap_cons in Hids. injection Hids as Ha _. simpl. rewrite Ha. reflexivity.
Qed.

(** X28: [updateTopologyConnections] is idempotent: the connections it
    assigns depend on the ids of the roster, the topology and the
    coordinator only, so that a second call rebuilds the same swarm. *)
Theorem updateTopologyConnections_idempotent (s : Swarm) :
  updateTopologyConnections (updateTopologyConnections s) = updateTopologyConnections s.
Proof.
  destruct (connections_only_update s) as [Hco Hsame].
  pose proof (connections_only_ids _ _ Hco) as Hids.
  set (r' := agents (updateTopologyConnections s)) in *.
  rewrite Hsame at 1. revert Hsame. unfold updateTopologyConnections at 2 3.
  unfold updateTopologyConnections at 1. cbn [topology with_agents agents].
  destruct (decide (topology s = MESH)).
  { intros _. rewrite !mesh_connections_imap. f_equal.
    apply reassign_connections; [assumption |].
    intros i a a' _ _ Ha. apply other_ids_same_ids; assumption. }
  destruct (decide (topology s = STAR)).
  { pose proof (hub_of_same_ids s r' Hids) as Hhub.
    destruct (hub_of (with_agents s r')) as [hub' |], (hub_of s) as [hub |];
      try discriminate; [| intros <-; reflexivity].
    simpl in Hhub. injection Hhub as Hhub. intros _.
    rewrite !star_connections_imap. f_equal.
    apply reassign_connections; [assumption |].
    intros i a a' _ _ Ha. rewrite Ha, Hhub.
    destruct (decide (agent_id a = agent_id hub)); [| reflexivity].
    apply other_ids_same_ids; assumption. }
  destruct (decide (topology s = HIERARCHICAL)).
  { intros _. unfold hierarchical_connections. f_equal.
    apply reassign_connections; [assumption |].
    intros i a a' _ _ _. cbv zeta. rewrite !(id_at_same_ids (agents s) r') by assumption.
    reflexivity. }
  destruct (decide (topology s = RING)).
  { intros _. unfold ring_connections. f_equal.
    apply reassign_connections; [assumption |].
    intros i a a' _ _ _. cbv zeta.
    assert (length r' = length (agents s)) as ->
      by (rewrite <- (length_fmap agent_id r'), Hids, length_fmap; reflexivity).
    rewrite !(id_at_same_ids (agents s) r') by assumption. reflexivity. }
  intros <-. reflexivity.
Qed.


(** *** The roster built by [createSwarm] and extended by [addAgent] *)

(** The number of random draws [createSwarm] spends on the swarm id. *)
Definition id_draws (spec : SwarmSpec) : nat :=
  match spec_id spec with
  | Some s => if decide (s = EmptyString) then 1 else 0
  | None => 1
  end.

(** The coordinator left by the loop over the roles: the agent of the last
    role flagged [isCoordinator], or the one set before. *)
Fixpoint last_coordinator (swarmId : string) (random : nat -> string) (roles : list Role)
    (draws : nat) (coord : option string) : option string :=
  match roles with
  | [] => coord
  | r :: roles' =>
      last_coordinator swarmId random roles' (S draws)
        (if isCoordinator r then Some (agent_id (createSwarmAgent swarmId r (random draws)))
         else coord)
  end.

Lemma add_roles_roster swarmId random (roles : list Role) : forall roster coord draws,
  fold_left (add_role swarmId random) roles (roster, coord, draws)
  = (roster ++ imap (fun i r => createSwarmAgent swarmId r (random (draws + i))) roles,
     last_coordinator swarmId random roles draws coord,
     draws + length roles).
Proof.
  induction roles as [| r roles IH]; intros roster coord draws; simpl.
  - rewrite app_nil_r, Nat.add_0_r. reflexivity.
  - rewrite IH, <- app_assoc. simpl. rewrite Nat.add_0_r. f_equal; [f_equal |]; [| lia].
    f_equal. f_equal. apply imap_ext. intros i x _. simpl. f_equal. f_equal. lia.
Qed.

Lemma last_coordinator_spec swarmId random (roles : list Role) : forall draws coord,
  (forall i r, roles !! i = Some r -> isCoordinator r = true ->
     (forall j r', i < j -> roles !! j = Some r' -> isCoordinator r' = false) ->
     last_coordinator swarmId random roles draws coord
     = Some (agent_id (createSwarmAgent swarmId r (random (draws + i)))))
  /\ ((forall r, r ∈ roles -> isCoordinator r = false) ->
      last_coordinator swarmId random roles draws coord = coord).
Proof.
  induction roles as [| r roles IH]; intros draws coord; simpl.
  - split; [intros i r Hr; rewrite lookup_nil in Hr; discriminate | reflexivity].
  - split.
    + intros i x Hx Hcoord Hlast. destruct i as [| i]; simpl in Hx.
      * injection Hx as ->. rewrite Hcoord, Nat.add_0_r.
        apply (proj2 (IH (S draws) _)). intros r' Hr'.
        apply list_elem_of_lookup in Hr' as [j Hj]. apply (Hlast (S j) r'); [lia | exact Hj].
      * replace (draws + S i) with (S draws + i) by lia.
        apply (proj1 (IH (S draws) _) i x Hx Hcoord).
        intros j r' Hij Hj. apply (Hlast (S j) r'); [lia | exact Hj].
    + intros Hnone. rewrite (Hnone r) by left.
      apply (proj2 (IH (S draws) coord)). intros r' Hr'. apply Hnone. right. assumption.
Qed.

(** X20: [createSwarm] builds one agent per role, in order: the agent of
    the i-th role is the fresh agent [createSwarmAgent] makes with the i-th
    random draw (after the one spent on a generated swarm id), ready, with
    no connection and an empty queue.  The coordinator is the agent of the
    last role flagged [isCoordinator], and there is none when no role is
    flagged.  The number of roles is not checked against [maxAgents]. *)
Theorem createSwarm_builds_roster (m : SwarmManager) (now iso : string)
    (random : nat -> string) (spec : SwarmSpec) :
  agents (createSwarm m now iso random spec).1
  = imap (fun i r => createSwarmAgent (swarm_id (createSwarm m now iso random spec).1) r
                       (random (id_draws spec + i)))
      (default [] (spec_roles spec))
  /\ (forall i r,
        default [] (spec_roles spec) !! i = Some r -> isCoordinator r = true ->
        (forall j r', i < j -> default [] (spec_roles spec) !! j = Some r' ->
                      isCoordinator r' = false) ->
        coordinator (createSwarm m now iso random spec).1
        = agent_id <$> agents (createSwarm m now iso random spec).1 !! i)
  /\ ((forall r, r ∈ default [] (spec_roles spec) -> isCoordinator r = false) ->
      coordinator (createSwarm m now iso random spec).1 = None).
Proof.
  unfold createSwarm, id_draws.
  set (choice := match spec_id spec with
                 | Some s => if decide (s = EmptyString)
                             then ("swarm-" +:+ now +:+ "-" +:+ random 0, 1)
                             else (s, 0)
                 | None => ("swarm-" +:+ now +:+ "-" +:+ random 0, 1)
                 end).
  assert (choice.2 = match spec_id spec with
                     | Some s => if decide (s = EmptyString) then 1 else 0
                     | None => 1
                     end) as Hdraws.
  { unfold choice. destruct (spec_id spec) as [s |]; [| reflexivity].
    destruct (decide (s = EmptyString)); reflexivity. }
  destruct choice as [swarmId draws]. simpl in Hdraws. subst draws.
  rewrite add_roles_roster. cbn [fst agents swarm_id coordinator app].
  destruct (last_coordinator_spec swarmId random (default [] (spec_roles spec))
              (match spec_id spec with
               | Some s => if decide (s = EmptyString) then 1 else 0
               | None => 1
               end) None) as [Hlast Hnone].
  split; [reflexivity |]. split; [| assumption].
  intros i r Hr Hcoord Hothers. rewrite (Hlast i r Hr Hcoord Hothers).
  rewrite list_lookup_imap, Hr. reflexivity.
Qed.

(** X21: [addAgent] keeps a roster within [maxAgents].  On a full roster it
    throws 'Swarm is at maximum capacity' and changes nothing; otherwise it
    returns the new agent, which is the last of the registered roster, the
    roster has grown by that one agent and is still within the limit, and
    'agent-added' is emitted. *)
Theorem addAgent_respects_capacity (m : SwarmManager) (swarmId : string) (swarm : Swarm)
    (agentSpec : Role) (rnd : string) :
  swarms m !! swarmId = Some swarm ->
  (maxAgents (swarm_config swarm) <= length (agents swarm) ->
   addAgent m swarmId agentSpec rnd = (Throw (Error "Swarm is at maximum capacity"), m))
  /\ (length (agents swarm) < maxAgents (swarm_config swarm) ->
      exists agent m' swarm',
        addAgent m swarmId agentSpec rnd = (Ok agent, m')
        /\ swarms m' !! swarmId = Some swarm'
        /\ agent_id <$> agents swarm'
           = (agent_id <$> agents swarm) ++ [swarmId +:+ "-agent-" +:+ rnd]
        /\ agents swarm' !! length (agents swarm) = Some agent
        /\ length (agents swarm') <= maxAgents (swarm_config swarm')
        /\ events m' = events m ++ [agent_added swarmId (agent_id agent)]).
Proof.
  intros Hswarm. unfold addAgent. rewrite Hswarm. split.
  - intros Hfull. rewrite decide_True by assumption. reflexivity.
  - intros Hroom. rewrite decide_False by lia.
    set (agent := createSwarmAgent swarmId agentSpec rnd).
    set (s1 := with_agents swarm (agents swarm ++ [agent])).
    destruct (connections_only_update s1) as [Honly Hrest].
    pose proof (connections_only_ids _ _ Honly) as Hids.
    assert (length (agents (updateTopologyConnections s1)) = S (length (agents swarm))) as Hlen.
    { rewrite <- (length_fmap agent_id), Hids, length_fmap. unfold s1. simpl.
      rewrite length_app. simpl. lia. }
    destruct (lookup_lt_is_Some_2 (agents (updateTopologyConnections s1))
                (length (agents swarm))) as [a Ha]; [lia |].
    assert (agent_id a = agent_id agent) as Hid.
    { assert ((agent_id <$> agents (updateTopologyConnections s1)) !! length (agents swarm)
              = Some (agent_id a)) as Hl by (rewrite list_lookup_fmap, Ha; reflexivity).
      rewrite Hids in Hl. unfold s1 in Hl. simpl in Hl. rewrite fmap_app in Hl.
      rewrite lookup_app_r in Hl by (rewrite length_fmap; lia).
      rewrite length_fmap, Nat.sub_diag in Hl. simpl in Hl. injection Hl as <-. reflexivity. }
    exists a. eexists _, _. rewrite Ha. cbn [default].
    split; [reflexivity |]. cbn [swarms events]. split; [apply lookup_insert_eq |].
    split; [rewrite Hids; unfold s1; simpl; rewrite fmap_app; reflexivity |].
    split; [assumption |]. split; [| rewrite Hid; reflexivity].
    rewrite Hlen, Hrest. simpl. lia.
Qed.

(** X22: [addAgent] establishes the mesh.  After a successful [addAgent]
    on a mesh swarm whose ids, the new one included, are distinct, every
    agent of the registered roster is connected to all the others and only
    to them: the connections [createSwarm] left empty are complete. *)
Theorem addAgent_connects_mesh (m : SwarmManager) (swarmId : string) (swarm : Swarm)
    (agentSpec : Role) (rnd : string) :
  swarms m !! swarmId = Some swarm ->
  topology swarm = MESH ->
  length (agents swarm) < maxAgents (swarm_config swarm) ->
  NoDup ((agent_id <$> agents swarm) ++ [swarmId +:+ "-agent-" +:+ rnd]) ->
  exists agent m' swarm',
    addAgent m swarmId agentSpec rnd = (Ok agent, m')
    /\ swarms m' !! swarmId = Some swarm'
    /\ length (agents swarm') = S (length (agents swarm))
    /\ forall i a, agents swarm' !! i = Some a ->
         length (connections a) = length (agents swarm)
         /\ forall j b, agents swarm' !! j = Some b -> (agent_id b ∈ connections a <-> j <> i).
Proof.
  intros Hswarm Htop Hroom Hnd. unfold addAgent. rewrite Hswarm, decide_False by lia.
  set (agent := createSwarmAgent swarmId agentSpec rnd).
  set (s1 := with_agents swarm (agents swarm ++ [agent])).
  assert (agents (updateTopologyConnections s1) = mesh_connections (agents s1)) as Hmesh.
  { unfold updateTopologyConnections. rewrite decide_True by assumption. reflexivity. }
  assert (NoDup (agent_id <$> agents s1)) as Hnd1
    by (unfold s1; simpl; rewrite fmap_app; assumption).
  assert (length (agents s1) = S (length (agents swarm))) as Hlen1
    by (unfold s1; simpl; rewrite length_app; simpl; lia).
  eexists _, _, _. split; [reflexivity |]. cbn [swarms].
  split; [apply lookup_insert_eq |]. rewrite Hmesh. unfold mesh_connections.
  split; [rewrite length_fmap; assumption |].
  intros i a Ha. rewrite list_lookup_fmap in Ha.
  destruct (agents s1 !! i) as [a0 |] eqn:Ha0; [| discriminate]. injection Ha as <-.
  destruct (other_ids_spec (agents s1) i a0 Hnd1 Ha0) as [Hlen Hall].
  split.
  - change (length (other_ids (agents s1) a0) = length (agents swarm)). lia.
  - intros j b Hb. rewrite list_lookup_fmap in Hb.
    destruct (agents s1 !! j) as [b0 |] eqn:Hb0; [| discriminate]. injection Hb as <-.
    exact (Hall j b0 Hb0).
Qed.

(** *** A JSON printer and reader for the examples

    [JSON.stringify] and [JSON.parse] are parameters of the model.  The
    examples instantiate them on the fragment without finite numbers:
    [null], booleans, strings without characters to escape, arrays and
    objects ([NaN] and the infinities print as [null], as in JavaScript; an
    [undefined] array item prints as [null], an [undefined] property is
    skipped). *)
Definition quote : string := String (Ascii.ascii_of_nat 34) EmptyString.

Definition join_comma (texts : list string) : string :=
  match texts with
  | [] => EmptyString
  | t :: ts => fold_left (fun acc u => acc +:+ "," +:+ u) ts t
  end.

Fixpoint print_json (v : value) : option string :=
  match v with
  | VUndefined => None
  | VNull => Some "null"
  | VBool true => Some "true"
  | VBool false => Some "false"
  | VNum (S754_finite _ _ _) | VNum (S754_zero _) => None
  | VNum _ => Some "null"
  | VStr s => Some (quote +:+ s +:+ quote)
  | VArr items =>
      Some ("[" +:+ join_comma
                      ((fix each (l : list value) : list string :=
                          match l with
                          | [] => []
                          | x :: l' => default "null" (print_json x) :: each l'
                          end) items) +:+ "]")
  | VObj props =>
      Some ("{" +:+ join_comma
                      ((fix each (l : list (string * value)) : list string :=
                          match l with
                          | [] => []
                          | (k, x) :: l' =>
                              match print_json x with
                              | Some t => (quote +:+ k +:+ quote +:+ ":" +:+ t) :: each l'
                              | None => each l'
                              end
                          end) props) +:+ "}")
  end.

(** Reads back the scalar texts of [print_json]. *)
Definition read_json (text : string) : value :=
  if decide (text = "null") then VNull
  else if decide (text = "true") then VBool true
  else if decide (text = "false") then VBool false
  else match text with
       | String c rest =>
           if decide (c = Ascii.ascii_of_nat 34)
           then VStr (String.substring 0 (String.length rest - 1) rest)
           else VUndefined
       | EmptyString => VUndefined
       end.

Example print_json_fallback :
  print_json (VObj [("processed", VBool true); ("task", VStr "t"); ("agentId", VStr "a1")])
  = Some ("{" +:+ quote +:+ "processed" +:+ quote +:+ ":true,"
              +:+ quote +:+ "task" +:+ quote +:+ ":" +:+ quote +:+ "t" +:+ quote +:+ ","
              +:+ quote +:+ "agentId" +:+ quote +:+ ":" +:+ quote +:+ "a1" +:+ quote +:+ "}").
Proof. reflexivity. Qed.

(** Three answers split two to one at threshold 0.7: plurality 2 of 3,
    first-occurrence result, consensus not achieved. *)
Lemma achieveConsensus_plurality_witness :
  let results := [VStr "yes"; VStr "no"; VStr "yes"] in
  let r := achieveConsensus print_json read_json results seven_tenths in
  (forall v, v ∈ results -> occurrences print_json results v <= votes r)
  /\ (exists before first after,
        results = before ++ first :: after
        /\ occurrences print_json results first = votes r
        /\ (forall w, w ∈ before -> occurrences print_json results w < votes r)
        /\ result r = parse_consensus read_json (Some (print_json first))
        /\ (serializable print_json read_json first -> result r = first))
  /\ confidence r = number_div (number (votes r)) (number (length results))
  /\ achieved r = number_ge (confidence r) seven_tenths
  /\ total r = length results
  /\ (seven_tenths = seven_tenths -> length results = 3 -> votes r = 2 -> achieved r = false).
Proof.
  apply (achieveConsensus_plurality print_json read_json). discriminate.
Defined.

(** A string without characters to escape is read back from its text. *)
Example serializable_yes : serializable print_json read_json (VStr "yes").
Proof. exists (quote +:+ "yes" +:+ quote). repeat split. discriminate. Qed.

Example achieveConsensus_two_to_one :
  achieveConsensus print_json read_json [VStr "yes"; VStr "no"; VStr "yes"] seven_tenths
  = {| achieved := false;
       confidence := S754_finite false 6004799503160661 (-53);
       result := VStr "yes";
       votes := 2;
       total := 3 |}.
Proof. reflexivity. Qed.

Example achieveConsensus_unanimous :
  achieveConsensus print_json read_json [VStr "yes"; VStr "yes"; VStr "yes"] seven_tenths
  = {| achieved := true;
       confidence := S754_finite false 4503599627370496 (-52);
       result := VStr "yes";
       votes := 3;
       total := 3 |}.
Proof. reflexivity. Qed.

(** *** Concrete swarms *)

(** [new SwarmManager()]: the constructor's defaults. *)
Definition new_manager : SwarmManager :=
  {| config := {| cfg_maxAgents := 100; cfg_defaultTopology := MESH;
                  cfg_consensusThreshold := seven_tenths; cfg_consensusProtocol := RAFT |};
     swarms := ∅;
     metrics := {| swarmsCreated := 0; tasksExecuted := 0; consensusReached := 0;
                   opsPerSecond := 0 |};
     events := [] |}.

Definition plain_role (name : string) : Role :=
  {| role_name := name; role_type := None; role_capabilities := None; isCoordinator := false |}.

(** Three roles and a topology, as in the test 'should create a mesh swarm'. *)
Definition three_agents (id topology : string) : SwarmSpec :=
  {| spec_id := Some id; spec_name := Some "mesh-test"; spec_topology := Some topology;
     spec_consensusProtocol := None;
     spec_roles := Some [plain_role "agent1"; plain_role "agent2"; plain_role "agent3"];
     spec_maxAgents := None; spec_consensusThreshold := None; spec_faultTolerance := None |}.

(** Successive draws of the random id suffix. *)
Definition draw (k : nat) : string :=
  match k with
  | 0 => "a" | 1 => "b" | 2 => "c" | 3 => "d" | _ => "e"
  end.

Definition mesh_swarm : Swarm := (createSwarm new_manager "0" "t0" draw (three_agents "s" MESH)).1.
Definition mesh_manager : SwarmManager :=
  (createSwarm new_manager "0" "t0" draw (three_agents "s" MESH)).2.

(** The test expects two connections per agent right after [createSwarm];
    the roster has none, and [updateTopologyConnections] would give two. *)
Example createSwarm_mesh_connections :
  (connections <$> agents mesh_swarm) = [[]; []; []]
  /\ (connections <$> agents (updateTopologyConnections mesh_swarm))
     = [["s-agent-b"; "s-agent-c"]; ["s-agent-a"; "s-agent-c"]; ["s-agent-a"; "s-agent-b"]].
Proof. split; reflexivity. Qed.

(** [addAgent] does recompute: a fourth agent joins, and all four rosters
    entries list the three others. *)
Example addAgent_mesh_connections :
  match addAgent mesh_manager "s" (plain_role "agent4") "d" with
  | (Ok agent, m) =>
      connections agent = ["s-agent-a"; "s-agent-b"; "s-agent-c"]
      /\ (connections <$> default [] (agents <$> swarms m !! "s"))
         = [["s-agent-b"; "s-agent-c"; "s-agent-d"]; ["s-agent-a"; "s-agent-c"; "s-agent-d"];
            ["s-agent-a"; "s-agent-b"; "s-agent-d"]; ["s-agent-a"; "s-agent-b"; "s-agent-c"]]
  | _ => False
  end.
Proof. vm_compute. split; reflexivity. Qed.

Definition ring_swarm : Swarm := (createSwarm new_manager "0" "t0" draw (three_agents "r" RING)).1.

(** The middle agent of a ring of three. *)
Lemma ring_connects_neighbours_only_witness :
  exists p q,
    agents ring_swarm !! Z.to_nat ((Z.of_nat 1 - 1) mod Z.of_nat (length (agents ring_swarm)))
    = Some p
    /\ agents ring_swarm !! Z.to_nat ((Z.of_nat 1 + 1) mod Z.of_nat (length (agents ring_swarm)))
       = Some q
    /\ connections (with_connections (createSwarmAgent "r" (plain_role "agent2") "b")
                      ["r-agent-a"; "r-agent-c"])
       = [agent_id p; agent_id q]
    /\ (forall j b, agents ring_swarm !! j = Some b -> NoDup (agent_id <$> agents ring_swarm) ->
          (agent_id b ∈ connections (with_connections
                                       (createSwarmAgent "r" (plain_role "agent2") "b")
                                       ["r-agent-a"; "r-agent-c"])
           <-> j = Z.to_nat ((Z.of_nat 1 - 1) mod Z.of_nat (length (agents ring_swarm)))
               \/ j = Z.to_nat ((Z.of_nat 1 + 1) mod Z.of_nat (length (agents ring_swarm))))).
Proof.
  apply (ring_connects_neighbours_only ring_swarm 1); reflexivity.
Defined.

(** Rings of one and of two agents: both neighbours are the same agent. *)
Example ring_of_one_and_two :
  let one := {| spec_id := Some "r"; spec_name := None; spec_topology := Some RING;
                spec_consensusProtocol := None; spec_roles := Some [plain_role "solo"];
                spec_maxAgents := None; spec_consensusThreshold := None;
                spec_faultTolerance := None |} in
  let two := {| spec_id := Some "r"; spec_name := None; spec_topology := Some RING;
                spec_consensusProtocol := None;
                spec_roles := Some [plain_role "left"; plain_role "right"];
                spec_maxAgents := None; spec_consensusThreshold := None;
                spec_faultTolerance := None |} in
  (connections <$> agents (updateTopologyConnections (createSwarm new_manager "0" "t0" draw one).1))
  = [["r-agent-a"; "r-agent-a"]]
  /\ (connections <$> agents (updateTopologyConnections
                                (createSwarm new_manager "0" "t0" draw two).1))
     = [["r-agent-b"; "r-agent-b"]; ["r-agent-a"; "r-agent-a"]].
Proof. split; reflexivity. Qed.

(** A gateway that cannot be reached: every [fetch] throws. *)
Definition gateway_down : Agent -> value -> GatewayReply := fun _ _ => fetch_rejected.


(** A role that makes its agent the coordinator of the swarm. *)
Definition lead_role (name : string) : Role :=
  {| role_name := name; role_type := Some "coordinator"; role_capabilities := None;
     isCoordinator := true |}.

(** Three roles, the second one the coordinator. *)
Definition led_agents (id topology : string) : SwarmSpec :=
  {| spec_id := Some id; spec_name := None; spec_topology := Some topology;
     spec_consensusProtocol := None;
     spec_roles := Some [plain_role "agent1"; lead_role "agent2"; plain_role "agent3"];
     spec_maxAgents := None; spec_consensusThreshold := None; spec_faultTolerance := None |}.

Definition star_swarm : Swarm := (createSwarm new_manager "0" "t0" draw (led_agents "s" STAR)).1.
Definition tree_swarm : Swarm :=
  (createSwarm new_manager "0" "t0" draw (three_agents "h" HIERARCHICAL)).1.

Example updateTopologyConnections_star_and_tree :
  (connections <$> agents (updateTopologyConnections star_swarm))
  = [["s-agent-b"]; ["s-agent-a"; "s-agent-c"]; ["s-agent-b"]]
  /\ (connections <$> agents (updateTopologyConnections tree_swarm))
     = [["h-agent-b"; "h-agent-c"]; ["h-agent-a"]; ["h-agent-a"]].
Proof. split; reflexivity. Qed.

Lemma mesh_connects_all_others_witness :
  exists a,
    agents (updateTopologyConnections mesh_swarm) !! 0 = Some a
    /\ length (connections a) = length (agents mesh_swarm) - 1
    /\ forall j b, agents mesh_swarm !! j = Some b -> (agent_id b ∈ connections a <-> j <> 0).
Proof.
  eexists. split; [reflexivity |].
  apply (mesh_connects_all_others mesh_swarm 0); [reflexivity | | reflexivity].
  apply (bool_decide_unpack _). vm_compute. exact I.
Defined.

(** The hub of [star_swarm] is its coordinator, the second agent. *)
Lemma star_connects_hub_and_spokes_witness :
  exists hub spoke,
    agents (updateTopologyConnections star_swarm) !! 1 = Some hub
    /\ agents (updateTopologyConnections star_swarm) !! 2 = Some spoke
    /\ length (connections hub) = length (agents star_swarm) - 1
    /\ (forall j b, agents star_swarm !! j = Some b ->
          (agent_id b ∈ connections hub <-> j <> 1))
    /\ connections spoke = ["s-agent-b"].
Proof.
  eexists _, _. split; [reflexivity |]. split; [reflexivity |].
  assert (NoDup (agent_id <$> agents star_swarm)) as Hnd
    by (apply (bool_decide_unpack _); vm_compute; exact I).
  destruct (star_connects_hub_and_spokes star_swarm 1 _ 1 _ eq_refl Hnd eq_refl eq_refl)
    as [Hhub _].
  destruct (star_connects_hub_and_spokes star_swarm 1 _ 2 _ eq_refl Hnd eq_refl eq_refl)
    as [_ Hspoke].
  destruct (Hhub eq_refl) as [Hlen Hall].
  split; [exact Hlen |]. split; [exact Hall |]. apply Hspoke. discriminate.
Defined.

(** The root of [tree_swarm] is connected to its two children. *)
Lemma hierarchical_connects_parent_and_children_witness :
  exists a,
    agents (updateTopologyConnections tree_swarm) !! 0 = Some a
    /\ forall j b, agents tree_swarm !! j = Some b ->
         (agent_id b ∈ connections a
          <-> 0 = 2 * j + 1 \/ 0 = 2 * j + 2 \/ j = 2 * 0 + 1 \/ j = 2 * 0 + 2).
Proof.
  eexists. split; [reflexivity |].
  apply (hierarchical_connects_parent_and_children tree_swarm 0); [reflexivity | | reflexivity].
  apply (bool_decide_unpack _). vm_compute. exact I.
Defined.

Lemma executeTask_mesh_runs_every_agent_once_witness :
  exists report m' swarm',
    executeTask print_json read_json gateway_down mesh_manager "s" (VStr "task") 10 25
    = (Ok report, m')
    /\ duration report = (25 - 10)%Z
    /\ swarms m' !! "s" = Some swarm'
    /\ agents swarm' = after_task <$> agents mesh_swarm
    /\ swarm_state swarm' = idle
    /\ tasksCompleted (swarm_metrics swarm') = S (tasksCompleted (swarm_metrics mesh_swarm))
    /\ tasksExecuted (metrics m') = S (tasksExecuted (metrics mesh_manager))
    /\ events m' = events mesh_manager ++ [task_started "s"; task_completed "s"].
Proof.
  apply (executeTask_mesh_runs_every_agent_once print_json read_json gateway_down
           mesh_manager "s" mesh_swarm (VStr "task") 10 25); [reflexivity | | ]; discriminate.
Defined.

(** The hub of [star_swarm], as [createSwarm] made it. *)
Definition star_hub : Agent := createSwarmAgent "s" (lead_role "agent2") "b".

Lemma executeStar_aggregates_spokes_witness :
  exists s',
    executeStar gateway_down star_swarm (VStr "task")
    = (Ok (agent_answer gateway_down star_hub
             (VObj [("type", VStr "aggregate");
                    ("results",
                     VArr ((fun a => agent_answer gateway_down a (VStr "task"))
                             <$> filter (fun a => agent_id a <> agent_id star_hub)
                                   (agents star_swarm)))])),
       s')
    /\ agents s' = after_task <$> agents star_swarm.
Proof.
  apply (executeStar_aggregates_spokes gateway_down star_swarm 1 star_hub (VStr "task"));
    [| reflexivity].
  apply (bool_decide_unpack _). vm_compute. exact I.
Defined.

(** A hierarchy of one. *)
Definition solo_swarm : Swarm :=
  (createSwarm new_manager "0" "t0" draw
     {| spec_id := Some "solo"; spec_name := None; spec_topology := Some HIERARCHICAL;
        spec_consensusProtocol := None; spec_roles := Some [lead_role "chief"];
        spec_maxAgents := None; spec_consensusThreshold := None;
        spec_faultTolerance := None |}).1.
Definition solo_manager : SwarmManager :=
  (createSwarm new_manager "0" "t0" draw
     {| spec_id := Some "solo"; spec_name := None; spec_topology := Some HIERARCHICAL;
        spec_consensusProtocol := None; spec_roles := Some [lead_role "chief"];
        spec_maxAgents := None; spec_consensusThreshold := None;
        spec_faultTolerance := None |}).2.

(** With the gateway down the coordinator's answer is the fallback object,
    which has no subtasks: the task itself is handed to a worker that does
    not exist. *)
Lemma executeHierarchical_needs_workers_witness :
  exists m' swarm',
    executeTask print_json read_json gateway_down solo_manager "solo" (VStr "task") 10 25
    = (Throw (Error "Cannot set properties of undefined (setting 'state')"), m')
    /\ swarms m' !! "solo" = Some swarm'
    /\ swarm_state swarm' = errored
    /\ tasksExecuted (metrics m') = tasksExecuted (metrics solo_manager)
    /\ events m' = events solo_manager ++ [task_started "solo"; task_failed "solo"].
Proof.
  eapply (executeHierarchical_needs_workers print_json read_json gateway_down
            solo_manager "solo" solo_swarm _ (VStr "task") [VStr "task"] 10 25).
  - reflexivity.
  - reflexivity.
  - reflexivity.
  - reflexivity.
  - discriminate.
Defined.

Lemma addAgent_respects_capacity_witness :
  exists agent m' swarm',
    addAgent mesh_manager "s" (plain_role "agent4") "d" = (Ok agent, m')
    /\ swarms m' !! "s" = Some swarm'
    /\ agent_id <$> agents swarm'
       = (agent_id <$> agents mesh_swarm) ++ ["s" +:+ "-agent-" +:+ "d"]
    /\ agents swarm' !! length (agents mesh_swarm) = Some agent
    /\ length (agents swarm') <= maxAgents (swarm_config swarm')
    /\ events m' = events mesh_manager ++ [agent_added "s" (agent_id agent)].
Proof.
  destruct (addAgent_respects_capacity mesh_manager "s" mesh_swarm (plain_role "agent4") "d"
              eq_refl) as [_ Hroom].
  apply Hroom. simpl. lia.
Defined.

(** A roster of three with room for three only. *)
Example addAgent_full_roster :
  let spec := {| spec_id := Some "s"; spec_name := None; spec_topology := None;
                 spec_consensusProtocol := None;
                 spec_roles := Some [plain_role "a1"; plain_role "a2"; plain_role "a3"];
                 spec_maxAgents := Some 3; spec_consensusThreshold := None;
                 spec_faultTolerance := None |} in
  addAgent (createSwarm new_manager "0" "t0" draw spec).2 "s" (plain_role "a4") "d"
  = (Throw (Error "Swarm is at maximum capacity"), (createSwarm new_manager "0" "t0" draw spec).2).
Proof. reflexivity. Qed.

Lemma addAgent_connects_mesh_witness :
  exists agent m' swarm',
    addAgent mesh_manager "s" (plain_role "agent4") "d" = (Ok agent, m')
    /\ swarms m' !! "s" = Some swarm'
    /\ length (agents swarm') = S (length (agents mesh_swarm))
    /\ forall i a, agents swarm' !! i = Some a ->
         length (connections a) = length (agents mesh_swarm)
         /\ forall j b, agents swarm' !! j = Some b -> (agent_id b ∈ connections a <-> j <> i).
Proof.
  apply (addAgent_connects_mesh mesh_manager "s" mesh_swarm (plain_role "agent4") "d").
  - reflexivity.
  - reflexivity.
  - simpl. lia.
  - apply (bool_decide_unpack _). vm_compute. exact I.
Defined.

(** Two yes and one no, in two orders. *)
Lemma achieveConsensus_order_independent_witness :
  votes (achieveConsensus print_json read_json [VStr "yes"; VStr "no"; VStr "yes"] seven_tenths)
  = votes (achieveConsensus print_json read_json [VStr "no"; VStr "yes"; VStr "yes"] seven_tenths)
  /\ total (achieveConsensus print_json read_json [VStr "yes"; VStr "no"; VStr "yes"]
              seven_tenths)
     = total (achieveConsensus print_json read_json [VStr "no"; VStr "yes"; VStr "yes"]
                seven_tenths)
  /\ confidence (achieveConsensus print_json read_json [VStr "yes"; VStr "no"; VStr "yes"]
                   seven_tenths)
     = confidence (achieveConsensus print_json read_json [VStr "no"; VStr "yes"; VStr "yes"]
                     seven_tenths)
  /\ achieved (achieveConsensus print_json read_json [VStr "yes"; VStr "no"; VStr "yes"]
                 seven_tenths)
     = achieved (achieveConsensus print_json read_json [VStr "no"; VStr "yes"; VStr "yes"]
                   seven_tenths).
Proof.
  apply (achieveConsensus_order_independent print_json read_json
           [VStr "yes"; VStr "no"; VStr "yes"] [VStr "no"; VStr "yes"; VStr "yes"] seven_tenths).
  apply perm_swap.
Defined.

End Swarm.

(** ** The DAG scheduler (class [QUADManager]) *)
Module Quad.

(** *** Data model *)
Inductive NodeState : Type := pending | running | completed | failed.
Inductive DagState : Type := created | dag_running | dag_completed | dag_failed.

(** A node handler [(inputs, config) => result]: it returns, throws (or
    its promise rejects), or never settles. *)
Definition Handler : Type := value -> value -> outcome value.

Record Node : Type :=
  { node_id : string;
    node_name : string;
    node_type : string;
    handler : option Handler;
    node_config : value;
    node_state : NodeState;
    dependencies : list string;
    dependents : list string;
    node_result : value;
    node_error : option string }.

(** An entry of [spec.nodes]; [None] is an absent property. *)
Record NodeSpec : Type :=
  { ns_id : string;
    ns_name : option string;
    ns_type : option string;
    ns_handler : option Handler;
    ns_config : option value }.

Record Edge : Type := { from : string; to : string }.

Record DagSpec : Type :=
  { ds_id : option string;
    ds_name : option string;
    ds_nodes : option (list NodeSpec);
    ds_edges : option (list Edge) }.

Record DAG : Type :=
  { dag_id : string;
    dag_name : string;
    nodes : JsMap.t string Node;
    edges : list Edge;
    dag_state : DagState;
    results : JsMap.t string value;
    dag_createdAt : string }.

Record Metrics : Type := { dagsExecuted : nat; nodesExecuted : nat; parallelExecutions : nat }.

(** What [this.emit] announces. *)
Inductive Event : Type :=
| dag_created_event (dagId : string)
| dag_started (dagId : string)
| node_started (dagId nodeId : string)
| node_completed (dagId nodeId : string) (result : value)
| dag_completed_event (dagId : string) (results : value)
| dag_failed_event (dagId : string) (e : error).

(** The manager with [this.quad = null] and [this.qdag = null]: the optional
    packages are not part of the repository, and [executeDAG] then schedules
    the graph itself. *)
Record QUADManager : Type :=
  { dags : gmap string DAG;
    metrics : Metrics;
    events : list Event }.

(** The state a run works on: the graph object under execution with the
    manager's counters and event log. *)
Record Run : Type :=
  { run_dag : DAG;
    run_metrics : Metrics;
    run_events : list Event }.

(** *** Field updates of the mutable objects *)
Definition with_dependencies (n : Node) (l : list string) : Node :=
  {| node_id := node_id n; node_name := node_name n; node_type := node_type n;
     handler := handler n; node_config := node_config n; node_state := node_state n;
     dependencies := l; dependents := dependents n; node_result := node_result n;
     node_error := node_error n |}.

Definition with_dependents (n : Node) (l : list string) : Node :=
  {| node_id := node_id n; node_name := node_name n; node_type := node_type n;
     handler := handler n; node_config := node_config n; node_state := node_state n;
     dependencies := dependencies n; dependents := l; node_result := node_result n;
     node_error := node_error n |}.

Definition with_node_state (n : Node) (s : NodeState) : Node :=
  {| node_id := node_id n; node_name := node_name n; node_type := node_type n;
     handler := handler n; node_config := node_config n; node_state := s;
     dependencies := dependencies n; dependents := dependents n;
     node_result := node_result n; node_error := node_error n |}.

(** [node.state = 'completed'; node.result = result] *)
Definition complete_node (n : Node) (result : value) : Node :=
  {| node_id := node_id n; node_name := node_name n; node_type := node_type n;
     handler := handler n; node_config := node_config n; node_state := completed;
     dependencies := dependencies n; dependents := dependents n;
     node_result := result; node_error := node_error n |}.

(** [node.state = 'failed'; node.error = error.message] *)
Definition fail_node (n : Node) (e : error) : Node :=
  {| node_id := node_id n; node_name := node_name n; node_type := node_type n;
     handler := handler n; node_config := node_config n; node_state := failed;
     dependencies := dependencies n; dependents := dependents n;
     node_result := node_result n; node_error := Some (message e) |}.

Definition with_nodes (d : DAG) (m : JsMap.t string Node) : DAG :=
  {| dag_id := dag_id d; dag_name := dag_name d; nodes := m; edges := edges d;
     dag_state := dag_state d; results := results d; dag_createdAt := dag_createdAt d |}.

Definition with_edges (d : DAG) (l : list Edge) : DAG :=
  {| dag_id := dag_id d; dag_name := dag_name d; nodes := nodes d; edges := l;
     dag_state := dag_state d; results := results d; dag_createdAt := dag_createdAt d |}.

Definition with_dag_state (d : DAG) (s : DagState) : DAG :=
  {| dag_id := dag_id d; dag_name := dag_name d; nodes := nodes d; edges := edges d;
     dag_state := s; results := results d; dag_createdAt := dag_createdAt d |}.

Definition with_results (d : DAG) (r : JsMap.t string value) : DAG :=
  {| dag_id := dag_id d; dag_name := dag_name d; nodes := nodes d; edges := edges d;
     dag_state := dag_state d; results := r; dag_createdAt := dag_createdAt d |}.

(** The object [dag.nodes.get(k)] is updated in place. *)
Definition update_node (m : JsMap.t string Node) (k : string) (f : Node -> Node)
  : JsMap.t string Node :=
  match JsMap.get m k with
  | Some n => JsMap.set m k (f n)
  | None => m
  end.

(** *** [createDAG(spec)] *)

(** [dag.nodes.set(node.id, { ... })] *)
Definition add_node (m : JsMap.t string Node) (n : NodeSpec) : JsMap.t string Node :=
  JsMap.set m (ns_id n)
    {| node_id := ns_id n;
       node_name := str_or (ns_name n) (ns_id n);
       node_type := str_or (ns_type n) "task";
       handler := ns_handler n;
       node_config := match ns_config n with
                      | Some c => if truthy c then c else VObj []
                      | None => VObj []
                      end;
       node_state := pending;
       dependencies := [];
       dependents := [];
       node_result := VNull;
       node_error := None |}.

(** The body of [for (const edge of spec.edges || [])]: the edge is pushed
    on [dag.edges]; the dependency is recorded only [if (fromNode && toNode)].
    For a self-loop both pushes go to the same node object. *)
Definition add_edge (d : DAG) (e : Edge) : DAG :=
  let d1 := with_edges d (edges d ++ [e]) in
  match JsMap.get (nodes d) (from e), JsMap.get (nodes d) (to e) with
  | Some _, Some _ =>
      let m1 := update_node (nodes d) (to e)
                  (fun n => with_dependencies n (dependencies n ++ [from e])) in
      let m2 := update_node m1 (from e)
                  (fun n => with_dependents n (dependents n ++ [to e])) in
      with_nodes d1 m2
  | _, _ => d1
  end.

(** [now] is [Date.now()] in decimal and [iso] is [new Date().toISOString()].
    The method has no [throw]: it returns the graph, registered under its id. *)
Definition createDAG (m : QUADManager) (now iso : string) (spec : DagSpec) : DAG * QUADManager :=
  let dagId := str_or (ds_id spec) ("dag-" +:+ now) in
  let dag0 :=
    {| dag_id := dagId;
       dag_name := str_or (ds_name spec) dagId;
       nodes := fold_left add_node (default [] (ds_nodes spec)) JsMap.empty;
       edges := [];
       dag_state := created;
       results := JsMap.empty;
       dag_createdAt := iso |} in
  let dag := fold_left add_edge (default [] (ds_edges spec)) dag0 in
  (dag,
   {| dags := <[dagId := dag]> (dags m);
      metrics := metrics m;
      events := events m ++ [dag_created_event dagId] |}).

(** *** [topologicalSort(dag)] *)

(** A [for ... of] loop whose body may throw. *)
Fixpoint for_each {S : Type} (body : string -> S -> outcome S) (l : list string) (st : S)
  : outcome S :=
  match l with
  | [] => Ok st
  | x :: l' =>
      match body x st with
      | Ok st' => for_each body l' st'
      | Throw e => Throw e
      | Diverges => Diverges
      end
  end.

(** The recursive closure [visit]; the state is [(visited, result)].  The
    recursion is bounded by [fuel]; [topologicalSort_returns] shows that the
    bound chosen by [topologicalSort] is never reached.  A dependency that
    is not a node of the graph makes [node.dependencies] a [TypeError]. *)
Fixpoint visit (fuel : nat) (graph : JsMap.t string Node) (nodeId : string)
    (st : gset string * list string) : outcome (gset string * list string) :=
  match fuel with
  | 0 => Diverges
  | S fuel' =>
      if decide (nodeId ∈ st.1) then Ok st
      else
        match JsMap.get graph nodeId with
        | None => Throw (Error "Cannot read properties of undefined (reading 'dependencies')")
        | Some node =>
            match for_each (visit fuel' graph) (dependencies node) ({[nodeId]} ∪ st.1, st.2) with
            | Ok st' => Ok (st'.1, st'.2 ++ [nodeId])
            | Throw e => Throw e
            | Diverges => Diverges
            end
        end
  end.

Definition topologicalSort (d : DAG) : outcome (list string) :=
  match for_each (visit (S (JsMap.size (nodes d))) (nodes d)) (JsMap.keys (nodes d)) (∅, []) with
  | Ok st => Ok st.2
  | Throw e => Throw e
  | Diverges => Diverges
  end.

(** *** [executeNode(dag, nodeId)] *)
Section Execution.
(** The language-model gateway behind [fetch]: for the request built from
    [node.config] and the inputs, the message content or the error thrown
    ([LLM error: status], a failed [fetch], a malformed body). *)
Variable llm_gateway : value -> value -> outcome value.

(** [executeLLMNode(node, inputs)] *)
Definition executeLLMNode (node : Node) (inputs : value) : outcome value :=
  llm_gateway (node_config node) inputs.

(** The loop 'Wait for dependencies': the first dependency that is not
    completed throws; a dependency that is no node of the graph makes
    [depNode.state] a [TypeError]. *)
Fixpoint check_dependencies (d : DAG) (deps : list string) : option error :=
  match deps with
  | [] => None
  | depId :: rest =>
      match JsMap.get (nodes d) depId with
      | None => Some (Error "Cannot read properties of undefined (reading 'state')")
      | Some depNode =>
          match node_state depNode with
          | completed => check_dependencies d rest
          | _ => Some (Error ("Dependency " +:+ depId +:+ " not completed"))
          end
      end
  end.

(** [o[k] = v] on a plain object, given by its own properties.  The name
    becomes, or stays, an own property; only for [__proto__] that is no own
    property does the assignment reach the setter inherited from
    [Object.prototype], which adds no property (it replaces the prototype of
    [o] when [v] is an object or [null], and ignores any other value). *)
Definition set_property (o : JsMap.t string value) (k : string) (v : value)
  : JsMap.t string value :=
  if decide (k = "__proto__") then
    match JsMap.get o k with
    | Some _ => JsMap.set o k v
    | None => o
    end
  else JsMap.set o k v.

(** [inputs[depId] = dag.results.get(depId)] for each dependency, on the
    object [{}]: the own properties of [inputs]. *)
Definition gather_inputs (d : DAG) (deps : list string) : JsMap.t string value :=
  fold_left (fun inputs depId =>
               set_property inputs depId (default VUndefined (JsMap.get (results d) depId)))
            deps JsMap.empty.

(** [{ inputs, nodeId }] *)
Definition pass_through (inputs : JsMap.t string value) (nodeId : string) : value :=
  VObj [("inputs", VObj inputs); ("nodeId", VStr nodeId)].

(** The [if (node.handler) ... else if (node.type === 'llm') ... else ...]
    of the [try] block. *)
Definition invoke (node : Node) (inputs : JsMap.t string value) (nodeId : string)
  : outcome value :=
  match handler node with
  | Some h => h (VObj inputs) (node_config node)
  | None =>
      if decide (node_type node = "llm") then executeLLMNode node (VObj inputs)
      else Ok (pass_through inputs nodeId)
  end.

Definition count_node (x : Metrics) : Metrics :=
  {| dagsExecuted := dagsExecuted x; nodesExecuted := S (nodesExecuted x);
     parallelExecutions := parallelExecutions x |}.

Definition count_dag (x : Metrics) : Metrics :=
  {| dagsExecuted := S (dagsExecuted x); nodesExecuted := nodesExecuted x;
     parallelExecutions := parallelExecutions x |}.

Definition count_wave (x : Metrics) : Metrics :=
  {| dagsExecuted := dagsExecuted x; nodesExecuted := nodesExecuted x;
     parallelExecutions := S (parallelExecutions x) |}.

(** The state after [node.state = 'running'] and the 'node-started' event. *)
Definition start_node (r : Run) (nodeId : string) : Run :=
  {| run_dag := with_nodes (run_dag r)
                  (update_node (nodes (run_dag r)) nodeId (fun n => with_node_state n running));
     run_metrics := run_metrics r;
     run_events := run_events r ++ [node_started (dag_id (run_dag r)) nodeId] |}.

(** The state after the [try] block has run to its end. *)
Definition commit_node (r : Run) (nodeId : string) (result : value) : Run :=
  {| run_dag :=
       with_results
         (with_nodes (run_dag r)
            (update_node (nodes (run_dag r)) nodeId (fun n => complete_node n result)))
         (JsMap.set (results (run_dag r)) nodeId result);
     run_metrics := count_node (run_metrics r);
     run_events := run_events r ++ [node_completed (dag_id (run_dag r)) nodeId result] |}.

(** The state after the [catch] block. *)
Definition reject_node (r : Run) (nodeId : string) (e : error) : Run :=
  {| run_dag := with_nodes (run_dag r)
                  (update_node (nodes (run_dag r)) nodeId (fun n => fail_node n e));
     run_metrics := run_metrics r;
     run_events := run_events r |}.

Definition executeNode (nodeId : string) (r : Run) : outcome value * Run :=
  match JsMap.get (nodes (run_dag r)) nodeId with
  | None => (Throw (Error ("Node not found: " +:+ nodeId)), r)
  | Some node =>
      match check_dependencies (run_dag r) (dependencies node) with
      | Some e => (Throw e, r)
      | None =>
          let r1 := start_node r nodeId in
          match invoke node (gather_inputs (run_dag r1) (dependencies node)) nodeId with
          | Ok result => (Ok result, commit_node r1 nodeId result)
          | Throw e => (Throw e, reject_node r1 nodeId e)
          | Diverges => (Diverges, r1)
          end
      end
  end.

(** *** [executeDAG(dagSpec)] *)

(** [for (const nodeId of executionOrder) await this.executeNode(dag, nodeId)] *)
Fixpoint run_in_order (order : list string) (r : Run) : outcome unit * Run :=
  match order with
  | [] => (Ok tt, r)
  | nodeId :: rest =>
      match executeNode nodeId r with
      | (Ok _, r1) => run_in_order rest r1
      | (Throw e, r1) => (Throw e, r1)
      | (Diverges, r1) => (Diverges, r1)
      end
  end.

(** [Object.fromEntries(dag.results)] *)
Definition results_object (d : DAG) : value := VObj (JsMap.entries (results d)).

Definition with_run_dag_state (r : Run) (s : DagState) : Run :=
  {| run_dag := with_dag_state (run_dag r) s;
     run_metrics := run_metrics r;
     run_events := run_events r |}.

(** The [try] block of [executeDAG]. *)
Definition sort_and_run (r : Run) : outcome value * Run :=
  match topologicalSort (run_dag r) with
  | Ok executionOrder =>
      match run_in_order executionOrder r with
      | (Ok _, r1) =>
          (Ok (results_object (run_dag r1)),
           {| run_dag := with_dag_state (run_dag r1) dag_completed;
              run_metrics := count_dag (run_metrics r1);
              run_events := run_events r1
                            ++ [dag_completed_event (dag_id (run_dag r1))
                                  (results_object (run_dag r1))] |})
      | (Throw e, r1) => (Throw e, r1)
      | (Diverges, r1) => (Diverges, r1)
      end
  | Throw e => (Throw e, r)
  | Diverges => (Diverges, r)
  end.

(** From [dag.state = 'running'] to the end of [try ... catch]. *)
Definition run_dag_to_end (r : Run) : outcome value * Run :=
  let r0 := {| run_dag := with_dag_state (run_dag r) dag_running;
               run_metrics := run_metrics r;
               run_events := run_events r ++ [dag_started (dag_id (run_dag r))] |} in
  match sort_and_run r0 with
  | (Throw e, r1) =>
      (Throw e,
       {| run_dag := with_dag_state (run_dag r1) dag_failed;
          run_metrics := run_metrics r1;
          run_events := run_events r1 ++ [dag_failed_event (dag_id (run_dag r1)) e] |})
  | other => other
  end.

(** The argument of [executeDAG]: a graph id (a string) or a specification. *)
Inductive DagInput : Type :=
| by_id (dagId : string)
| by_spec (spec : DagSpec).

(** The graph [executeDAG] works on, with the manager after [createDAG]
    when a specification was given, and the key it is registered under. *)
Definition resolve (m : QUADManager) (now iso : string) (input : DagInput)
  : option (string * DAG * QUADManager) :=
  match input with
  | by_id dagId => (fun d => (dagId, d, m)) <$> dags m !! dagId
  | by_spec spec => let '(d, m') := createDAG m now iso spec in Some (dag_id d, d, m')
  end.

(** The graph is the object held by the registry, so the registry shows
    the graph as the run left it. *)
Definition executeDAG (m : QUADManager) (now iso : string) (input : DagInput)
  : outcome value * QUADManager :=
  match resolve m now iso input with
  | None => (Throw (Error "DAG not found"), m)
  | Some (key, d, m0) =>
      let '(out, r) :=
        run_dag_to_end {| run_dag := d; run_metrics := metrics m0; run_events := events m0 |} in
      (out,
       {| dags := <[key := run_dag r]> (dags m0);
          metrics := run_metrics r;
          events := run_events r |})
  end.

(** *** [executeParallel(dag)] *)

(** [executeNode] up to its first [await].  The lookup, the dependency
    check, [node.state = 'running'], 'node-started' and the gathering of the
    inputs run at once.  A node with a handler, or of type 'llm', then
    awaits the call; any other node completes on the spot. *)
Inductive Call : Type :=
| settled (out : outcome value)
| awaited (out : outcome value).

Definition awaits (node : Node) : bool :=
  match handler node with
  | Some _ => true
  | None => bool_decide (node_type node = "llm")
  end.

Definition begin_node (nodeId : string) (r : Run) : Call * Run :=
  match JsMap.get (nodes (run_dag r)) nodeId with
  | None => (settled (Throw (Error ("Node not found: " +:+ nodeId))), r)
  | Some node =>
      match check_dependencies (run_dag r) (dependencies node) with
      | Some e => (settled (Throw e), r)
      | None =>
          let r1 := start_node r nodeId in
          let out := invoke node (gather_inputs (run_dag r1) (dependencies node)) nodeId in
          if awaits node then (awaited out, r1)
          else
            match out with
            | Ok result => (settled (Ok result), commit_node r1 nodeId result)
            | Throw e => (settled (Throw e), reject_node r1 nodeId e)
            | Diverges => (settled Diverges, r1)
            end
      end
  end.

(** The rest of [executeNode], once the awaited call has settled. *)
Definition finish_node (nodeId : string) (call : Call) (r : Run) : outcome value * Run :=
  match call with
  | settled out => (out, r)
  | awaited (Ok result) => (Ok result, commit_node r nodeId result)
  | awaited (Throw e) => (Throw e, reject_node r nodeId e)
  | awaited Diverges => (Diverges, r)
  end.

(** [ready.map(async nodeId => ...)]: the calls begin in the order of
    [ready], each up to its first [await]. *)
Fixpoint begin_all (ready : list string) (r : Run) : list (string * Call) * Run :=
  match ready with
  | [] => ([], r)
  | nodeId :: rest =>
      let '(call, r1) := begin_node nodeId r in
      let '(calls, r2) := begin_all rest r1 in
      ((nodeId, call) :: calls, r2)
  end.

(** The awaited calls settle, taken in the order in which they began;
    each node runs to its end whatever happens to the others. *)
Fixpoint finish_all (calls : list (string * Call)) (r : Run) : outcome unit * Run :=
  match calls with
  | [] => (Ok tt, r)
  | (nodeId, call) :: rest =>
      let '(out, r1) := finish_node nodeId call r in
      let '(out', r2) := finish_all rest r1 in
      (match out, out' with
       | Throw e, _ => Throw e
       | Ok _, o => o
       | Diverges, Throw e => Throw e
       | Diverges, _ => Diverges
       end, r2)
  end.

(** [Promise.all(ready.map(async nodeId => ...))]: the wave rejects with
    the first failure in the order of the calls, and otherwise does not
    settle while a node does not.  The run state is the one reached when
    every node of the wave has settled: a rejection reaches the caller
    without stopping the other nodes of the wave. *)
Definition run_wave (ready : list string) (r : Run) : outcome unit * Run :=
  let '(calls, r1) := begin_all ready r in finish_all calls r1.

(** The nodes 'ready to execute': neither completed nor in progress, with
    every dependency completed. *)
Definition ready_nodes (d : DAG) (done inProgress : gset string) : list string :=
  (List.filter (fun entry : string * Node =>
                  negb (bool_decide (entry.1 ∈ done) || bool_decide (entry.1 ∈ inProgress))
                  && forallb (fun dep => bool_decide (dep ∈ done)) (dependencies entry.2))
               (JsMap.entries (nodes d))).*1.

(** The [while (completed.size < dag.nodes.size)] loop; [done] is the
    source's set [completed].  [inProgress] is empty at every test of the
    loop condition, each wave being awaited in full.  An iteration with no
    ready node and a node in progress would spin for ever; [fuel] bounds
    the iterations of the model ([executeParallel_settles]). *)
Fixpoint parallel_loop (fuel : nat) (done inProgress : gset string) (r : Run)
  : outcome unit * Run :=
  match fuel with
  | 0 => (Diverges, r)
  | S fuel' =>
      if decide (size done < JsMap.size (nodes (run_dag r))) then
        match ready_nodes (run_dag r) done inProgress with
        | [] =>
            if decide (size inProgress = 0)
            then (Throw (Error "DAG has circular dependencies or unreachable nodes"), r)
            else (Diverges, r)
        | ready =>
            let r1 := {| run_dag := run_dag r;
                         run_metrics := count_wave (run_metrics r);
                         run_events := run_events r |} in
            match run_wave ready r1 with
            | (Ok _, r2) =>
                parallel_loop fuel' (done ∪ list_to_set ready)
                  ((inProgress ∪ list_to_set ready) ∖ list_to_set ready) r2
            | (Throw e, r2) => (Throw e, r2)
            | (Diverges, r2) => (Diverges, r2)
            end
        end
      else (Ok tt, r)
  end.

Definition executeParallel (r : Run) : outcome unit * Run :=
  parallel_loop (S (JsMap.size (nodes (run_dag r)))) ∅ ∅ r.

(** *** Properties of [createDAG] *)

Lemma get_update_node m k f x :
  JsMap.get (update_node m k f) x
  = if decide (k = x) then f <$> JsMap.get m x else JsMap.get m x.
Proof.
  unfold update_node. destruct (JsMap.get m k) as [n |] eqn:Hk.
  - destruct (decide (k = x)) as [<- | Hne].
    + rewrite JsMap.get_set_eq, Hk. reflexivity.
    + apply JsMap.get_set_ne. assumption.
  - destruct (decide (k = x)) as [<- | Hne]; [rewrite Hk |]; reflexivity.
Qed.

Lemma keys_update_node m k f : JsMap.keys (update_node m k f) = JsMap.keys m.
Proof.
  unfold update_node. destruct (JsMap.get m k) as [n |] eqn:Hk; [| reflexivity].
  apply JsMap.keys_set_in. apply (JsMap.get_Some_keys m k n Hk).
Qed.

Lemma size_update_node m k f : JsMap.size (update_node m k f) = JsMap.size m.
Proof.
  unfold JsMap.size. rewrite <- !(length_fmap fst). apply (f_equal length (keys_update_node m k f)).
Qed.

(** The ids declared by [spec.nodes]. *)
Definition declared (spec : DagSpec) : list string := ns_id <$> default [] (ds_nodes spec).

Lemma add_nodes_keys (l : list NodeSpec) :
  forall x, x ∈ JsMap.keys (fold_left add_node l JsMap.empty) <-> x ∈ ns_id <$> l.
Proof.
  induction l as [| n l IH] using rev_ind; intros x.
  - simpl. split; intros H; inversion H.
  - rewrite fold_left_app, fmap_app. simpl. unfold add_node at 1.
    rewrite JsMap.keys_set_elem, elem_of_app, list_elem_of_singleton, IH. tauto.
Qed.

Lemma add_nodes_fresh (l : list NodeSpec) x node :
  JsMap.get (fold_left add_node l JsMap.empty) x = Some node ->
  dependencies node = [] /\ dependents node = [].
Proof.
  induction l as [| n l IH] using rev_ind; [discriminate |].
  rewrite fold_left_app. simpl. unfold add_node at 1.
  destruct (decide (ns_id n = x)) as [<- | Hne].
  - rewrite JsMap.get_set_eq. intros [= <-]. split; reflexivity.
  - rewrite JsMap.get_set_ne by assumption. apply IH.
Qed.

(** What the edge loop of [createDAG] has recorded after the edges [es]. *)
Definition edges_recorded (ids : list string) (es : list Edge) (d : DAG) : Prop :=
  edges d = es
  /\ (forall x, x ∈ JsMap.keys (nodes d) <-> x ∈ ids)
  /\ (forall x node, JsMap.get (nodes d) x = Some node ->
        dependencies node = from <$> filter (fun e => to e = x /\ from e ∈ ids) es
        /\ dependents node = to <$> filter (fun e => from e = x /\ to e ∈ ids) es).

Lemma add_edge_recorded ids es d e :
  edges_recorded ids es d -> edges_recorded ids (es ++ [e]) (add_edge d e).
Proof.
  intros (Hedges & Hkeys & Hnodes).
  assert (forall k, JsMap.get (nodes d) k = None <-> k ∉ ids) as Hnone.
  { intros k. rewrite JsMap.get_None_keys, Hkeys. reflexivity. }
  unfold add_edge.
  destruct (JsMap.get (nodes d) (from e)) as [nf |] eqn:Hf;
    [destruct (JsMap.get (nodes d) (to e)) as [nt |] eqn:Ht |].
  - assert (from e ∈ ids) as Hfi by (apply Hkeys; eapply JsMap.get_Some_keys; eauto).
    assert (to e ∈ ids) as Hti by (apply Hkeys; eapply JsMap.get_Some_keys; eauto).
    split; [simpl; rewrite Hedges; reflexivity |]. split.
    + intros x. simpl. rewrite !keys_update_node. apply Hkeys.
    + intros x node. simpl. rewrite !get_update_node.
      destruct (JsMap.get (nodes d) x) as [n0 |] eqn:Hx;
        [| destruct (decide (from e = x)), (decide (to e = x)); discriminate].
      destruct (Hnodes x n0 Hx) as [Hd Hs].
      rewrite !filter_app, !fmap_app, !filter_cons, !filter_nil.
      destruct (decide (from e = x)) as [Hfx | Hfx], (decide (to e = x)) as [Htx | Htx];
        simpl; intros [= <-]; simpl; rewrite Hd, Hs.
      * rewrite !decide_True by auto. split; reflexivity.
      * rewrite decide_False by tauto. rewrite decide_True by auto.
        rewrite app_nil_r. split; reflexivity.
      * rewrite decide_True by auto. rewrite decide_False by tauto.
        rewrite app_nil_r. split; reflexivity.
      * rewrite !decide_False by tauto. rewrite !app_nil_r. split; reflexivity.
  - apply Hnone in Ht.
    split; [simpl; rewrite Hedges; reflexivity |]. split; [apply Hkeys |].
    intros x node Hx. simpl in Hx. destruct (Hnodes x node Hx) as [Hd Hs].
    rewrite !filter_app, !fmap_app, !filter_cons, !filter_nil, Hd, Hs.
    assert (to e <> x) as Hne.
    { intros Heq. rewrite Heq in Ht. apply Ht, Hkeys. eapply JsMap.get_Some_keys; eauto. }
    rewrite !decide_False by tauto. rewrite !app_nil_r. split; reflexivity.
  - apply Hnone in Hf.
    split; [simpl; rewrite Hedges; reflexivity |]. split; [apply Hkeys |].
    intros x node Hx. simpl in Hx. destruct (Hnodes x node Hx) as [Hd Hs].
    rewrite !filter_app, !fmap_app, !filter_cons, !filter_nil, Hd, Hs.
    assert (from e <> x) as Hne.
    { intros Heq. rewrite Heq in Hf. apply Hf, Hkeys. eapply JsMap.get_Some_keys; eauto. }
    rewrite !decide_False by tauto. rewrite !app_nil_r. split; reflexivity.
Qed.

Lemma add_edges_recorded ids (es : list Edge) d :
  edges_recorded ids [] d -> edges_recorded ids es (fold_left add_edge es d).
Proof.
  intros H0. induction es as [| e es IH] using rev_ind; [assumption |].
  rewrite fold_left_app. simpl. apply add_edge_recorded, IH.
Qed.

(** C2, as the code has it: [createDAG] validates nothing and cannot fail.
    For every specification it returns the graph, registered under its id,
    with every edge of the specification in [edges]; an edge adds [from] to
    the dependencies of [to] (and [to] to the dependents of [from]) exactly
    when both endpoints are declared nodes, so an edge with an undeclared
    endpoint is kept in [edges] and ignored by the scheduler. *)
Theorem createDAG_records_declared_edges_only (m : QUADManager) (now iso : string)
    (spec : DagSpec) :
  dags (createDAG m now iso spec).2 !! dag_id (createDAG m now iso spec).1
    = Some (createDAG m now iso spec).1
  /\ edges (createDAG m now iso spec).1 = default [] (ds_edges spec)
  /\ (forall x, x ∈ JsMap.keys (nodes (createDAG m now iso spec).1) <-> x ∈ declared spec)
  /\ (forall x node,
        JsMap.get (nodes (createDAG m now iso spec).1) x = Some node ->
        dependencies node
        = from <$> filter (fun e => to e = x /\ from e ∈ declared spec)
                     (default [] (ds_edges spec))
        /\ dependents node
           = to <$> filter (fun e => from e = x /\ to e ∈ declared spec)
                      (default [] (ds_edges spec))).
Proof.
  unfold createDAG. cbn [fst snd dags].
  set (dagId := str_or (ds_id spec) ("dag-" +:+ now)).
  set (dag0 := {| dag_id := dagId; dag_name := _; nodes := _; edges := []; dag_state := created;
                  results := JsMap.empty; dag_createdAt := iso |}).
  assert (edges_recorded (declared spec) [] dag0) as H0.
  { split; [reflexivity |]. split.
    - intros x. apply add_nodes_keys.
    - intros x node Hx. apply add_nodes_fresh in Hx as [-> ->]. split; reflexivity. }
  pose proof (add_edges_recorded _ (default [] (ds_edges spec)) dag0 H0) as (He & Hk & Hn).
  split; [| auto].
  assert (forall es d, dag_id (fold_left add_edge es d) = dag_id d) as Hid.
  { intros es. induction es as [| e es IH]; intros d; [reflexivity |].
    simpl. rewrite IH. unfold add_edge.
    destruct (JsMap.get (nodes d) (from e)), (JsMap.get (nodes d) (to e)); reflexivity. }
  rewrite Hid. simpl. apply lookup_insert_eq.
Qed.

Lemma add_edge_keys (d : DAG) (e : Edge) :
  JsMap.keys (nodes (add_edge d e)) = JsMap.keys (nodes d).
Proof.
  unfold add_edge.
  destruct (JsMap.get (nodes d) (from e)), (JsMap.get (nodes d) (to e)); try reflexivity.
  simpl. rewrite !keys_update_node. reflexivity.
Qed.

(** The node map of a graph made by [createDAG] has one entry per id. *)
Lemma createDAG_keys_NoDup (m : QUADManager) (now iso : string) (spec : DagSpec) :
  NoDup (JsMap.keys (nodes (createDAG m now iso spec).1)).
Proof.
  unfold createDAG. cbn [fst].
  set (dag0 := {| dag_id := _; dag_name := _; nodes := _; edges := []; dag_state := created;
                  results := JsMap.empty; dag_createdAt := iso |}).
  assert (NoDup (JsMap.keys (nodes dag0))) as H0.
  { unfold dag0. cbn [nodes].
    induction (default [] (ds_nodes spec)) as [| n l IH] using rev_ind; [apply NoDup_nil_2 |].
    rewrite fold_left_app. simpl. unfold add_node at 1. apply JsMap.keys_set_NoDup, IH. }
  revert H0. generalize dag0.
  induction (default [] (ds_edges spec)) as [| e es IH]; intros d Hd; [assumption |].
  simpl. apply IH. rewrite add_edge_keys. assumption.
Qed.

(** *** [topologicalSort] returns: the bound on the recursion is not reached *)

(** The nodes of [ks] that [visit] has not entered yet. *)
Definition unvisited (ks : list string) (visited : gset string) : nat :=
  length (filter (fun k => k ∉ visited) ks).

Lemma unvisited_mono ks (V V' : gset string) : V ⊆ V' -> unvisited ks V' <= unvisited ks V.
Proof.
  intros Hsub. unfold unvisited. induction ks as [| k ks IH]; [reflexivity |].
  rewrite !filter_cons.
  destruct (decide (k ∉ V')) as [Hk' | Hk'], (decide (k ∉ V)) as [Hk | Hk]; simpl; try lia.
  exfalso. apply Hk. intros Hin. apply Hk'. apply Hsub, Hin.
Qed.

Lemma unvisited_add ks (V : gset string) n :
  n ∈ ks -> n ∉ V -> unvisited ks ({[n]} ∪ V) < unvisited ks V.
Proof.
  intros Hin Hn. unfold unvisited. induction ks as [| k ks IH]; [inversion Hin |].
  pose proof (unvisited_mono ks V ({[n]} ∪ V)) as Hmono. unfold unvisited in Hmono.
  rewrite !filter_cons.
  destruct (decide (k = n)) as [-> | Hne].
  - rewrite decide_False by set_solver. rewrite decide_True by assumption.
    simpl. assert (V ⊆ {[n]} ∪ V) by set_solver. specialize (Hmono H). lia.
  - apply elem_of_cons in Hin as [-> | Hin]; [congruence |]. specialize (IH Hin).
    destruct (decide (k ∉ V)) as [Hk | Hk].
    + rewrite decide_True by set_solver. simpl. lia.
    + rewrite decide_False by set_solver. assumption.
Qed.

Lemma for_each_visit_returns (f : string -> gset string * list string
                                   -> outcome (gset string * list string))
    (ks : list string) (bound : nat) :
  (forall n st, unvisited ks st.1 < bound ->
     f n st <> Diverges /\ (forall st', f n st = Ok st' -> st.1 ⊆ st'.1)) ->
  forall l st, unvisited ks st.1 < bound ->
    for_each f l st <> Diverges /\ (forall st', for_each f l st = Ok st' -> st.1 ⊆ st'.1).
Proof.
  intros Hf l. induction l as [| n l IH]; intros st Hst; simpl.
  - split; [discriminate |]. intros st' [= <-]. reflexivity.
  - destruct (Hf n st Hst) as [Hnd Hsub]. destruct (f n st) as [st1 | e |] eqn:Hn.
    + specialize (Hsub st1 eq_refl).
      destruct (IH st1) as [Hnd' Hsub'].
      { pose proof (unvisited_mono ks _ _ Hsub). lia. }
      split; [assumption |]. intros st' Hst'. specialize (Hsub' st' Hst'). set_solver.
    + split; [discriminate | discriminate].
    + congruence.
Qed.

Lemma visit_returns (graph : JsMap.t string Node) (fuel : nat) : forall n st,
  unvisited (JsMap.keys graph) st.1 < fuel ->
  visit fuel graph n st <> Diverges
  /\ (forall st', visit fuel graph n st = Ok st' -> st.1 ⊆ st'.1).
Proof.
  induction fuel as [| fuel IH]; intros n st Hst; [lia |]. simpl.
  destruct (decide (n ∈ st.1)) as [Hin | Hn].
  - split; [discriminate |]. intros st' [= <-]. reflexivity.
  - destruct (JsMap.get graph n) as [node |] eqn:Hnode; [| split; discriminate].
    pose proof (unvisited_add (JsMap.keys graph) st.1 n
                  (JsMap.get_Some_keys _ _ _ Hnode) Hn) as Hlt.
    destruct (for_each_visit_returns (visit fuel graph) (JsMap.keys graph) fuel IH
                (dependencies node) ({[n]} ∪ st.1, st.2)) as [Hnd Hsub]; [simpl; lia |].
    destruct (for_each (visit fuel graph) (dependencies node) ({[n]} ∪ st.1, st.2))
      as [st1 | e |] eqn:Hdeps; [| split; discriminate | congruence].
    split; [discriminate |]. intros st' [= <-]. simpl.
    specialize (Hsub st1 eq_refl). simpl in Hsub. set_solver.
Qed.

(** [topologicalSort] returns an order or throws, for every graph (cyclic
    ones included: a node is marked visited before its dependencies are). *)
Lemma topologicalSort_returns (d : DAG) : topologicalSort d <> Diverges.
Proof.
  unfold topologicalSort.
  destruct (for_each_visit_returns (visit (S (JsMap.size (nodes d))) (nodes d))
              (JsMap.keys (nodes d)) (S (JsMap.size (nodes d))) (visit_returns (nodes d) _)
              (JsMap.keys (nodes d)) (∅, [])) as [Hnd _].
  - unfold unvisited, JsMap.size, JsMap.keys. cbn [fst].
    eapply Nat.le_lt_trans; [apply length_filter |]. rewrite length_fmap. lia.
  - destruct (for_each _ _ _); [discriminate | discriminate | congruence].
Qed.

(** *** Properties of [executeNode] *)

(** Every dependency of the node is a completed node of the graph. *)
Definition dependencies_completed (d : DAG) (node : Node) : Prop :=
  forall dep, dep ∈ dependencies node ->
    exists depNode, JsMap.get (nodes d) dep = Some depNode /\ node_state depNode = completed.

Lemma check_dependencies_completed d deps :
  (forall dep, dep ∈ deps ->
     exists depNode, JsMap.get (nodes d) dep = Some depNode /\ node_state depNode = completed) ->
  check_dependencies d deps = None.
Proof.
  induction deps as [| dep deps IH]; intros Hall; simpl; [reflexivity |].
  destruct (Hall dep) as (depNode & -> & ->); [left |].
  apply IH. intros dep' Hin. apply Hall. right. assumption.
Qed.





(** *** Properties of [executeDAG] *)





(** The run state at [dag.state = 'running'], after 'dag-started'. *)
Definition started (d : DAG) (m : QUADManager) : Run :=
  {| run_dag := with_dag_state d dag_running;
     run_metrics := metrics m;
     run_events := events m ++ [dag_started (dag_id d)] |}.


(** *** Properties of [executeParallel] *)

(** The error of the wave scheduler: the spec's CyclicDependencyError. *)
Definition circular_dependencies : error :=
  Error "DAG has circular dependencies or unreachable nodes".

(** A node can be completed when it is a node of the graph and all its
    dependencies can be completed. *)
Inductive completable (graph : JsMap.t string Node) : string -> Prop :=
| completable_node (n : string) (node : Node) :
    JsMap.get graph n = Some node ->
    (forall dep, dep ∈ dependencies node -> completable graph dep) ->
    completable graph n.

(** [depends_on graph n k]: a non-empty chain of dependencies leads from [n]
    to [k]. *)
Inductive depends_on (graph : JsMap.t string Node) : string -> string -> Prop :=
| depends_direct (n : string) (node : Node) (dep : string) :
    JsMap.get graph n = Some node -> dep ∈ dependencies node -> depends_on graph n dep
| depends_step (n : string) (node : Node) (dep k : string) :
    JsMap.get graph n = Some node -> dep ∈ dependencies node ->
    depends_on graph dep k -> depends_on graph n k.

(** The nodes contain a dependency cycle. *)
Definition cyclic (graph : JsMap.t string Node) : Prop := exists n, depends_on graph n n.


(** The node's handler (or the gateway, or the pass-through) returns a
    result whatever its inputs. *)
Definition always_returns (node : Node) : Prop :=
  forall inputs nodeId, exists v, invoke node inputs nodeId = Ok v.

Lemma depends_on_trans graph n m k :
  depends_on graph n m -> depends_on graph m k -> depends_on graph n k.
Proof.
  intros Hnm Hmk. induction Hnm as [n node dep Hn Hdep | n node dep m Hn Hdep Hrest IH].
  - eapply depends_step; eauto.
  - eapply depends_step; eauto.
Qed.

Lemma completable_acyclic graph n : completable graph n -> ~ depends_on graph n n.
Proof.
  intros Hc. induction Hc as [n node Hn Hdeps IH]. intros Hcycle.
  inversion Hcycle as [n' node' dep Hn' Hdep | n' node' dep k Hn' Hdep Hrest]; subst.
  - rewrite Hn in Hn'. injection Hn' as <-. apply (IH n Hdep). assumption.
  - rewrite Hn in Hn'. injection Hn' as <-. apply (IH dep Hdep).
    eapply depends_on_trans; [eassumption |]. eapply depends_direct; eauto.
Qed.


(** What the waves preserve: the graph keeps the nodes, dependencies and
    handlers of [graph0], and the nodes of [done] are completed. *)
Definition wave_invariant (graph0 : JsMap.t string Node) (done : gset string) (r : Run) : Prop :=
  JsMap.keys (nodes (run_dag r)) = JsMap.keys graph0
  /\ (forall n, dependencies <$> JsMap.get (nodes (run_dag r)) n
                = dependencies <$> JsMap.get graph0 n)
  /\ (forall n node, JsMap.get (nodes (run_dag r)) n = Some node -> always_returns node)
  /\ (forall n, n ∈ done ->
        exists node, JsMap.get (nodes (run_dag r)) n = Some node
                     /\ node_state node = completed).

Lemma executeNode_returns graph0 (done : gset string) (r : Run) (n : string) (node : Node) :
  wave_invariant graph0 done r ->
  JsMap.get (nodes (run_dag r)) n = Some node ->
  (forall dep, dep ∈ dependencies node -> dep ∈ done) ->
  exists v r', executeNode n r = (Ok v, r')
               /\ run_metrics r' = count_node (run_metrics r)
               /\ wave_invariant graph0 (done ∪ {[n]}) r'.
Proof.
  intros (Hkeys & Hdeps & Hret & Hdone) Hnode Hin.
  unfold executeNode. rewrite Hnode.
  rewrite check_dependencies_completed by (intros dep Hdep; apply Hdone, Hin, Hdep).
  destruct (Hret n node Hnode (gather_inputs (run_dag (start_node r n)) (dependencies node)) n)
    as [v ->].
  eexists _, _. split; [reflexivity |]. split; [reflexivity |].
  unfold wave_invariant, commit_node, start_node.
  cbn [run_dag nodes with_results with_nodes].
  split; [| split; [| split]].
  - rewrite !keys_update_node. assumption.
  - intros k. rewrite !get_update_node. rewrite <- Hdeps.
    destruct (decide (n = k)) as [-> | Hne]; [| reflexivity].
    destruct (JsMap.get (nodes (run_dag r)) k); reflexivity.
  - intros k nk. rewrite !get_update_node.
    destruct (decide (n = k)) as [<- | Hne]; [| apply Hret].
    rewrite Hnode. intros [= <-]. intros inputs nodeId. apply (Hret n node Hnode).
  - intros k Hk. rewrite !get_update_node.
    destruct (decide (n = k)) as [<- | Hne].
    + rewrite Hnode. eexists. split; reflexivity.
    + apply Hdone. set_solver.
Qed.

Lemma wave_invariant_mono graph0 (done done' : gset string) r :
  wave_invariant graph0 done r -> done' ⊆ done -> wave_invariant graph0 done' r.
Proof.
  intros (Hkeys & Hdeps & Hret & Hdone) Hsub. repeat split; auto.
Qed.

Lemma ready_nodes_spec (d : DAG) (done inProgress : gset string) (n : string) :
  NoDup (JsMap.keys (nodes d)) ->
  n ∈ ready_nodes d done inProgress ->
  (n ∉ done)
  /\ exists node, JsMap.get (nodes d) n = Some node
                  /\ forall dep, dep ∈ dependencies node -> dep ∈ done.
Proof.
  intros Hnd Hn. unfold ready_nodes in Hn.
  apply list_elem_of_fmap in Hn as ([k node] & -> & Hin).
  apply list_elem_of_In, List.filter_In in Hin as [Hin Hcond]. simpl in *.
  apply andb_prop in Hcond as [Hnot Hall].
  apply negb_true_iff, orb_false_iff in Hnot as [Hnot _].
  apply bool_decide_eq_false in Hnot. split; [assumption |].
  exists node. split.
  - apply JsMap.get_of_entry; [assumption |]. apply list_elem_of_In. assumption.
  - intros dep Hdep. rewrite List.forallb_forall in Hall.
    apply list_elem_of_In in Hdep. specialize (Hall dep Hdep).
    apply bool_decide_eq_true in Hall. assumption.
Qed.

(** [executeNode], awaited by its caller, is the call begun and finished. *)
Lemma executeNode_begin_finish (nodeId : string) (r : Run) :
  executeNode nodeId r = finish_node nodeId (begin_node nodeId r).1 (begin_node nodeId r).2.
Proof.
  unfold executeNode, begin_node.
  destruct (JsMap.get (nodes (run_dag r)) nodeId) as [node |]; [| reflexivity].
  destruct (check_dependencies (run_dag r) (dependencies node)); [reflexivity |].
  cbv zeta. destruct (awaits node);
    destruct (invoke node _ nodeId) as [v | e |]; reflexivity.
Qed.

(** **** A wave of nodes that return *)

(** The node keeps what [createDAG] gave it, state and result apart. *)
Definition same_code (node node0 : Node) : Prop :=
  dependencies node = dependencies node0 /\ handler node = handler node0
  /\ node_type node = node_type node0 /\ node_config node = node_config node0.

(** What the waves preserve: the graph keeps the nodes of [graph0] with
    their dependencies and handlers, and each node of [done] is completed
    with its result in the results map. *)
Definition wave_state (graph0 : JsMap.t string Node) (done : gset string) (r : Run) : Prop :=
  JsMap.keys (nodes (run_dag r)) = JsMap.keys graph0
  /\ (forall n node0, JsMap.get graph0 n = Some node0 ->
        exists node, JsMap.get (nodes (run_dag r)) n = Some node /\ same_code node node0)
  /\ (forall n, n ∈ done ->
        exists node, JsMap.get (nodes (run_dag r)) n = Some node
                     /\ node_state node = completed
                     /\ JsMap.get (results (run_dag r)) n = Some (node_result node)).

Lemma wave_state_mono graph0 (done done' : gset string) r :
  wave_state graph0 done r -> done' ⊆ done -> wave_state graph0 done' r.
Proof.
  intros (Hkeys & Hcode & Hdone) Hsub. split; [assumption |]. split; [assumption |].
  intros n Hn. apply Hdone, Hsub, Hn.
Qed.

Lemma wave_state_initial (r : Run) : wave_state (nodes (run_dag r)) ∅ r.
Proof.
  split; [reflexivity |]. split.
  - intros n node0 Hn. exists node0. split; [assumption |]. repeat split.
  - intros n Hn. apply elem_of_empty in Hn. destruct Hn.
Qed.

Lemma start_node_wave_state graph0 (done : gset string) r n :
  wave_state graph0 done r -> n ∉ done -> wave_state graph0 done (start_node r n).
Proof.
  intros (Hkeys & Hcode & Hdone) Hn. unfold wave_state, start_node.
  cbn [run_dag nodes results with_nodes]. split; [| split].
  - rewrite keys_update_node. assumption.
  - intros k node0 Hk. destruct (Hcode k node0 Hk) as (node & Hnode & Hsame).
    rewrite get_update_node, Hnode. destruct (decide (n = k)); eexists; split; eauto.
  - intros k Hk. rewrite get_update_node.
    rewrite decide_False by (intros ->; contradiction). apply Hdone, Hk.
Qed.

Lemma commit_node_wave_state graph0 (done : gset string) r n v :
  wave_state graph0 done r -> n ∈ JsMap.keys graph0 ->
  wave_state graph0 (done ∪ {[n]}) (commit_node r n v).
Proof.
  intros (Hkeys & Hcode & Hdone) Hn. unfold wave_state, commit_node.
  cbn [run_dag nodes results with_results with_nodes]. split; [| split].
  - rewrite keys_update_node. assumption.
  - intros k node0 Hk. destruct (Hcode k node0 Hk) as (node & Hnode & Hsame).
    rewrite get_update_node, Hnode. destruct (decide (n = k)); eexists; split; eauto.
  - intros k Hk. rewrite get_update_node. destruct (decide (n = k)) as [<- | Hne].
    + destruct (JsMap.get graph0 n) as [node0 |] eqn:Hn0;
        [| apply JsMap.get_None_keys in Hn0; contradiction].
      destruct (Hcode n node0 Hn0) as (node & -> & _). cbn.
      eexists. split; [reflexivity |]. split; [reflexivity |]. apply JsMap.get_set_eq.
    + rewrite JsMap.get_set_ne by assumption. apply Hdone. set_solver.
Qed.

Lemma always_returns_same_code (node node0 : Node) :
  same_code node node0 -> always_returns node0 -> always_returns node.
Proof.
  intros (_ & Hh & Ht & Hc) Hret inputs nodeId. specialize (Hret inputs nodeId).
  unfold invoke, executeLLMNode in *. rewrite Hh, Ht, Hc. assumption.
Qed.

(** A ready node that returns has begun, and is either completed already
    or awaiting a call that returns. *)
Lemma begin_node_returns graph0 (done : gset string) r n node0 :
  wave_state graph0 done r ->
  JsMap.get graph0 n = Some node0 ->
  n ∉ done ->
  (forall dep, dep ∈ dependencies node0 -> dep ∈ done) ->
  always_returns node0 ->
  exists call r1,
    begin_node n r = (call, r1)
    /\ (((exists v, call = settled (Ok v))
         /\ wave_state graph0 (done ∪ {[n]}) r1
         /\ run_metrics r1 = count_node (run_metrics r))
        \/ ((exists v, call = awaited (Ok v))
            /\ wave_state graph0 done r1
            /\ run_metrics r1 = run_metrics r)).
Proof.
  intros Hstate Hn0 Hn Hdeps Hret. pose proof Hstate as (Hkeys & Hcode & Hdone).
  destruct (Hcode n node0 Hn0) as (node & Hnode & Hsame).
  pose proof (always_returns_same_code node node0 Hsame Hret) as Hret'.
  destruct Hsame as (Hd & _).
  unfold begin_node. rewrite Hnode.
  rewrite check_dependencies_completed.
  2:{ intros dep Hdep. rewrite Hd in Hdep.
      destruct (Hdone dep (Hdeps dep Hdep)) as (depNode & Hdn & Hst & _). eauto. }
  destruct (Hret' (gather_inputs (run_dag (start_node r n)) (dependencies node)) n) as [v Hv].
  cbv zeta. rewrite Hv.
  pose proof (start_node_wave_state graph0 done r n Hstate Hn) as Hstart.
  destruct (awaits node).
  - eexists _, _. split; [reflexivity |]. right. split; [eauto |]. split; [assumption |].
    reflexivity.
  - eexists _, _. split; [reflexivity |]. left. split; [eauto |]. split; [| reflexivity].
    apply commit_node_wave_state; [assumption |]. eapply JsMap.get_Some_keys; eauto.
Qed.

(** The calls that completed without an [await]. *)
Fixpoint settled_count (calls : list (string * Call)) : nat :=
  match calls with
  | [] => 0
  | (_, settled _) :: rest => S (settled_count rest)
  | (_, awaited _) :: rest => settled_count rest
  end.

(** A call that has returned, or will. *)
Definition returning (done : gset string) (c : string * Call) : Prop :=
  ((exists v, c.2 = settled (Ok v)) /\ c.1 ∈ done) \/ (exists v, c.2 = awaited (Ok v)).

Lemma begin_all_returns graph0 (ready : list string) : forall (done : gset string) (r : Run),
  wave_state graph0 done r ->
  NoDup ready ->
  (forall n, n ∈ ready ->
     (n ∉ done)
     /\ exists node0, JsMap.get graph0 n = Some node0
                      /\ (forall dep, dep ∈ dependencies node0 -> dep ∈ done)
                      /\ always_returns node0) ->
  exists calls r1 done1,
    begin_all ready r = (calls, r1)
    /\ calls.*1 = ready
    /\ done ⊆ done1 /\ done1 ⊆ done ∪ list_to_set ready
    /\ wave_state graph0 done1 r1
    /\ Forall (returning done1) calls
    /\ nodesExecuted (run_metrics r1) = nodesExecuted (run_metrics r) + settled_count calls
    /\ dagsExecuted (run_metrics r1) = dagsExecuted (run_metrics r)
    /\ parallelExecutions (run_metrics r1) = parallelExecutions (run_metrics r).
Proof.
  induction ready as [| n ready IH]; intros done r Hstate Hnd Hready.
  - exists [], r, done. split; [reflexivity |]. split; [reflexivity |].
    split; [set_solver |]. split; [set_solver |]. split; [assumption |].
    split; [constructor |]. simpl. repeat split; lia.
  - apply NoDup_cons in Hnd as [Hn Hnd].
    destruct (Hready n) as (Hnd0 & node0 & Hn0 & Hdeps & Hret); [left |].
    destruct (begin_node_returns graph0 done r n node0 Hstate Hn0 Hnd0 Hdeps Hret)
      as (call & r1 & Hbegin & Hcase).
    assert (exists done', done ⊆ done' /\ done' ⊆ done ∪ {[n]}
                          /\ wave_state graph0 done' r1
                          /\ returning done' (n, call)
                          /\ nodesExecuted (run_metrics r1)
                             = nodesExecuted (run_metrics r) + settled_count [(n, call)]
                          /\ dagsExecuted (run_metrics r1) = dagsExecuted (run_metrics r)
                          /\ parallelExecutions (run_metrics r1)
                             = parallelExecutions (run_metrics r))
      as (done' & Hsub & Hsup & Hstate1 & Hcall & Hm1 & Hm2 & Hm3).
    { destruct Hcase as [([v ->] & Hs & Hm) | ([v ->] & Hs & Hm)].
      - exists (done ∪ {[n]}). split; [set_solver |]. split; [set_solver |].
        split; [assumption |]. split; [left; split; [eauto | set_solver] |].
        rewrite Hm. simpl. repeat split; lia.
      - exists done. split; [set_solver |]. split; [set_solver |].
        split; [assumption |]. split; [right; eauto |].
        rewrite Hm. simpl. repeat split; lia. }
    destruct (IH done' r1 Hstate1 Hnd) as (calls & r2 & done1 & Hall & Hnames & Hsub1 & Hsup1
                                            & Hstate2 & Hcalls & Hn1 & Hn2 & Hn3).
    { intros k Hk. destruct (Hready k) as (Hkd & nodek & Hk0 & Hkdeps & Hkret);
        [right; assumption |].
      split.
      - intros Hin. apply Hsup in Hin. apply elem_of_union in Hin as [Hin | Hin];
          [contradiction |]. apply elem_of_singleton in Hin as ->. contradiction.
      - exists nodek. split; [assumption |]. split; [| assumption].
        intros dep Hdep. apply Hsub, Hkdeps, Hdep. }
    exists ((n, call) :: calls), r2, done1. cbn [begin_all]. rewrite Hbegin, Hall.
    split; [reflexivity |]. split; [rewrite fmap_cons, Hnames; reflexivity |].
    split; [set_solver |]. split; [set_solver |]. split; [assumption |]. split.
    + constructor; [| assumption].
      destruct Hcall as [[Hv Hin] | Hv]; [left; split; [assumption | set_solver] | right; assumption].
    + rewrite Hn1, Hn2, Hn3, Hm1, Hm2, Hm3. simpl in *.
      destruct call; simpl; repeat split; lia.
Qed.

Lemma returning_mono (done done' : gset string) (c : string * Call) :
  done ⊆ done' -> returning done c -> returning done' c.
Proof.
  intros Hsub [[Hv Hin] | Hv]; [left; split; [assumption | apply Hsub, Hin] | right; assumption].
Qed.

Lemma finish_all_returns graph0 (calls : list (string * Call)) : forall (done : gset string) (r : Run),
  wave_state graph0 done r ->
  Forall (fun c => c.1 ∈ JsMap.keys graph0) calls ->
  Forall (returning done) calls ->
  exists r',
    finish_all calls r = (Ok tt, r')
    /\ wave_state graph0 (done ∪ list_to_set calls.*1) r'
    /\ nodesExecuted (run_metrics r') + settled_count calls
       = nodesExecuted (run_metrics r) + length calls
    /\ dagsExecuted (run_metrics r') = dagsExecuted (run_metrics r)
    /\ parallelExecutions (run_metrics r') = parallelExecutions (run_metrics r).
Proof.
  induction calls as [| [n call] calls IH]; intros done r Hstate Hkeys Hcalls.
  - exists r. split; [reflexivity |]. simpl.
    split; [eapply wave_state_mono; [eassumption | set_solver] |]. repeat split; lia.
  - apply Forall_cons in Hkeys as [Hn Hkeys]. apply Forall_cons in Hcalls as [Hcall Hcalls].
    simpl in Hn.
    assert (exists v r1, finish_node n call r = (Ok v, r1)
                         /\ wave_state graph0 (done ∪ {[n]}) r1
                         /\ nodesExecuted (run_metrics r1) + settled_count [(n, call)]
                            = S (nodesExecuted (run_metrics r))
                         /\ dagsExecuted (run_metrics r1) = dagsExecuted (run_metrics r)
                         /\ parallelExecutions (run_metrics r1)
                            = parallelExecutions (run_metrics r))
      as (v & r1 & Hfinish & Hstate1 & Hm1 & Hm2 & Hm3).
    { destruct Hcall as [[[v Hv] Hin] | [v Hv]]; simpl in *; subst call.
      - exists v, r. split; [reflexivity |].
        split; [eapply wave_state_mono; [eassumption | set_solver] |].
        simpl. repeat split; lia.
      - exists v, (commit_node r n v). split; [reflexivity |].
        split; [apply commit_node_wave_state; assumption |]. simpl. repeat split; lia. }
    destruct (IH (done ∪ {[n]}) r1 Hstate1 Hkeys) as (r' & Hrest & Hstate' & Hn1 & Hn2 & Hn3).
    { eapply Forall_impl; [exact Hcalls |]. intros c. apply returning_mono. set_solver. }
    exists r'. cbn [finish_all]. rewrite Hfinish, Hrest. split; [reflexivity |].
    split.
    + eapply wave_state_mono; [eassumption |]. simpl. set_solver.
    + rewrite Hn2, Hn3, Hm2, Hm3. simpl in *. destruct call; simpl in *; repeat split; lia.
Qed.

(** A wave of ready nodes that return: every node of the wave is executed
    and completed. *)
Lemma run_wave_completes graph0 (ready : list string) (done : gset string) (r : Run) :
  wave_state graph0 done r ->
  NoDup ready ->
  (forall n, n ∈ ready ->
     (n ∉ done)
     /\ exists node0, JsMap.get graph0 n = Some node0
                      /\ (forall dep, dep ∈ dependencies node0 -> dep ∈ done)
                      /\ always_returns node0) ->
  exists r',
    run_wave ready r = (Ok tt, r')
    /\ wave_state graph0 (done ∪ list_to_set ready) r'
    /\ nodesExecuted (run_metrics r') = nodesExecuted (run_metrics r) + length ready
    /\ dagsExecuted (run_metrics r') = dagsExecuted (run_metrics r)
    /\ parallelExecutions (run_metrics r') = parallelExecutions (run_metrics r).
Proof.
  intros Hstate Hnd Hready.
  destruct (begin_all_returns graph0 ready done r Hstate Hnd Hready)
    as (calls & r1 & done1 & Hbegin & Hnames & Hsub & Hsup & Hstate1 & Hcalls & Hm1 & Hm2 & Hm3).
  destruct (finish_all_returns graph0 calls done1 r1 Hstate1) as (r' & Hfinish & Hstate' & Hn1 & Hn2 & Hn3).
  { apply Forall_forall. intros c Hc.
    assert (c.1 ∈ ready) as Hin by (rewrite <- Hnames; apply list_elem_of_fmap; eauto).
    destruct (Hready c.1 Hin) as (_ & node0 & Hn0 & _). eapply JsMap.get_Some_keys; eauto. }
  { assumption. }
  exists r'. unfold run_wave. rewrite Hbegin, Hfinish. split; [reflexivity |]. split.
  - eapply wave_state_mono; [eassumption |]. rewrite Hnames. set_solver.
  - assert (length calls = length ready) as Hlen by (rewrite <- Hnames, length_fmap; reflexivity).
    rewrite Hn2, Hn3, Hm2, Hm3. repeat split; lia.
Qed.

Lemma ready_nodes_NoDup (d : DAG) (done inProgress : gset string) :
  NoDup (JsMap.keys (nodes d)) -> NoDup (ready_nodes d done inProgress).
Proof.
  unfold ready_nodes, JsMap.entries, JsMap.keys. generalize (nodes d) as m.
  intros m. induction m as [| [k v] m IH]; intros Hnd; [apply NoDup_nil_2 |].
  simpl in Hnd. apply NoDup_cons in Hnd as [Hk Hnd]. simpl.
  match goal with |- context [if ?c then _ else _] => destruct c end; [| apply IH, Hnd].
  simpl. apply NoDup_cons. split; [| apply IH, Hnd].
  intros Hin. apply Hk. apply list_elem_of_fmap in Hin as (entry & -> & Hin).
  apply list_elem_of_In, List.filter_In in Hin as [Hin _].
  apply list_elem_of_fmap. exists entry. split; [reflexivity |]. apply list_elem_of_In, Hin.
Qed.

(** The ready nodes, read on the graph as [createDAG] made it. *)
Lemma ready_nodes_wave graph0 (done inProgress : gset string) (r : Run) (n : string) :
  NoDup (JsMap.keys graph0) ->
  wave_state graph0 done r ->
  n ∈ ready_nodes (run_dag r) done inProgress ->
  (n ∉ done)
  /\ exists node0, JsMap.get graph0 n = Some node0
                   /\ forall dep, dep ∈ dependencies node0 -> dep ∈ done.
Proof.
  intros Hnd (Hkeys & Hcode & _) Hn.
  apply ready_nodes_spec in Hn as (Hnd0 & node & Hnode & Hdeps); [| rewrite Hkeys; assumption].
  split; [assumption |].
  destruct (JsMap.get graph0 n) as [node0 |] eqn:Hn0.
  - exists node0. split; [reflexivity |].
    destruct (Hcode n node0 Hn0) as (node' & Hnode' & Hd & _).
    rewrite Hnode in Hnode'. injection Hnode' as <-. rewrite <- Hd. assumption.
  - exfalso. apply JsMap.get_None_keys in Hn0. apply Hn0. rewrite <- Hkeys.
    eapply JsMap.get_Some_keys; eauto.
Qed.


(** Nodes without handler whose type is not 'llm' pass their inputs
    through, and so always return. *)
Lemma plain_nodes_always_return (graph : JsMap.t string Node) :
  forallb (fun entry : string * Node =>
             match handler entry.2 with
             | None => bool_decide (node_type entry.2 <> "llm")
             | Some _ => false
             end) graph = true ->
  forall n node, JsMap.get graph n = Some node -> always_returns node.
Proof.
  intros Hall n node Hnode inputs nodeId.
  rewrite List.forallb_forall in Hall.
  specialize (Hall (n, node)). simpl in Hall.
  unfold invoke. destruct (handler node).
  - exfalso. assert (false = true); [| discriminate].
    apply Hall. apply list_elem_of_In. apply JsMap.get_Some_entry. assumption.
  - rewrite decide_False; [eexists; reflexivity |].
    apply (bool_decide_unpack _). apply Is_true_true_2. apply Hall.
    apply list_elem_of_In. apply JsMap.get_Some_entry. assumption.
Qed.

(** [executeNode] changes the state, result and error of a node, never the
    set of nodes or their dependencies. *)
Definition same_shape (graph0 : JsMap.t string Node) (r : Run) : Prop :=
  JsMap.keys (nodes (run_dag r)) = JsMap.keys graph0
  /\ (forall n, dependencies <$> JsMap.get (nodes (run_dag r)) n
                = dependencies <$> JsMap.get graph0 n).

Lemma update_node_same_shape graph0 (r r' : Run) (k : string) (f : Node -> Node) :
  (forall n, dependencies (f n) = dependencies n) ->
  same_shape graph0 r ->
  nodes (run_dag r') = update_node (nodes (run_dag r)) k f ->
  same_shape graph0 r'.
Proof.
  intros Hf [Hkeys Hdeps] Hd. unfold same_shape. rewrite Hd. split.
  - rewrite keys_update_node. assumption.
  - intros n. rewrite get_update_node, <- Hdeps.
    destruct (decide (k = n)) as [-> | Hne]; [| reflexivity].
    destruct (JsMap.get (nodes (run_dag r)) n); simpl; [rewrite Hf |]; reflexivity.
Qed.

Lemma executeNode_same_shape graph0 (n : string) (r : Run) :
  same_shape graph0 r -> same_shape graph0 (executeNode n r).2.
Proof.
  intros Hshape. unfold executeNode.
  destruct (JsMap.get (nodes (run_dag r)) n) as [node |]; [| assumption].
  destruct (check_dependencies (run_dag r) (dependencies node)); [assumption |].
  assert (same_shape graph0 (start_node r n)) as Hstart.
  { apply (update_node_same_shape graph0 r _ n (fun x => with_node_state x running));
      [reflexivity | assumption | reflexivity]. }
  destruct (invoke node _ n) as [v | e |]; cbn [snd]; [| | assumption].
  - apply (update_node_same_shape graph0 (start_node r n) _ n (fun x => complete_node x v));
      [reflexivity | assumption | reflexivity].
  - apply (update_node_same_shape graph0 (start_node r n) _ n (fun x => fail_node x e));
      [reflexivity | assumption | reflexivity].
Qed.





(** *** Properties of [topologicalSort]: the order it returns *)

(** Every dependency of every node names a node of the graph. *)
Definition closed (graph : JsMap.t string Node) : Prop :=
  forall n node dep, JsMap.get graph n = Some node -> dep ∈ dependencies node ->
    dep ∈ JsMap.keys graph.

(** What a call of [visit], or a loop of calls, does to the state
    [(visited, result)]: it pushes nodes that were not visited before, each
    once, and marks exactly these as visited. *)
Definition pushed (graph : JsMap.t string Node) (st st' : gset string * list string) : Prop :=
  exists new, st'.2 = st.2 ++ new
              /\ st'.1 = st.1 ∪ list_to_set new
              /\ NoDup new
              /\ forall x, x ∈ new -> (x ∉ st.1) /\ x ∈ JsMap.keys graph.

Lemma pushed_refl graph st : pushed graph st st.
Proof.
  exists []. rewrite app_nil_r. split; [reflexivity |]. split; [set_solver |].
  split; [apply NoDup_nil_2 |]. intros x Hx. inversion Hx.
Qed.

Lemma pushed_trans graph st1 st2 st3 :
  pushed graph st1 st2 -> pushed graph st2 st3 -> pushed graph st1 st3.
Proof.
  intros (new1 & HR1 & HV1 & Hnd1 & Hnew1) (new2 & HR2 & HV2 & Hnd2 & Hnew2).
  exists (new1 ++ new2). split; [rewrite HR2, HR1, app_assoc; reflexivity |].
  split; [rewrite HV2, HV1, list_to_set_app_L; set_solver |]. split.
  - apply NoDup_app. split; [assumption |]. split; [| assumption].
    intros x Hx1 Hx2. apply (Hnew2 x Hx2). rewrite HV1. set_solver.
  - intros x Hx. apply elem_of_app in Hx as [Hx | Hx]; [apply Hnew1, Hx |].
    destruct (Hnew2 x Hx) as [Hx2 Hk]. split; [| assumption].
    rewrite HV1 in Hx2. set_solver.
Qed.

Lemma pushed_subseteq graph st st' : pushed graph st st' -> st.1 ⊆ st'.1.
Proof. intros (new & _ & -> & _). set_solver. Qed.

Lemma for_each_pushed graph
    (f : string -> gset string * list string -> outcome (gset string * list string))
    (l : list string) :
  (forall n st st', f n st = Ok st' -> pushed graph st st' /\ n ∈ st'.1) ->
  forall st st', for_each f l st = Ok st' ->
    pushed graph st st' /\ forall n, n ∈ l -> n ∈ st'.1.
Proof.
  intros Hf. induction l as [| x l IH]; intros st st'; simpl.
  - intros [= <-]. split; [apply pushed_refl |]. intros n Hn. inversion Hn.
  - destruct (f x st) as [st1 | e |] eqn:Hx; [| discriminate | discriminate].
    intros Hrest. destruct (Hf x st st1 Hx) as [Hp1 Hx1].
    destruct (IH st1 st' Hrest) as [Hp2 Hl]. split; [eapply pushed_trans; eauto |].
    intros n Hn. apply elem_of_cons in Hn as [-> | Hn]; [| apply Hl, Hn].
    apply (pushed_subseteq graph st1 st' Hp2), Hx1.
Qed.

Lemma visit_pushed graph (fuel : nat) : forall n st st',
  visit fuel graph n st = Ok st' -> pushed graph st st' /\ n ∈ st'.1.
Proof.
  induction fuel as [| fuel IH]; intros n st st'; [discriminate |]. simpl.
  destruct (decide (n ∈ st.1)) as [Hin | Hn].
  - intros [= <-]. split; [apply pushed_refl | assumption].
  - destruct (JsMap.get graph n) as [node |] eqn:Hnode; [| discriminate].
    destruct (for_each (visit fuel graph) (dependencies node) ({[n]} ∪ st.1, st.2))
      as [st1 | e |] eqn:Hdeps; [| discriminate | discriminate].
    intros [= <-]. simpl.
    destruct (for_each_pushed graph (visit fuel graph) (dependencies node) IH _ _ Hdeps)
      as [(new & HR & HV & Hnd & Hnew) _]. simpl in HR, HV, Hnew.
    split; [| rewrite HV; set_solver].
    exists (new ++ [n]). simpl. split; [rewrite HR, app_assoc; reflexivity |].
    split; [rewrite HV, list_to_set_app_L; set_solver |]. split.
    + apply NoDup_app. split; [assumption |]. split; [| apply NoDup_singleton].
      intros x Hx Hx'. apply list_elem_of_singleton in Hx' as ->.
      apply (Hnew n Hx). set_solver.
    + intros x Hx. apply elem_of_app in Hx as [Hx | Hx].
      * destruct (Hnew x Hx) as [Hx1 Hx2]. split; [set_solver | assumption].
      * apply list_elem_of_singleton in Hx as ->.
        split; [assumption | eapply JsMap.get_Some_keys; eauto].
Qed.

Lemma for_each_no_throw {S : Type} (f : string -> S -> outcome S) (l : list string) :
  (forall n st e, n ∈ l -> f n st <> Throw e) ->
  forall st e, for_each f l st <> Throw e.
Proof.
  induction l as [| x l IH]; intros Hf st e; simpl; [discriminate |].
  destruct (f x st) as [st1 | e1 |] eqn:Hx.
  - apply IH. intros n st0 e0 Hn. apply Hf. right. assumption.
  - exfalso. apply (Hf x st e1); [left | assumption].
  - discriminate.
Qed.

Lemma visit_no_throw graph (fuel : nat) :
  closed graph ->
  forall n st e, n ∈ JsMap.keys graph -> visit fuel graph n st <> Throw e.
Proof.
  intros Hclosed. induction fuel as [| fuel IH]; intros n st e Hn; [discriminate |]. simpl.
  destruct (decide (n ∈ st.1)); [discriminate |].
  destruct (JsMap.get graph n) as [node |] eqn:Hnode.
  - pose proof (for_each_no_throw (visit fuel graph) (dependencies node)) as Hdeps.
    destruct (for_each (visit fuel graph) (dependencies node) ({[n]} ∪ st.1, st.2))
      as [st1 | e1 |] eqn:Hrun; [discriminate | | discriminate].
    exfalso. eapply Hdeps; [| exact Hrun].
    intros dep st0 e0 Hdep. apply IH. eapply Hclosed; eauto.
  - apply JsMap.get_None_keys in Hnode. contradiction.
Qed.

(** The order lists the dependencies of a node before the node. *)
Definition dependencies_first (graph : JsMap.t string Node) (order : list string) : Prop :=
  forall before n after node dep,
    order = before ++ n :: after -> JsMap.get graph n = Some node ->
    dep ∈ dependencies node -> dep ∈ before.

Lemma dependencies_first_snoc graph order n :
  dependencies_first graph order ->
  (forall node dep, JsMap.get graph n = Some node -> dep ∈ dependencies node -> dep ∈ order) ->
  dependencies_first graph (order ++ [n]).
Proof.
  intros Hord Hn before x after node dep Heq Hx Hdep.
  destruct after as [| y after _] using rev_ind.
  - apply app_inj_tail in Heq as [-> ->]. eapply Hn; eauto.
  - rewrite app_comm_cons, app_assoc in Heq. apply app_inj_tail in Heq as [-> _].
    eapply Hord; eauto.
Qed.

(** The nodes entered and not yet pushed: the callers of the current call. *)
Definition pending_depend_on (graph : JsMap.t string Node) (st : gset string * list string)
    (ns : list string) : Prop :=
  forall p n, p ∈ st.1 -> p ∉ st.2 -> n ∈ ns -> depends_on graph p n.

Lemma pushed_pending graph st st' ns :
  pushed graph st st' -> pending_depend_on graph st ns -> pending_depend_on graph st' ns.
Proof.
  intros (new & HR & HV & _) Hp p n Hp1 Hp2 Hn. apply Hp; [| | assumption].
  - rewrite HV in Hp1. apply elem_of_union in Hp1 as [H | H]; [assumption |].
    exfalso. apply Hp2. rewrite HR. apply elem_of_app. right.
    apply elem_of_list_to_set in H. assumption.
  - intros H. apply Hp2. rewrite HR. apply elem_of_app. left. assumption.
Qed.

Lemma for_each_ordered graph
    (f : string -> gset string * list string -> outcome (gset string * list string))
    (l : list string) :
  (forall n st st', dependencies_first graph st.2 -> pending_depend_on graph st [n] ->
     f n st = Ok st' -> pushed graph st st' /\ dependencies_first graph st'.2 /\ n ∈ st'.2) ->
  forall st st', dependencies_first graph st.2 -> pending_depend_on graph st l ->
    for_each f l st = Ok st' ->
    pushed graph st st' /\ dependencies_first graph st'.2 /\ forall n, n ∈ l -> n ∈ st'.2.
Proof.
  intros Hf. induction l as [| x l IH]; intros st st' Hord Hpend; simpl.
  - intros [= <-]. split; [apply pushed_refl |]. split; [assumption |].
    intros n Hn. inversion Hn.
  - destruct (f x st) as [st1 | e |] eqn:Hx; [| discriminate | discriminate].
    intros Hrest.
    destruct (Hf x st st1 Hord) as (Hp1 & Hord1 & Hx1); [| assumption |].
    { intros p n Hp Hp' Hn. apply list_elem_of_singleton in Hn as ->.
      apply Hpend; [assumption | assumption | left]. }
    destruct (IH st1 st' Hord1) as (Hp2 & Hord2 & Hl); [| assumption |].
    { apply (pushed_pending graph st st1 l Hp1).
      intros p n Hp Hp' Hn. apply Hpend; [assumption | assumption | right; assumption]. }
    split; [eapply pushed_trans; eauto |]. split; [assumption |].
    intros n Hn. apply elem_of_cons in Hn as [-> | Hn]; [| apply Hl, Hn].
    destruct Hp2 as (new & -> & _). apply elem_of_app. left. assumption.
Qed.

Lemma visit_ordered graph (fuel : nat) :
  ~ cyclic graph ->
  forall n st st', dependencies_first graph st.2 -> pending_depend_on graph st [n] ->
    visit fuel graph n st = Ok st' ->
    pushed graph st st' /\ dependencies_first graph st'.2 /\ n ∈ st'.2.
Proof.
  intros Hacyclic. induction fuel as [| fuel IH]; intros n st st' Hord Hpend; [discriminate |].
  simpl. destruct (decide (n ∈ st.1)) as [Hin | Hn].
  - intros [= <-]. split; [apply pushed_refl |]. split; [assumption |].
    destruct (decide (n ∈ st.2)) as [| Hout]; [assumption |].
    exfalso. apply Hacyclic. exists n. apply Hpend; [assumption | assumption | left].
  - destruct (JsMap.get graph n) as [node |] eqn:Hnode; [| discriminate].
    destruct (for_each (visit fuel graph) (dependencies node) ({[n]} ∪ st.1, st.2))
      as [st1 | e |] eqn:Hdeps; [| discriminate | discriminate].
    intros [= <-].
    destruct (for_each_ordered graph (visit fuel graph) (dependencies node) IH
                ({[n]} ∪ st.1, st.2) st1 Hord) as (Hp & Hord1 & Hall); [| exact Hdeps |].
    { intros p dep Hp Hp' Hdep. cbn [fst snd] in Hp, Hp'.
      apply elem_of_union in Hp as [Hp | Hp].
      - apply elem_of_singleton in Hp as ->. eapply depends_direct; eauto.
      - eapply depends_on_trans; [apply (Hpend p n); [assumption | assumption | left] |].
        eapply depends_direct; eauto. }
    pose proof (visit_pushed graph (S fuel) n st) as Hvisit. simpl in Hvisit.
    rewrite decide_False, Hnode, Hdeps in Hvisit by assumption.
    destruct (Hvisit _ eq_refl) as [Hpushed _].
    split; [assumption |]. cbn [snd]. split.
    + apply dependencies_first_snoc; [assumption |].
      intros node' dep Hnode' Hdep. rewrite Hnode in Hnode'. injection Hnode' as <-.
      apply Hall, Hdep.
    + apply elem_of_app. right. left.
Qed.

Lemma topologicalSort_order (d : DAG) :
  closed (nodes d) ->
  exists order, topologicalSort d = Ok order
                /\ NoDup order
                /\ (forall x, x ∈ order <-> x ∈ JsMap.keys (nodes d))
                /\ (~ cyclic (nodes d) -> dependencies_first (nodes d) order).
Proof.
  intros Hclosed. pose proof (topologicalSort_returns d) as Hret. unfold topologicalSort in *.
  destruct (for_each (visit (S (JsMap.size (nodes d))) (nodes d)) (JsMap.keys (nodes d)) (∅, []))
    as [st | e |] eqn:Hrun; [| | congruence].
  - exists st.2. split; [reflexivity |].
    destruct (for_each_pushed (nodes d) _ _ (visit_pushed (nodes d) _) _ _ Hrun)
      as [(new & HR & HV & Hnd & Hnew) Hall]. simpl in HR, HV, Hnew. subst new.
    split; [assumption |]. split.
    + intros x. split; [apply Hnew |]. intros Hx. apply Hall in Hx. rewrite HV in Hx.
      set_solver.
    + intros Hacyclic.
      destruct (for_each_ordered (nodes d) _ (JsMap.keys (nodes d))
                  (visit_ordered (nodes d) (S (JsMap.size (nodes d))) Hacyclic) (∅, []) st)
        as (_ & Hord & _); try assumption.
      * intros before n after node dep Heq. destruct before; discriminate.
      * intros p n Hp. set_solver.
  - exfalso. eapply (for_each_no_throw (visit _ (nodes d))); [| exact Hrun].
    intros n st e0 Hn. apply visit_no_throw; assumption.
Qed.

(** X1: [topologicalSort] lists every node exactly once.  On a graph whose
    dependencies all name nodes it returns an order without repetition whose
    elements are the ids of the nodes, whether the graph has a cycle or not. *)
Theorem topologicalSort_lists_every_node_once (d : DAG) :
  closed (nodes d) ->
  exists order, topologicalSort d = Ok order
                /\ NoDup order
                /\ forall x, x ∈ order <-> x ∈ JsMap.keys (nodes d).
Proof.
  intros Hclosed. destruct (topologicalSort_order d Hclosed) as (order & H1 & H2 & H3 & _).
  exists order. auto.
Qed.

(** X2: on a graph without a dependency cycle, the order returned by
    [topologicalSort] has every dependency of a node before the node. *)
Theorem topologicalSort_dependencies_first (d : DAG) :
  closed (nodes d) -> ~ cyclic (nodes d) ->
  exists order, topologicalSort d = Ok order /\ dependencies_first (nodes d) order.
Proof.
  intros Hclosed Hacyclic.
  destruct (topologicalSort_order d Hclosed) as (order & H1 & _ & _ & H4).
  exists order. auto.
Qed.

(** The dependencies recorded by [createDAG] name declared nodes only. *)
Lemma createDAG_closed (m : QUADManager) (now iso : string) (spec : DagSpec) :
  closed (nodes (createDAG m now iso spec).1).
Proof.
  unfold createDAG. cbn [fst].
  set (dagId := str_or (ds_id spec) ("dag-" +:+ now)).
  set (dag0 := {| dag_id := dagId; dag_name := _; nodes := _; edges := []; dag_state := created;
                  results := JsMap.empty; dag_createdAt := iso |}).
  assert (edges_recorded (declared spec) [] dag0) as H0.
  { split; [reflexivity |]. split.
    - intros x. apply add_nodes_keys.
    - intros x node Hx. apply add_nodes_fresh in Hx as [-> ->]. split; reflexivity. }
  pose proof (add_edges_recorded _ (default [] (ds_edges spec)) dag0 H0) as (He & Hk & Hn).
  intros n node dep Hnode Hdep. destruct (Hn n node Hnode) as [Hd _]. rewrite Hd in Hdep.
  apply list_elem_of_fmap in Hdep as (e & -> & Hin).
  apply list_elem_of_filter in Hin as [[_ Hin] _]. apply Hk. assumption.
Qed.

(** *** [executeDAG] completes the graphs that can be completed *)

(** Each node of [done] is completed and its result is in the results map. *)
Definition recorded (done : gset string) (r : Run) : Prop :=
  forall n, n ∈ done ->
    exists node, JsMap.get (nodes (run_dag r)) n = Some node
                 /\ node_state node = completed
                 /\ JsMap.get (results (run_dag r)) n = Some (node_result node).

Lemma executeNode_recorded (done : gset string) (r r' : Run) (n : string) (v : value) :
  recorded done r -> executeNode n r = (Ok v, r') ->
  recorded (done ∪ {[n]}) r' /\ results (run_dag r') = JsMap.set (results (run_dag r)) n v.
Proof.
  intros Hrec. unfold executeNode.
  destruct (JsMap.get (nodes (run_dag r)) n) as [node |] eqn:Hnode; [| discriminate].
  destruct (check_dependencies _ _); [discriminate |].
  destruct (invoke _ _ _) as [v' | e |]; [| discriminate | discriminate].
  intros [= -> <-]. split; [| reflexivity].
  intros k Hk. unfold commit_node, start_node.
  cbn [run_dag nodes results with_results with_nodes].
  rewrite !get_update_node. destruct (decide (n = k)) as [<- | Hne].
  - rewrite Hnode. cbn. eexists. split; [reflexivity |]. split; [reflexivity |].
    apply JsMap.get_set_eq.
  - rewrite JsMap.get_set_ne by assumption. apply Hrec. set_solver.
Qed.

(** A run over an order that has the dependencies first, on nodes that
    return: every node of the order is executed and completed. *)
Lemma run_in_order_returns graph0 (order : list string) : forall (done : gset string) (r : Run),
  wave_invariant graph0 done r -> recorded done r ->
  (forall before n after, order = before ++ n :: after ->
     exists node, JsMap.get graph0 n = Some node
                  /\ forall dep, dep ∈ dependencies node -> dep ∈ done \/ dep ∈ before) ->
  exists r', run_in_order order r = (Ok tt, r')
             /\ wave_invariant graph0 (done ∪ list_to_set order) r'
             /\ recorded (done ∪ list_to_set order) r'
             /\ nodesExecuted (run_metrics r') = nodesExecuted (run_metrics r) + length order
             /\ dagsExecuted (run_metrics r') = dagsExecuted (run_metrics r)
             /\ parallelExecutions (run_metrics r') = parallelExecutions (run_metrics r).
Proof.
  induction order as [| n order IH]; intros done r Hinv Hrec Horder.
  - exists r. split; [reflexivity |]. simpl.
    split; [eapply wave_invariant_mono; [eassumption | set_solver] |].
    split; [intros k Hk; apply Hrec; set_solver |]. repeat split; lia.
  - destruct (Horder [] n order eq_refl) as (node0 & Hnode0 & Hdeps0).
    pose proof Hinv as (_ & Hd & _). pose proof (Hd n) as Hn. rewrite Hnode0 in Hn.
    destruct (JsMap.get (nodes (run_dag r)) n) as [node |] eqn:Hnode; [| discriminate].
    injection Hn as Hn.
    destruct (executeNode_returns graph0 done r n node Hinv Hnode)
      as (v & r1 & Hrun & Hm1 & Hinv1).
    { intros dep Hdep. rewrite Hn in Hdep. destruct (Hdeps0 dep Hdep) as [H | H]; [assumption |].
      inversion H. }
    destruct (executeNode_recorded done r r1 n v Hrec Hrun) as [Hrec1 _].
    destruct (IH (done ∪ {[n]}) r1 Hinv1 Hrec1) as (r2 & Hrest & Hinv2 & Hrec2 & Hn2 & Hd2 & Hp2).
    { intros before k after Heq.
      destruct (Horder (n :: before) k after) as (nk & Hnk & Hdk); [rewrite Heq; reflexivity |].
      exists nk. split; [assumption |]. intros dep Hdep.
      destruct (Hdk dep Hdep) as [H | H]; [left; set_solver |].
      apply elem_of_cons in H as [-> | H]; [left; set_solver | right; assumption]. }
    exists r2. cbn [run_in_order]. rewrite Hrun. split; [assumption |].
    assert (done ∪ {[n]} ∪ list_to_set order = done ∪ list_to_set (n :: order)) as Hset
      by (apply set_eq; intros x; set_solver).
    rewrite Hset in Hinv2, Hrec2. split; [assumption |]. split; [assumption |].
    rewrite Hn2, Hd2, Hp2, Hm1. cbn. repeat split; lia.
Qed.

(** On a fresh results map, the results are keyed in execution order. *)
Lemma run_in_order_result_keys (order : list string) : forall (r r' : Run),
  NoDup (JsMap.keys (results (run_dag r)) ++ order) ->
  run_in_order order r = (Ok tt, r') ->
  JsMap.keys (results (run_dag r')) = JsMap.keys (results (run_dag r)) ++ order.
Proof.
  induction order as [| n order IH]; intros r r' Hnd; cbn [run_in_order].
  - intros [= <-]. rewrite app_nil_r. reflexivity.
  - destruct (executeNode n r) as [[v | e |] r1] eqn:Hn; [| discriminate | discriminate].
    intros Hrest.
    destruct (executeNode_recorded ∅ r r1 n v) as [_ Hres]; [intros k Hk; set_solver | assumption |].
    assert (n ∉ JsMap.keys (results (run_dag r))) as Hfresh.
    { apply NoDup_app in Hnd as (_ & Hdisj & _). intros Hin. apply (Hdisj n Hin). left. }
    rewrite (IH r1 r'); [| | assumption].
    + rewrite Hres, JsMap.keys_set_notin by assumption. rewrite <- app_assoc. reflexivity.
    + rewrite Hres, JsMap.keys_set_notin by assumption. rewrite <- app_assoc. assumption.
Qed.

(** X3: [executeDAG] completes every graph that can be completed.  When
    the dependencies name nodes, there is no dependency cycle and the nodes
    return, the run returns the results object, the graph is marked
    completed, every node is completed with its result stored under its id,
    a fresh results map ends up keyed in execution order, and the counters
    grow by one graph and one execution per node. *)
Theorem executeDAG_completes (m : QUADManager) (now iso : string) (input : DagInput)
    (key : string) (d : DAG) (m0 : QUADManager) :
  resolve m now iso input = Some (key, d, m0) ->
  closed (nodes d) ->
  ~ cyclic (nodes d) ->
  (forall n node, JsMap.get (nodes d) n = Some node -> always_returns node) ->
  exists order m' d',
    topologicalSort d = Ok order
    /\ executeDAG m now iso input = (Ok (results_object d'), m')
    /\ dags m' !! key = Some d'
    /\ dag_state d' = dag_completed
    /\ (forall n, n ∈ JsMap.keys (nodes d) ->
          exists node, JsMap.get (nodes d') n = Some node
                       /\ node_state node = completed
                       /\ JsMap.get (results d') n = Some (node_result node))
    /\ (results d = JsMap.empty -> JsMap.keys (results d') = order)
    /\ dagsExecuted (metrics m') = S (dagsExecuted (metrics m0))
    /\ nodesExecuted (metrics m') = nodesExecuted (metrics m0) + length order.
Proof.
  intros Hres Hclosed Hacyclic Hret.
  destruct (topologicalSort_order d Hclosed) as (order & Hsort & Hnd & Hkeys & Hfirst).
  specialize (Hfirst Hacyclic).
  destruct (run_in_order_returns (nodes d) order ∅ (started d m0))
    as (r1 & Hrun & Hinv & Hrec & Hn & Hd & _).
  { split; [reflexivity |]. split; [reflexivity |]. split; [exact Hret |].
    intros n Hn. set_solver. }
  { intros n Hn. set_solver. }
  { intros before n after Heq.
    assert (n ∈ JsMap.keys (nodes d)) as Hin
      by (apply Hkeys; rewrite Heq; apply elem_of_app; right; left).
    destruct (JsMap.get (nodes d) n) as [node |] eqn:Hnode;
      [| apply JsMap.get_None_keys in Hnode; contradiction].
    exists node. split; [reflexivity |]. intros dep Hdep. right.
    eapply Hfirst; eauto. }
  exists order. unfold executeDAG. rewrite Hres. unfold run_dag_to_end, sort_and_run.
  change (topologicalSort (run_dag _)) with (topologicalSort d). rewrite Hsort.
  change (run_in_order order _) with (run_in_order order (started d m0)).
  rewrite Hrun. eexists _, (with_dag_state (run_dag r1) dag_completed).
  split; [reflexivity |]. split; [reflexivity |].
  cbn [dags metrics events]. split; [apply lookup_insert_eq |].
  split; [reflexivity |]. split.
  - intros n Hin. apply (Hrec n). apply elem_of_union. right.
    apply elem_of_list_to_set, Hkeys, Hin.
  - split.
    + intros Hempty. cbn [results with_dag_state].
      rewrite (run_in_order_result_keys order (started d m0) r1); [| | assumption].
      * cbn. rewrite Hempty. reflexivity.
      * cbn. rewrite Hempty. assumption.
    + cbn. rewrite Hd, Hn. split; reflexivity.
Qed.

(** *** [executeParallel] completes the graphs that can be completed *)

(** Every node of the graph can become ready: the graph is not [stuck]. *)
Definition runnable (graph : JsMap.t string Node) : Prop :=
  forall n, n ∈ JsMap.keys graph -> completable graph n.

Lemma runnable_closed graph : runnable graph -> closed graph.
Proof.
  intros Hrun n node dep Hnode Hdep.
  pose proof (Hrun n (JsMap.get_Some_keys _ _ _ Hnode)) as Hc.
  inversion Hc as [n' node' Hn' Hdeps]; subst. rewrite Hnode in Hn'. injection Hn' as <-.
  specialize (Hdeps dep Hdep). inversion Hdeps; subst. eapply JsMap.get_Some_keys; eauto.
Qed.

Lemma runnable_acyclic graph : runnable graph -> ~ cyclic graph.
Proof.
  intros Hrun [n Hn]. apply (completable_acyclic graph n); [| assumption].
  apply Hrun. inversion Hn; subst; eapply JsMap.get_Some_keys; eauto.
Qed.

(** A bounded search for the derivation of [completable], for graphs given
    in full. *)
Fixpoint completable_within (fuel : nat) (graph : JsMap.t string Node) (n : string) : bool :=
  match fuel with
  | 0 => false
  | S fuel' =>
      match JsMap.get graph n with
      | Some node => forallb (completable_within fuel' graph) (dependencies node)
      | None => false
      end
  end.

Lemma completable_within_sound graph (fuel : nat) : forall n,
  completable_within fuel graph n = true -> completable graph n.
Proof.
  induction fuel as [| fuel IH]; intros n; [discriminate |]. simpl.
  destruct (JsMap.get graph n) as [node |] eqn:Hnode; [| discriminate].
  intros Hall. rewrite List.forallb_forall in Hall.
  apply (completable_node graph n node Hnode).
  intros dep Hdep. apply IH, Hall, list_elem_of_In, Hdep.
Qed.

Lemma runnable_check graph :
  forallb (completable_within (S (JsMap.size graph)) graph) (JsMap.keys graph) = true ->
  runnable graph.
Proof.
  intros Hall n Hn. rewrite List.forallb_forall in Hall.
  eapply completable_within_sound, Hall, list_elem_of_In, Hn.
Qed.

(** Progress: while a node that can be completed is not done, some node
    that is not done has all its dependencies done. *)
Lemma completable_next graph (done : gset string) (n : string) :
  completable graph n -> n ∉ done ->
  exists k node, (k ∉ done) /\ JsMap.get graph k = Some node
                 /\ forall dep, dep ∈ dependencies node -> dep ∈ done.
Proof.
  intros Hc. induction Hc as [n node Hnode Hdeps IH]. intros Hn.
  destruct (decide (Forall (fun dep => dep ∈ done) (dependencies node))) as [Hall | Hex].
  - exists n, node. rewrite Forall_forall in Hall. auto.
  - apply not_Forall_Exists in Hex; [| intros x; apply _].
    apply Exists_exists in Hex as (dep & Hdep & Hnot). apply (IH dep Hdep Hnot).
Qed.

Lemma ready_nodes_complete (d : DAG) (done inProgress : gset string) (n : string) (node : Node) :
  JsMap.get (nodes d) n = Some node -> n ∉ done -> n ∉ inProgress ->
  (forall dep, dep ∈ dependencies node -> dep ∈ done) ->
  n ∈ ready_nodes d done inProgress.
Proof.
  intros Hnode Hd Hp Hdeps. unfold ready_nodes.
  apply list_elem_of_fmap. exists (n, node). split; [reflexivity |].
  apply list_elem_of_In, List.filter_In. split.
  - apply list_elem_of_In, JsMap.get_Some_entry. assumption.
  - simpl. apply andb_true_intro. split.
    + apply negb_true_iff, orb_false_iff. split; apply bool_decide_eq_false; assumption.
    + apply List.forallb_forall. intros dep Hdep.
      apply bool_decide_eq_true, Hdeps, list_elem_of_In, Hdep.
Qed.

Lemma parallel_loop_completes graph0 (fuel : nat) : forall (done : gset string) (r : Run),
  NoDup (JsMap.keys graph0) ->
  runnable graph0 ->
  (forall n node0, JsMap.get graph0 n = Some node0 -> always_returns node0) ->
  wave_state graph0 done r ->
  (forall n, n ∈ done -> n ∈ JsMap.keys graph0) ->
  length (JsMap.keys graph0) < fuel + size done ->
  exists r', parallel_loop fuel done ∅ r = (Ok tt, r')
             /\ wave_state graph0 (list_to_set (JsMap.keys graph0)) r'
             /\ nodesExecuted (run_metrics r') + size done
                = nodesExecuted (run_metrics r) + length (JsMap.keys graph0)
             /\ parallelExecutions (run_metrics r') + size done
                <= parallelExecutions (run_metrics r) + length (JsMap.keys graph0)
             /\ dagsExecuted (run_metrics r') = dagsExecuted (run_metrics r).
Proof.
  induction fuel as [| fuel IH]; intros done r Hnd Hrun Hret Hstate Hdone Hfuel.
  - exfalso.
    assert (done ⊆ list_to_set (JsMap.keys graph0)) as Hsub
      by (intros n Hn; apply elem_of_list_to_set, Hdone, Hn).
    apply subseteq_size in Hsub. rewrite size_list_to_set in Hsub by assumption.
    simpl in Hfuel. lia.
  - assert (done ⊆ list_to_set (JsMap.keys graph0)) as Hsub
      by (intros n Hn; apply elem_of_list_to_set, Hdone, Hn).
    pose proof Hstate as (Hkeys & Hcode & _).
    assert (JsMap.size (nodes (run_dag r)) = length (JsMap.keys graph0)) as Hsize.
    { rewrite <- Hkeys. unfold JsMap.size, JsMap.keys. rewrite length_fmap. reflexivity. }
    cbn [parallel_loop]. destruct (decide (size done < JsMap.size (nodes (run_dag r)))) as [Hlt | Hge].
    + assert (exists k, k ∈ JsMap.keys graph0 /\ k ∉ done) as (k & Hk & Hkd).
      { destruct (decide (Forall (fun k => k ∈ done) (JsMap.keys graph0))) as [Hall | Hex].
        - exfalso. rewrite Forall_forall in Hall.
          assert (list_to_set (JsMap.keys graph0) ⊆ done) as Hsup
            by (intros x Hx; apply Hall; apply elem_of_list_to_set in Hx; assumption).
          apply subseteq_size in Hsup. rewrite size_list_to_set in Hsup by assumption. lia.
        - apply not_Forall_Exists in Hex; [| intros x; apply _].
          apply Exists_exists in Hex as (k & Hk & Hnot). exists k. auto. }
      destruct (completable_next graph0 done k (Hrun k Hk) Hkd) as (x & node0 & Hxd & Hx0 & Hxdeps).
      assert (forall y, y ∈ ready_nodes (run_dag r) done ∅ ->
                (y ∉ done)
                /\ exists node, JsMap.get graph0 y = Some node
                                /\ forall dep, dep ∈ dependencies node -> dep ∈ done) as Hspec
        by (intros y Hy; apply (ready_nodes_wave graph0 done ∅ r y Hnd Hstate Hy)).
      assert (x ∈ ready_nodes (run_dag r) done ∅) as Hxr.
      { destruct (Hcode x node0 Hx0) as (nodex & Hnodex & Hdx & _).
        apply (ready_nodes_complete (run_dag r) done ∅ x nodex Hnodex Hxd); [set_solver |].
        rewrite Hdx. assumption. }
      pose proof (ready_nodes_NoDup (run_dag r) done ∅) as Hrnd.
      rewrite Hkeys in Hrnd. specialize (Hrnd Hnd).
      destruct (ready_nodes (run_dag r) done ∅) as [| n ready] eqn:Hready; [inversion Hxr |].
      set (r1 := {| run_dag := run_dag r; run_metrics := count_wave (run_metrics r);
                    run_events := run_events r |}).
      destruct (run_wave_completes graph0 (n :: ready) done r1)
        as (r2 & Hwave & Hstate2 & Hn2 & Hd2 & Hp2).
      { exact Hstate. }
      { assumption. }
      { intros y Hy. destruct (Hspec y Hy) as (Hyd & node & Hnode & Hdn).
        split; [assumption |]. exists node. split; [assumption |]. split; [assumption |].
        apply (Hret y node Hnode). }
      rewrite Hwave.
      assert ((∅ ∪ list_to_set (n :: ready)) ∖ list_to_set (n :: ready) = (∅ : gset string))
        as -> by (apply set_eq; intros y; set_solver).
      assert (size (done ∪ list_to_set (n :: ready)) = size done + length (n :: ready)) as Hgrow.
      { rewrite size_union; [rewrite size_list_to_set by assumption; reflexivity |].
        intros y Hy1 Hy2. apply elem_of_list_to_set in Hy2. apply (Hspec y Hy2). assumption. }
      destruct (IH (done ∪ list_to_set (n :: ready)) r2 Hnd Hrun Hret Hstate2)
        as (r' & Hloop & Hstate' & Hn' & Hp' & Hd').
      { intros y Hy. apply elem_of_union in Hy as [Hy | Hy]; [apply Hdone, Hy |].
        apply elem_of_list_to_set in Hy. destruct (Hspec y Hy) as (_ & node & Hnode & _).
        eapply JsMap.get_Some_keys; eauto. }
      { rewrite Hgrow. simpl. simpl in Hfuel. lia. }
      exists r'. split; [assumption |]. split; [assumption |].
      rewrite Hgrow in Hn', Hp'. rewrite Hn2 in Hn'. rewrite Hp2 in Hp'. rewrite Hd', Hd2.
      simpl in Hn', Hp' |- *. repeat split; lia.
    + assert (done = list_to_set (JsMap.keys graph0)) as Hall.
      { apply set_subseteq_size_eq; [assumption |].
        rewrite size_list_to_set by assumption. lia. }
      exists r. split; [reflexivity |]. rewrite <- Hall.
      split; [assumption |].
      assert (size done = length (JsMap.keys graph0)) as Hsz
        by (rewrite Hall at 1; apply size_list_to_set; assumption).
      repeat split; lia.
Qed.

(** X4: [executeParallel] completes every graph in which every node can
    become ready (no cycle, no dependency outside the graph) and the nodes
    return: the loop ends without error, every node is completed with its
    result stored under its id, each node has been executed exactly once,
    and there were at most as many waves as nodes. *)
Theorem executeParallel_completes (r : Run) :
  NoDup (JsMap.keys (nodes (run_dag r))) ->
  runnable (nodes (run_dag r)) ->
  (forall n node, JsMap.get (nodes (run_dag r)) n = Some node -> always_returns node) ->
  exists r',
    executeParallel r = (Ok tt, r')
    /\ (forall n, n ∈ JsMap.keys (nodes (run_dag r)) ->
          exists node, JsMap.get (nodes (run_dag r')) n = Some node
                       /\ node_state node = completed
                       /\ JsMap.get (results (run_dag r')) n = Some (node_result node))
    /\ nodesExecuted (run_metrics r')
       = nodesExecuted (run_metrics r) + JsMap.size (nodes (run_dag r))
    /\ parallelExecutions (run_metrics r')
       <= parallelExecutions (run_metrics r) + JsMap.size (nodes (run_dag r)).
Proof.
  intros Hnd Hrun Hret. unfold executeParallel.
  destruct (parallel_loop_completes (nodes (run_dag r)) (S (JsMap.size (nodes (run_dag r)))) ∅ r)
    as (r' & Hloop & (_ & _ & Hrec) & Hn & Hp & _); try assumption.
  - apply wave_state_initial.
  - intros n Hn. set_solver.
  - rewrite size_empty. unfold JsMap.size, JsMap.keys. rewrite length_fmap. lia.
  - exists r'. split; [assumption |]. rewrite size_empty in Hn, Hp.
    assert (JsMap.size (nodes (run_dag r)) = length (JsMap.keys (nodes (run_dag r)))) as ->
      by (unfold JsMap.size, JsMap.keys; rewrite length_fmap; reflexivity).
    split; [| split; lia].
    intros n Hin. apply Hrec, elem_of_list_to_set, Hin.
Qed.

(** *** [executeDAG] on a graph with a dependency cycle *)

(** An order without repetition that has the dependencies first and covers
    the nodes exists for acyclic graphs only. *)
Lemma NoDup_split_unique (l1 l2 l1' l2' : list string) (x : string) :
  NoDup (l1 ++ x :: l2) -> l1 ++ x :: l2 = l1' ++ x :: l2' -> l1 = l1'.
Proof.
  revert l1'. induction l1 as [| a l1 IH]; intros l1' Hnd Heq.
  - destruct l1' as [| b l1']; [reflexivity |]. simpl in *. injection Heq as <- Heq.
    apply NoDup_cons in Hnd as [Hx _]. exfalso. apply Hx. rewrite Heq.
    apply elem_of_app. right. left.
  - destruct l1' as [| b l1']; simpl in *.
    + injection Heq as -> Heq. apply NoDup_cons in Hnd as [Hx _]. exfalso. apply Hx.
      apply elem_of_app. right. left.
    + injection Heq as <- Heq. apply NoDup_cons in Hnd as [_ Hnd]. f_equal.
      apply IH; assumption.
Qed.

Lemma dependencies_first_before graph (order : list string) (a b : string) :
  NoDup order ->
  (forall x, x ∈ JsMap.keys graph -> x ∈ order) ->
  dependencies_first graph order ->
  depends_on graph a b ->
  exists before after, order = before ++ a :: after /\ b ∈ before.
Proof.
  intros Hnd Hcover Hfirst Hdep.
  induction Hdep as [a node dep Ha Hdep | a node dep k Ha Hdep Hrest IH].
  - destruct (list_elem_of_split order a) as (before & after & Heq).
    { apply Hcover. eapply JsMap.get_Some_keys; eauto. }
    exists before, after. split; [assumption |]. eapply Hfirst; eauto.
  - destruct IH as (before' & after' & Heq' & Hk).
    destruct (list_elem_of_split order a) as (before & after & Heq).
    { apply Hcover. eapply JsMap.get_Some_keys; eauto. }
    exists before, after. split; [assumption |].
    assert (dep ∈ before) as Hin by (eapply Hfirst; eauto).
    apply list_elem_of_split in Hin as (b1 & b2 & ->).
    rewrite <- app_assoc in Heq. simpl in Heq.
    assert (before' = b1) as ->.
    { apply (NoDup_split_unique before' after' b1 (b2 ++ a :: after) dep).
      - rewrite <- Heq'. assumption.
      - rewrite <- Heq'. assumption. }
    apply elem_of_app. left. assumption.
Qed.

Lemma dependencies_first_acyclic graph (order : list string) :
  NoDup order ->
  (forall x, x ∈ JsMap.keys graph -> x ∈ order) ->
  dependencies_first graph order ->
  ~ cyclic graph.
Proof.
  intros Hnd Hcover Hfirst [n Hn].
  destruct (dependencies_first_before graph order n n Hnd Hcover Hfirst Hn)
    as (before & after & Heq & Hin).
  rewrite Heq in Hnd. apply NoDup_app in Hnd as (_ & Hdisj & _).
  apply (Hdisj n Hin). left.
Qed.

Lemma check_dependencies_None d deps :
  check_dependencies d deps = None ->
  forall dep, dep ∈ deps ->
    exists depNode, JsMap.get (nodes d) dep = Some depNode /\ node_state depNode = completed.
Proof.
  induction deps as [| x deps IH]; simpl; intros Hcheck dep Hdep; [inversion Hdep |].
  destruct (JsMap.get (nodes d) x) as [depNode |] eqn:Hx; [| discriminate].
  destruct (node_state depNode) eqn:Hstate; try discriminate.
  apply elem_of_cons in Hdep as [-> | Hdep]; [eauto | apply IH; assumption].
Qed.

Lemma check_dependencies_Some d deps e :
  (forall dep, dep ∈ deps -> dep ∈ JsMap.keys (nodes d)) ->
  check_dependencies d deps = Some e ->
  exists dep, dep ∈ deps /\ e = Error ("Dependency " +:+ dep +:+ " not completed").
Proof.
  induction deps as [| x deps IH]; simpl; intros Hkeys Hcheck; [discriminate |].
  destruct (JsMap.get (nodes d) x) as [depNode |] eqn:Hx.
  - destruct (node_state depNode);
      try (injection Hcheck as <-; exists x; split; [left | reflexivity]).
    destruct IH as (dep & Hdep & ->); [| assumption |].
    + intros dep Hdep. apply Hkeys. right. assumption.
    + exists dep. split; [right; assumption | reflexivity].
  - exfalso. apply JsMap.get_None_keys in Hx. apply Hx, Hkeys. left.
Qed.

(** When [executeNode] returns, the dependencies of the node were
    completed, and no other node has become completed. *)
Lemma executeNode_ok (n : string) (r r' : Run) (v : value) :
  executeNode n r = (Ok v, r') ->
  (exists node, JsMap.get (nodes (run_dag r)) n = Some node
                /\ dependencies_completed (run_dag r) node)
  /\ forall k node', JsMap.get (nodes (run_dag r')) k = Some node' ->
       node_state node' = completed ->
       k = n \/ exists node, JsMap.get (nodes (run_dag r)) k = Some node
                             /\ node_state node = completed.
Proof.
  unfold executeNode.
  destruct (JsMap.get (nodes (run_dag r)) n) as [node |] eqn:Hnode; [| discriminate].
  destruct (check_dependencies (run_dag r) (dependencies node)) eqn:Hcheck; [discriminate |].
  destruct (invoke _ _ _) as [v' | e |]; [| discriminate | discriminate].
  intros [= -> <-]. split.
  - exists node. split; [reflexivity |]. intros dep Hdep.
    apply (check_dependencies_None _ _ Hcheck dep Hdep).
  - intros k node'. unfold commit_node, start_node.
    cbn [run_dag nodes with_results with_nodes]. rewrite !get_update_node.
    destruct (decide (n = k)) as [-> | Hne]; [left; reflexivity |].
    intros Hk Hstate. right. eauto.
Qed.

(** A run that reaches its end went through an order that has the
    dependencies first. *)
Lemma run_in_order_ok_ordered graph0 (order : list string) :
  forall (done : gset string) (r r' : Run),
    same_shape graph0 r ->
    (forall k node, JsMap.get (nodes (run_dag r)) k = Some node ->
       node_state node = completed -> k ∈ done) ->
    run_in_order order r = (Ok tt, r') ->
    forall before n after node dep,
      order = before ++ n :: after -> JsMap.get graph0 n = Some node ->
      dep ∈ dependencies node -> dep ∈ done \/ dep ∈ before.
Proof.
  induction order as [| x order IH]; intros done r r' Hshape Hdone; cbn [run_in_order].
  - intros _ before n after node dep Heq. destruct before; discriminate.
  - destruct (executeNode x r) as [[v | e |] r1] eqn:Hx; [| discriminate | discriminate].
    intros Hrest before n after node dep Heq Hnode Hdep.
    destruct (executeNode_ok x r r1 v Hx) as [(nodex & Hnodex & Hdeps) Hstates].
    destruct before as [| y before]; simpl in Heq; injection Heq as <- Heq.
    + left. destruct Hshape as [_ Hd]. pose proof (Hd x) as Hdx.
      rewrite Hnodex, Hnode in Hdx. injection Hdx as Hdx. rewrite <- Hdx in Hdep.
      destruct (Hdeps dep Hdep) as (depNode & Hget & Hstate). eapply Hdone; eauto.
    + pose proof (executeNode_same_shape graph0 x r Hshape) as Hshape1.
      rewrite Hx in Hshape1. cbn [snd] in Hshape1.
      destruct (IH (done ∪ {[x]}) r1 r' Hshape1) with (2 := Hrest) (3 := Heq) (4 := Hnode)
        (5 := Hdep) as [H | H].
      * intros k nodek Hk Hstate. destruct (Hstates k nodek Hk Hstate) as [-> | (nk & Hnk & Hs)];
          [set_solver |]. apply elem_of_union. left. eapply Hdone; eauto.
      * apply elem_of_union in H as [H | H]; [left; assumption |].
        apply elem_of_singleton in H as ->. right. left.
      * right. right. assumption.
Qed.

Lemma executeNode_always_returns (n : string) (r : Run) :
  (forall k node, JsMap.get (nodes (run_dag r)) k = Some node -> always_returns node) ->
  forall k node, JsMap.get (nodes (run_dag (executeNode n r).2)) k = Some node ->
    always_returns node.
Proof.
  intros Hret. unfold executeNode.
  destruct (JsMap.get (nodes (run_dag r)) n) as [noden |] eqn:Hn; [| assumption].
  destruct (check_dependencies _ _); [assumption |].
  assert (forall f : Node -> Node,
            (forall x inputs nodeId, invoke (f x) inputs nodeId = invoke x inputs nodeId) ->
            forall m, (forall k node, JsMap.get m k = Some node -> always_returns node) ->
            forall k node, JsMap.get (update_node m n f) k = Some node -> always_returns node)
    as Hupd.
  { intros f Hf m Hm k node. rewrite get_update_node.
    destruct (decide (n = k)) as [<- | Hne]; [| apply Hm].
    destruct (JsMap.get m n) as [x |] eqn:Hx; [| discriminate].
    intros [= <-] inputs nodeId. rewrite Hf. apply (Hm n x Hx). }
  destruct (invoke noden _ n) as [v | e |]; cbn [snd].
  - unfold commit_node, start_node. cbn [run_dag nodes with_results with_nodes].
    apply Hupd; [reflexivity |]. apply Hupd; [reflexivity | assumption].
  - unfold reject_node, start_node. cbn [run_dag nodes with_nodes].
    apply Hupd; [reflexivity |]. apply Hupd; [reflexivity | assumption].
  - unfold start_node. cbn [run_dag nodes with_nodes].
    apply Hupd; [reflexivity | assumption].
Qed.

(** On nodes that return, the only failure of a run is a dependency that
    is not completed. *)
Lemma run_in_order_settles graph0 (order : list string) : forall (r : Run),
  same_shape graph0 r ->
  closed graph0 ->
  (forall n, n ∈ order -> n ∈ JsMap.keys graph0) ->
  (forall k node, JsMap.get (nodes (run_dag r)) k = Some node -> always_returns node) ->
  (exists r', run_in_order order r = (Ok tt, r'))
  \/ exists dep r', run_in_order order r
                    = (Throw (Error ("Dependency " +:+ dep +:+ " not completed")), r').
Proof.
  induction order as [| x order IH]; intros r Hshape Hclosed Hin Hret; cbn [run_in_order].
  - left. eauto.
  - pose proof (executeNode_same_shape graph0 x r Hshape) as Hshape1.
    pose proof (executeNode_always_returns x r Hret) as Hret1.
    assert (exists v r1, executeNode x r = (Ok v, r1)
            \/ exists dep, executeNode x r
                           = (Throw (Error ("Dependency " +:+ dep +:+ " not completed")), r1))
      as (v & r1 & Hx).
    { unfold executeNode. destruct Hshape as [Hkeys Hd].
      destruct (JsMap.get (nodes (run_dag r)) x) as [node |] eqn:Hnode.
      - destruct (check_dependencies (run_dag r) (dependencies node)) as [e |] eqn:Hcheck.
        + apply check_dependencies_Some in Hcheck as (dep & _ & ->); [exists VNull; eauto |].
          intros dep Hdep. rewrite Hkeys. pose proof (Hd x) as Hdx. rewrite Hnode in Hdx.
          destruct (JsMap.get graph0 x) as [node0 |] eqn:Hnode0; [| discriminate].
          injection Hdx as Hdx. rewrite Hdx in Hdep. eapply Hclosed; eauto.
        + destruct (Hret x node Hnode
                      (gather_inputs (run_dag (start_node r x)) (dependencies node)) x)
            as [v ->]. eauto.
      - exfalso. apply JsMap.get_None_keys in Hnode. apply Hnode. rewrite Hkeys.
        apply Hin. left. }
    destruct Hx as [Hx | [dep Hx]]; rewrite Hx in *; cbn [snd] in *; [| right; eauto].
    apply IH; try assumption. intros n Hn. apply Hin. right. assumption.
Qed.

(** X5: [executeDAG] never completes a graph with a dependency cycle.
    [topologicalSort] does not detect the cycle; on a graph none of whose
    nodes is completed yet the run ends in an error whatever the handlers
    do, and when the nodes that are run return, the error is that of
    [executeNode], 'Dependency ... not completed', and the graph is marked
    failed. *)
Theorem executeDAG_rejects_cycle (m : QUADManager) (now iso : string) (input : DagInput)
    (key : string) (d : DAG) (m0 : QUADManager) :
  resolve m now iso input = Some (key, d, m0) ->
  closed (nodes d) ->
  cyclic (nodes d) ->
  (forall n node, JsMap.get (nodes d) n = Some node -> node_state node <> completed) ->
  (forall v, (executeDAG m now iso input).1 <> Ok v)
  /\ ((forall n node, JsMap.get (nodes d) n = Some node -> always_returns node) ->
      exists dep m' d',
        executeDAG m now iso input
        = (Throw (Error ("Dependency " +:+ dep +:+ " not completed")), m')
        /\ dags m' !! key = Some d'
        /\ dag_state d' = dag_failed).
Proof.
  intros Hres Hclosed Hcyclic Hfresh.
  destruct (topologicalSort_order d Hclosed) as (order & Hsort & Hnd & Hkeys & _).
  assert (forall r', run_in_order order (started d m0) <> (Ok tt, r')) as Hnever.
  { intros r' Hrun.
    apply (dependencies_first_acyclic (nodes d) order Hnd); [apply Hkeys | | assumption].
    intros before n after node dep Heq Hnode Hdep.
    destruct (run_in_order_ok_ordered (nodes d) order ∅ (started d m0) r') with (3 := Hrun)
      (4 := Heq) (5 := Hnode) (6 := Hdep) as [H | H]; [| | set_solver | assumption].
    - split; reflexivity.
    - intros k nodek Hk Hstate. exfalso. apply (Hfresh k nodek Hk Hstate). }
  unfold executeDAG. rewrite Hres. unfold run_dag_to_end, sort_and_run.
  change (topologicalSort (run_dag _)) with (topologicalSort d). rewrite Hsort.
  change (run_in_order order _) with (run_in_order order (started d m0)).
  split.
  - intros v. destruct (run_in_order order (started d m0)) as [[[] | e |] r1] eqn:Hrun;
      cbn; [| discriminate | discriminate].
    exfalso. apply (Hnever r1). reflexivity.
  - intros Hret.
    destruct (run_in_order_settles (nodes d) order (started d m0))
      as [[r' Hrun] | (dep & r' & Hrun)]; try assumption.
    + split; reflexivity.
    + intros n Hn. apply Hkeys, Hn.
    + exfalso. apply (Hnever r' Hrun).
    + rewrite Hrun. exists dep. eexists _, _. split; [reflexivity |].
      cbn [dags]. split; [apply lookup_insert_eq | reflexivity].
Qed.

(** *** What a refused or unknown request leaves behind *)

(** X24: [executeNode] refuses a node that is not ready, and touches
    nothing.  For an id that names no node it throws 'Node not found'; for
    a node one of whose dependencies is not completed it throws before the
    node is started: in both cases the graph, the counters and the event
    log are those it was given, and the handler has not been called. *)
Theorem executeNode_refuses_unready (nodeId : string) (r : Run) :
  (JsMap.get (nodes (run_dag r)) nodeId = None ->
   executeNode nodeId r = (Throw (Error ("Node not found: " +:+ nodeId)), r))
  /\ (forall node dep,
        JsMap.get (nodes (run_dag r)) nodeId = Some node ->
        dep ∈ dependencies node ->
        (forall depNode, JsMap.get (nodes (run_dag r)) dep = Some depNode ->
                         node_state depNode <> completed) ->
        exists e, executeNode nodeId r = (Throw e, r)).
Proof using Type.
  unfold executeNode. split.
  - intros ->. reflexivity.
  - intros node dep -> Hdep Hstate.
    destruct (check_dependencies (run_dag r) (dependencies node)) as [e |] eqn:Hcheck;
      [eauto |].
    exfalso. destruct (check_dependencies_None _ _ Hcheck dep Hdep) as (depNode & Hget & Hdone).
    apply (Hstate depNode Hget Hdone).
Qed.

Lemma createDAG_dag_id (m : QUADManager) (now iso : string) (spec : DagSpec) :
  dag_id (createDAG m now iso spec).1 = str_or (ds_id spec) ("dag-" +:+ now).
Proof using Type.
  unfold createDAG. cbn [fst].
  assert (forall es d, dag_id (fold_left add_edge es d) = dag_id d) as Hid.
  { intros es. induction es as [| e es IH]; intros d; [reflexivity |].
    simpl. rewrite IH. unfold add_edge.
    destruct (JsMap.get (nodes d) (from e)), (JsMap.get (nodes d) (to e)); reflexivity. }
  rewrite Hid. reflexivity.
Qed.

(** X25: [executeDAG] works on one entry of the registry.  For an id that
    is not registered it throws 'DAG not found' and leaves the manager as
    it was; in every other case, whatever the outcome of the run, the
    graphs registered under other ids are untouched. *)
Theorem executeDAG_touches_one_graph (m : QUADManager) (now iso : string) (input : DagInput) :
  (forall dagId, input = by_id dagId -> dags m !! dagId = None ->
     executeDAG m now iso input = (Throw (Error "DAG not found"), m))
  /\ (forall key d m0, resolve m now iso input = Some (key, d, m0) ->
        forall k, k <> key -> dags (executeDAG m now iso input).2 !! k = dags m !! k).
Proof using Type.
  split.
  - intros dagId -> Hnone. unfold executeDAG, resolve. rewrite Hnone. reflexivity.
  - intros key d m0 Hres k Hk. unfold executeDAG. rewrite Hres.
    destruct (run_dag_to_end _) as [out r]. cbn [snd dags].
    rewrite lookup_insert_ne by congruence.
    destruct input as [dagId | spec]; unfold resolve in Hres.
    + destruct (dags m !! dagId); [| discriminate]. injection Hres as _ _ <-. reflexivity.
    + rewrite (surjective_pairing (createDAG m now iso spec)) in Hres.
      assert (key = str_or (ds_id spec) ("dag-" +:+ now) /\ m0 = (createDAG m now iso spec).2)
        as [-> ->].
      { rewrite <- (createDAG_dag_id m now iso spec). injection Hres as <- _ <-.
        split; reflexivity. }
      unfold createDAG. cbn [snd dags]. apply lookup_insert_ne. congruence.
Qed.

End Execution.

(** *** Concrete graphs *)

(** [new QUADManager()] *)
Definition new_manager : QUADManager :=
  {| dags := ∅;
     metrics := {| dagsExecuted := 0; nodesExecuted := 0; parallelExecutions := 0 |};
     events := [] |}.

Definition plain_node (id : string) : NodeSpec :=
  {| ns_id := id; ns_name := None; ns_type := None; ns_handler := None; ns_config := None |}.


Definition handled_node (id : string) (h : Handler) : NodeSpec :=
  {| ns_id := id; ns_name := None; ns_type := None; ns_handler := Some h; ns_config := None |}.

Definition graph (id : string) (ns : list NodeSpec) (es : list Edge) : DagSpec :=
  {| ds_id := Some id; ds_name := None; ds_nodes := Some ns; ds_edges := Some es |}.

(** The run state for a graph fresh from [createDAG]. *)
Definition fresh_run (spec : DagSpec) : Run :=
  {| run_dag := (createDAG new_manager "0" "t0" spec).1;
     run_metrics := metrics (createDAG new_manager "0" "t0" spec).2;
     run_events := events (createDAG new_manager "0" "t0" spec).2 |}.

(** A gateway that answers every request with the same text. *)
Definition gateway_says (text : string) : value -> value -> outcome value :=
  fun _ _ => Ok (VStr text).

(** Two nodes and an edge from a node that was never declared. *)
Definition dangling : DagSpec :=
  graph "g" [plain_node "a"; plain_node "b"]
    [{| from := "a"; to := "b" |}; {| from := "ghost"; to := "b" |}].

(** C2 as stated fails: the edge from the undeclared node 'ghost' raises no
    error.  The graph is built and registered; the edge sits in its edge
    list, adds no dependency to 'b', and the graph runs to completion. *)
Lemma createDAG_accepts_undeclared_endpoint :
  bool_decide ("ghost" ∈ declared dangling) = false
  /\ edges (createDAG new_manager "0" "t0" dangling).1
     = [{| from := "a"; to := "b" |}; {| from := "ghost"; to := "b" |}]
  /\ (dependencies <$> JsMap.get (nodes (createDAG new_manager "0" "t0" dangling).1) "b")
     = Some ["a"]
  /\ dags (createDAG new_manager "0" "t0" dangling).2 !! "g"
     = Some (createDAG new_manager "0" "t0" dangling).1
  /\ (executeDAG (gateway_says "") new_manager "0" "t0" (by_spec dangling)).1
     = Ok (VObj [("a", pass_through [] "a");
                 ("b", pass_through [("a", pass_through [] "a")] "b")]).
Proof. repeat split; reflexivity. Qed.



(** A dependency called [__proto__]: its result is stored, but the inputs
    of b get no property for it. *)
Example executeDAG_proto_dependency :
  (executeDAG (gateway_says "") new_manager "0" "t0"
     (by_spec (graph "g" [plain_node "__proto__"; plain_node "b"]
                 [{| from := "__proto__"; to := "b" |}]))).1
  = Ok (VObj [("__proto__", pass_through [] "__proto__"); ("b", pass_through [] "b")]).
Proof. reflexivity. Qed.

(** A handler that throws. *)
Definition throws (text : string) : Handler := fun _ _ => Throw (Error text).
(** A handler that returns a constant. *)
Definition returns (v : value) : Handler := fun _ _ => Ok v.

(** a -> b -> c, where the handler of b throws. *)
Definition chain : DagSpec :=
  graph "g" [handled_node "a" (returns (VStr "A")); handled_node "b" (throws "boom");
             handled_node "c" (returns (VStr "C"))]
    [{| from := "a"; to := "b" |}; {| from := "b"; to := "c" |}].



(** The run of [chain]: a's result stays in the results map, b is failed,
    c is still pending, and the caller gets the error. *)
Example executeDAG_chain :
  match executeDAG (gateway_says "") new_manager "0" "t0" (by_spec chain) with
  | (Throw e, m') =>
      e = Error "boom"
      /\ (dag_state <$> dags m' !! "g") = Some dag_failed
      /\ (results <$> dags m' !! "g") = Some [("a", VStr "A")]
      /\ ((fun d => node_state <$> JsMap.values (nodes d)) <$> dags m' !! "g")
         = Some [completed; failed; pending]
  | _ => False
  end.
Proof. vm_compute. repeat split. Qed.

(** An independent node x and the cycle a -> b -> a. *)
Definition knot : DagSpec :=
  graph "k" [plain_node "x"; plain_node "a"; plain_node "b"]
    [{| from := "a"; to := "b" |}; {| from := "b"; to := "a" |}].







(** The run of [knot]: x is executed in the first wave, then no node is
    ready. *)
Example executeParallel_knot :
  match executeParallel (gateway_says "") (fresh_run knot) with
  | (Throw e, r') =>
      e = circular_dependencies
      /\ node_state <$> JsMap.values (nodes (run_dag r')) = [completed; pending; pending]
      /\ parallelExecutions (run_metrics r') = 1
  | _ => False
  end.
Proof. vm_compute. repeat split. Qed.

(** The same scheduler completes an acyclic graph, wave by wave. *)
Example executeParallel_dangling :
  match executeParallel (gateway_says "") (fresh_run dangling) with
  | (Ok _, r') =>
      node_state <$> JsMap.values (nodes (run_dag r')) = [completed; completed]
      /\ parallelExecutions (run_metrics r') = 2
  | _ => False
  end.
Proof. vm_compute. repeat split. Qed.
(** Every node of a graph made by [createDAG] is pending. *)
Lemma createDAG_pending (m : QUADManager) (now iso : string) (spec : DagSpec) :
  forall n node, JsMap.get (nodes (createDAG m now iso spec).1) n = Some node ->
    node_state node = pending.
Proof.
  unfold createDAG. cbn [fst].
  set (dag0 := {| dag_id := _; dag_name := _; nodes := _; edges := []; dag_state := created;
                  results := JsMap.empty; dag_createdAt := iso |}).
  assert (forall n node, JsMap.get (nodes dag0) n = Some node -> node_state node = pending) as H0.
  { unfold dag0. cbn [nodes].
    induction (default [] (ds_nodes spec)) as [| x l IH] using rev_ind; [discriminate |].
    intros n node. rewrite fold_left_app. simpl. unfold add_node at 1.
    destruct (decide (ns_id x = n)) as [<- | Hne].
    - rewrite JsMap.get_set_eq. intros [= <-]. reflexivity.
    - rewrite JsMap.get_set_ne by assumption. apply IH. }
  revert H0. generalize dag0.
  induction (default [] (ds_edges spec)) as [| e es IH]; intros d Hd; [assumption |].
  simpl. apply IH. intros n node. unfold add_edge.
  destruct (JsMap.get (nodes d) (from e)) as [nf |] eqn:Hf;
    [destruct (JsMap.get (nodes d) (to e)) as [nt |] eqn:Ht |]; cbn [nodes with_nodes with_edges];
    [| apply Hd | apply Hd].
  rewrite !get_update_node.
  destruct (JsMap.get (nodes d) n) as [x |] eqn:Hx;
    [| destruct (decide (from e = n)), (decide (to e = n)); discriminate].
  specialize (Hd n x Hx).
  destruct (decide (from e = n)), (decide (to e = n)); simpl; intros [= <-]; assumption.
Qed.

(** Node d needs b and c, which both need a; the nodes are declared in the
    reverse of the order they can run in. *)
Definition diamond : DagSpec :=
  graph "w" [plain_node "d"; plain_node "c"; plain_node "b"; plain_node "a"]
    [{| from := "a"; to := "b" |}; {| from := "a"; to := "c" |};
     {| from := "b"; to := "d" |}; {| from := "c"; to := "d" |}].

Definition diamond_dag : DAG := (createDAG new_manager "0" "t0" diamond).1.
Definition diamond_manager : QUADManager := (createDAG new_manager "0" "t0" diamond).2.

Example topologicalSort_diamond : topologicalSort diamond_dag = Ok ["a"; "b"; "c"; "d"].
Proof. reflexivity. Qed.

Lemma topologicalSort_lists_every_node_once_witness :
  exists order, topologicalSort diamond_dag = Ok order
                /\ NoDup order
                /\ forall x, x ∈ order <-> x ∈ JsMap.keys (nodes diamond_dag).
Proof.
  apply (topologicalSort_lists_every_node_once diamond_dag). apply createDAG_closed.
Defined.

Lemma topologicalSort_dependencies_first_witness :
  exists order, topologicalSort diamond_dag = Ok order
                /\ dependencies_first (nodes diamond_dag) order.
Proof.
  apply (topologicalSort_dependencies_first diamond_dag).
  - apply createDAG_closed.
  - apply runnable_acyclic, runnable_check. reflexivity.
Defined.

Lemma executeDAG_completes_witness :
  exists order m' d',
    topologicalSort diamond_dag = Ok order
    /\ executeDAG (gateway_says "") new_manager "0" "t0" (by_spec diamond)
       = (Ok (results_object d'), m')
    /\ dags m' !! "w" = Some d'
    /\ dag_state d' = dag_completed
    /\ (forall n, n ∈ JsMap.keys (nodes diamond_dag) ->
          exists node, JsMap.get (nodes d') n = Some node
                       /\ node_state node = completed
                       /\ JsMap.get (results d') n = Some (node_result node))
    /\ (results diamond_dag = JsMap.empty -> JsMap.keys (results d') = order)
    /\ dagsExecuted (metrics m') = S (dagsExecuted (metrics diamond_manager))
    /\ nodesExecuted (metrics m') = nodesExecuted (metrics diamond_manager) + length order.
Proof.
  apply (executeDAG_completes (gateway_says "") new_manager "0" "t0" (by_spec diamond)
           "w" diamond_dag diamond_manager).
  - reflexivity.
  - apply createDAG_closed.
  - apply runnable_acyclic, runnable_check. reflexivity.
  - apply plain_nodes_always_return. reflexivity.
Defined.

(** The run of [diamond]: the results are keyed in execution order, and d
    has received the results of b and c. *)
Example executeDAG_diamond :
  match executeDAG (gateway_says "") new_manager "0" "t0" (by_spec diamond) with
  | (Ok (VObj res), m') =>
      JsMap.keys res = ["a"; "b"; "c"; "d"]
      /\ JsMap.get res "d"
         = Some (pass_through
                   [("b", pass_through [("a", pass_through [] "a")] "b");
                    ("c", pass_through [("a", pass_through [] "a")] "c")] "d")
      /\ metrics m' = {| dagsExecuted := 1; nodesExecuted := 4; parallelExecutions := 0 |}
  | _ => False
  end.
Proof. vm_compute. repeat split. Qed.

Lemma executeParallel_completes_witness :
  exists r',
    executeParallel (gateway_says "") (fresh_run diamond) = (Ok tt, r')
    /\ (forall n, n ∈ JsMap.keys (nodes (run_dag (fresh_run diamond))) ->
          exists node, JsMap.get (nodes (run_dag r')) n = Some node
                       /\ node_state node = completed
                       /\ JsMap.get (results (run_dag r')) n = Some (node_result node))
    /\ nodesExecuted (run_metrics r')
       = nodesExecuted (run_metrics (fresh_run diamond))
         + JsMap.size (nodes (run_dag (fresh_run diamond)))
    /\ parallelExecutions (run_metrics r')
       <= parallelExecutions (run_metrics (fresh_run diamond))
          + JsMap.size (nodes (run_dag (fresh_run diamond))).
Proof.
  apply (executeParallel_completes (gateway_says "") (fresh_run diamond)).
  - apply createDAG_keys_NoDup.
  - apply runnable_check. reflexivity.
  - apply plain_nodes_always_return. reflexivity.
Defined.

(** The waves of [diamond]: a, then b and c together, then d. *)
Example executeParallel_diamond :
  match executeParallel (gateway_says "") (fresh_run diamond) with
  | (Ok _, r') =>
      JsMap.keys (results (run_dag r')) = ["a"; "c"; "b"; "d"]
      /\ run_metrics r' = {| dagsExecuted := 0; nodesExecuted := 4; parallelExecutions := 3 |}
  | _ => False
  end.
Proof. vm_compute. repeat split. Qed.

Lemma executeDAG_rejects_cycle_witness :
  (forall v, (executeDAG (gateway_says "") new_manager "0" "t0" (by_spec knot)).1 <> Ok v)
  /\ exists dep m' d',
       executeDAG (gateway_says "") new_manager "0" "t0" (by_spec knot)
       = (Throw (Error ("Dependency " +:+ dep +:+ " not completed")), m')
       /\ dags m' !! "k" = Some d'
       /\ dag_state d' = dag_failed.
Proof.
  destruct (executeDAG_rejects_cycle (gateway_says "") new_manager "0" "t0" (by_spec knot)
              "k" (createDAG new_manager "0" "t0" knot).1 (createDAG new_manager "0" "t0" knot).2)
    as [Hnever Hthrows].
  - reflexivity.
  - apply createDAG_closed.
  - exists "a".
    eapply depends_step; [reflexivity | left |].
    eapply depends_direct; [reflexivity | left].
  - intros n node Hnode. rewrite (createDAG_pending _ _ _ _ n node Hnode). discriminate.
  - split; [exact Hnever |]. apply Hthrows.
    apply plain_nodes_always_return. reflexivity.
Defined.

(** The run of [knot]: the order is x, b, a; x is executed, then b is
    refused because a, which the order places after it, is not completed. *)
Example executeDAG_knot :
  match executeDAG (gateway_says "") new_manager "0" "t0" (by_spec knot) with
  | (Throw e, m') =>
      e = Error "Dependency a not completed"
      /\ ((fun d => node_state <$> JsMap.values (nodes d)) <$> dags m' !! "k")
         = Some [completed; pending; pending]
  | _ => False
  end.
Proof. vm_compute. repeat split. Qed.

End Quad.
